(** * Import rewriting scripts (Sprint 2.3 and Sprint 2.4)

    A shallow embedding of [update-imports-sprint23.py] and
    [update-imports-sprint24.py]: the pattern tables, [re.sub] on the
    fragment of regular expressions the tables use, the text-mode file
    operations the scripts rely on (UTF-8 with [errors='ignore'], universal
    newlines), [update_file] and [main]. *)

From Stdlib Require Import List String Ascii NArith Arith Bool Lia Permutation.
From Stdlib Require Import DecimalString.
From Stdlib.Strings Require Import Byte.
Import ListNotations.

Local Open Scope string_scope.
Local Open Scope list_scope.

(** ** Text *)

(** A Python [str] is a sequence of code points. *)
Definition char := N.
Definition str := list char.

Definition text (s : string) : str := map N_of_ascii (list_ascii_of_string s).

Fixpoint str_eqb (a b : str) : bool :=
  match a, b with
  | [], [] => true
  | x :: a', y :: b' => N.eqb x y && str_eqb a' b'
  | _, _ => false
  end.

(** ** Regular expressions of the pattern tables

    Every pattern of the two tables is a concatenation of literal
    characters and of one bracketed class, which holds the apostrophe and
    the (backslash-escaped) double quote.  Such an expression matches
    at a position exactly when each of its atoms accepts the character at
    the corresponding offset. *)

Inductive atom : Type :=
| Lit (c : char)
| OneOf (cs : list char).

Definition pattern := list atom.

Definition accepts (a : atom) (c : char) : bool :=
  match a with
  | Lit d => N.eqb d c
  | OneOf cs => existsb (N.eqb c) cs
  end.

Definition lits (s : string) : pattern := map Lit (text s).

Definition apostrophe : char := 39%N.
Definition dquote : char := 34%N.

(** The bracketed class of the two quote characters. *)
Definition quotes : atom := OneOf [apostrophe; dquote].

(** [matches p s]: the pattern matches at the start of [s]
    (what [Pattern.match] does at a given position). *)
Fixpoint matches (p : pattern) (s : str) : bool :=
  match p with
  | [] => true
  | a :: p' =>
      match s with
      | [] => false
      | c :: s' => accepts a c && matches p' s'
      end
  end.

(** [re.sub(pattern, repl, s)] for a replacement without escapes: scan from
    the left; at a position where the pattern matches, emit the replacement
    and resume after the match; elsewhere copy the character.  [skip]
    counts the characters of the current match still to be passed over.
    An empty match inserts the replacement and copies the next character,
    as Python does. *)
Fixpoint sub_from (p : pattern) (repl : str) (skip : nat) (s : str) : str :=
  match s with
  | [] =>
      match skip with
      | O => if matches p [] then repl else []
      | S _ => []
      end
  | c :: s' =>
      match skip with
      | S k => sub_from p repl k s'
      | O =>
          if matches p s then
            repl ++ match List.length p with
                    | O => c :: sub_from p repl 0 s'
                    | S k => sub_from p repl k s'
                    end
          else c :: sub_from p repl 0 s'
      end
  end.

Definition re_sub (p : pattern) (repl : str) (s : str) : str :=
  sub_from p repl 0 s.

Definition rule := (pattern * str)%type.

(** The loop [for pattern, replacement in patterns: content = re.sub(...)]. *)
Definition apply_patterns (patterns : list rule) (content : str) : str :=
  fold_left (fun content r => re_sub (fst r) (snd r) content) patterns content.

(** ** Exceptions *)

Definition path := list string.

Inductive exn : Type :=
| FileNotFoundError (p : path)
| NotADirectoryError (p : path)
| IsADirectoryError (p : path)
| PermissionError (p : path)
| UnicodeDecodeError
| UnicodeEncodeError
| ValueError (msg : string).

(** ** The UTF-8 codec

    [open(..., encoding='utf-8', errors=...)] decodes with CPython's UTF-8
    decoder.  A malformed sequence is reported with the range of bytes it
    covers: one byte for an invalid start byte, the bytes already accepted
    for an invalid continuation byte, and everything up to the end of the
    data for a truncated sequence.  Under [errors='strict'] the report is a
    [UnicodeDecodeError]; under [errors='ignore'] the range is skipped and
    decoding resumes behind it. *)

Inductive error_policy : Type := Strict | Ignore.

Definition is_continuation (b : N) : bool := ((128 <=? b) && (b <? 192))%N.

(** Second byte of a three-byte sequence: E0 needs A0..BF (no overlong
    forms), ED needs 80..9F (no surrogates). *)
Definition second_ok3 (b0 b1 : N) : bool :=
  (if b0 =? 224 then 160 <=? b1 else if b0 =? 237 then b1 <? 160 else true)%N.

(** Second byte of a four-byte sequence: F0 needs 90..BF, F4 needs 80..8F. *)
Definition second_ok4 (b0 b1 : N) : bool :=
  (if b0 =? 240 then 144 <=? b1 else if b0 =? 244 then b1 <? 144 else true)%N.

Definition emit (c : char) (rest : exn + str) : exn + str :=
  match rest with
  | inl e => inl e
  | inr s => inr (c :: s)
  end.

Definition malformed (errors : error_policy) (resume : exn + str) : exn + str :=
  match errors with
  | Strict => inl UnicodeDecodeError
  | Ignore => resume
  end.

Fixpoint utf8_decode (errors : error_policy) (bs : list byte) {struct bs}
  : exn + str :=
  match bs with
  | [] => inr []
  | x0 :: r0 =>
      let b0 := Byte.to_N x0 in
      if (b0 <? 128)%N then emit b0 (utf8_decode errors r0)
      else if (b0 <? 194)%N then malformed errors (utf8_decode errors r0)
      else if (b0 <? 224)%N then
        match r0 with
        | [] => malformed errors (inr [])
        | x1 :: r1 =>
            let b1 := Byte.to_N x1 in
            if is_continuation b1
            then emit ((b0 - 192) * 64 + (b1 - 128))%N (utf8_decode errors r1)
            else malformed errors (utf8_decode errors r0)
        end
      else if (b0 <? 240)%N then
        match r0 with
        | [] => malformed errors (inr [])
        | x1 :: r1 =>
            let b1 := Byte.to_N x1 in
            if is_continuation b1 && second_ok3 b0 b1 then
              match r1 with
              | [] => malformed errors (inr [])
              | x2 :: r2 =>
                  let b2 := Byte.to_N x2 in
                  if is_continuation b2
                  then emit ((b0 - 224) * 4096 + (b1 - 128) * 64 + (b2 - 128))%N
                            (utf8_decode errors r2)
                  else malformed errors (utf8_decode errors r1)
              end
            else malformed errors (utf8_decode errors r0)
        end
      else if (b0 <? 245)%N then
        match r0 with
        | [] => malformed errors (inr [])
        | x1 :: r1 =>
            let b1 := Byte.to_N x1 in
            if is_continuation b1 && second_ok4 b0 b1 then
              match r1 with
              | [] => malformed errors (inr [])
              | x2 :: r2 =>
                  let b2 := Byte.to_N x2 in
                  if is_continuation b2 then
                    match r2 with
                    | [] => malformed errors (inr [])
                    | x3 :: r3 =>
                        let b3 := Byte.to_N x3 in
                        if is_continuation b3
                        then emit ((b0 - 240) * 262144 + (b1 - 128) * 4096
                                   + (b2 - 128) * 64 + (b3 - 128))%N
                                  (utf8_decode errors r3)
                        else malformed errors (utf8_decode errors r2)
                    end
                  else malformed errors (utf8_decode errors r1)
              end
            else malformed errors (utf8_decode errors r0)
        end
      else malformed errors (utf8_decode errors r0)
  end.

Definition byte_of (n : N) : byte :=
  match Byte.of_N n with
  | Some b => b
  | None => x00
  end.

(** A code point that is a Unicode scalar value: below 110000 (hex) and no
    surrogate. *)
Definition is_scalar (c : char) : bool :=
  ((c <? 55296) || ((57344 <=? c) && (c <? 1114112)))%N.

Definition encode_char (c : char) : list byte :=
  if (c <? 128)%N then [byte_of c]
  else if (c <? 2048)%N then [byte_of (192 + c / 64); byte_of (128 + c mod 64)]%N
  else if (c <? 65536)%N then
    [byte_of (224 + c / 4096); byte_of (128 + (c / 64) mod 64);
     byte_of (128 + c mod 64)]%N
  else
    [byte_of (240 + c / 262144); byte_of (128 + (c / 4096) mod 64);
     byte_of (128 + (c / 64) mod 64); byte_of (128 + c mod 64)]%N.

(** [str.encode('utf-8')] with the default strict policy: a surrogate
    cannot be encoded. *)
Fixpoint utf8_encode (s : str) : exn + list byte :=
  match s with
  | [] => inr []
  | c :: s' =>
      if is_scalar c then
        match utf8_encode s' with
        | inl e => inl e
        | inr bs => inr (encode_char c ++ bs)
        end
      else inl UnicodeEncodeError
  end.

(** Universal newlines on reading ([newline=None]): a carriage return,
    with the line feed that follows it if there is one, becomes one line
    feed. *)
Fixpoint translate_newlines (s : str) : str :=
  match s with
  | [] => []
  | c :: s' =>
      if (c =? 13)%N then
        10%N :: match s' with
                | d :: s'' => if (d =? 10)%N then translate_newlines s''
                              else translate_newlines s'
                | [] => []
                end
      else c :: translate_newlines s'
  end.

(** ** Files

    The file tree is the list of its entries, each under its path from the
    working directory, in the order in which a traversal meets them. *)

Inductive node : Type :=
| File (readable writable : bool) (data : list byte)
| Directory.

Definition filesystem := list (path * node).

Fixpoint path_eqb (p q : path) : bool :=
  match p, q with
  | [], [] => true
  | a :: p', b :: q' => String.eqb a b && path_eqb p' q'
  | _, _ => false
  end.

Fixpoint lookup (fs : filesystem) (p : path) : option node :=
  match fs with
  | [] => None
  | (q, n) :: fs' => if path_eqb q p then Some n else lookup fs' p
  end.

Fixpoint store (fs : filesystem) (p : path) (n : node) : filesystem :=
  match fs with
  | [] => [(p, n)]
  | (q, m) :: fs' => if path_eqb q p then (q, n) :: fs'
                     else (q, m) :: store fs' p n
  end.

Definition path_str (p : path) : string := String.concat "/" p.

Definition parent (p : path) : path := removelast p.

Definition name (p : path) : string := last p "".

Fixpoint is_under (root p : path) : bool :=
  match root, p with
  | [], _ :: _ => true
  | a :: root', b :: p' => String.eqb a b && is_under root' p'
  | _, _ => false
  end.

(** [fnmatch] for patterns made of literal characters and stars. *)
Fixpoint fnmatch (pat : list ascii) (s : list ascii) : bool :=
  match pat with
  | [] => match s with [] => true | _ :: _ => false end
  | c :: pat' =>
      if Ascii.eqb c "*" then
        (fix star (s : list ascii) : bool :=
           fnmatch pat' s || match s with
                             | [] => false
                             | _ :: s' => star s'
                             end) s
      else
        match s with
        | [] => false
        | d :: s' => Ascii.eqb c d && fnmatch pat' s'
        end
  end.

(** ** The world and the monad of the scripts *)

Inductive open_mode : Type := ModeR | ModeW.

Inductive event : Type :=
| Print (line : string)
| Open (p : path) (mode : open_mode).

Record world : Type := World { fs : filesystem; trace : list event }.

Definition M (A : Type) : Type := world -> (exn + A) * world.

Definition ret {A} (a : A) : M A := fun w => (inr a, w).

Definition raise {A} (e : exn) : M A := fun w => (inl e, w).

Definition bind {A B} (m : M A) (k : A -> M B) : M B :=
  fun w =>
    match m w with
    | (inl e, w') => (inl e, w')
    | (inr a, w') => k a w'
    end.

(** [try: body except Exception as e: handler(e)] *)
Definition try_except {A} (body : M A) (handler : exn -> M A) : M A :=
  fun w =>
    match body w with
    | (inl e, w') => handler e w'
    | (inr a, w') => (inr a, w')
    end.

Notation "x <- m ;; k" := (bind m (fun x => k))
  (at level 61, m at next level, right associativity).
Notation "m ;; k" := (bind m (fun _ => k))
  (at level 61, right associativity).

Definition log (ev : event) : M unit :=
  fun w => (inr tt, World (fs w) (trace w ++ [ev])).

Definition print (line : string) : M unit := log (Print line).

Definition get_fs : M filesystem := fun w => (inr (fs w), w).

Definition put_fs (f : filesystem) : M unit :=
  fun w => (inr tt, World f (trace w)).

(** [repr] of a [str] whose characters are below U+0100: between
    apostrophes, or between double quotes when the text holds an apostrophe
    and no double quote; the backslash and the enclosing quote are escaped,
    and so is every character that is not printable: the control
    characters, the no-break space and the soft hyphen. *)
Definition hex_digit (n : nat) : ascii :=
  nth n (list_ascii_of_string "0123456789abcdef") "0"%char.

Definition printable (n : nat) : bool :=
  negb (Nat.ltb n 32 || Nat.eqb n 127
        || (Nat.leb 128 n && Nat.leb n 160) || Nat.eqb n 173).

Definition repr_char (quote c : ascii) : string :=
  let n := nat_of_ascii c in
  if Ascii.eqb c "092" then "\\"
  else if Ascii.eqb c quote then String "092" (String c EmptyString)
  else if Nat.eqb n 9 then "\t"
  else if Nat.eqb n 10 then "\n"
  else if Nat.eqb n 13 then "\r"
  else if printable n then String c EmptyString
  else String "092" (String "x" (String (hex_digit (n / 16))
                                        (String (hex_digit (n mod 16)) EmptyString))).

Definition repr (s : string) : string :=
  let cs := list_ascii_of_string s in
  let quote := if existsb (Ascii.eqb "'") cs && negb (existsb (Ascii.eqb "034") cs)
               then "034"%char else "'"%char in
  String quote
         (String.concat EmptyString (map (repr_char quote) cs)
          ++ String quote EmptyString).

(** What [str(e)] shows; an [OSError] shows the [repr] of the file name. *)
Definition exn_str (e : exn) : string :=
  match e with
  | FileNotFoundError p =>
      "[Errno 2] No such file or directory: " ++ repr (path_str p)
  | NotADirectoryError p =>
      "[Errno 20] Not a directory: " ++ repr (path_str p)
  | IsADirectoryError p =>
      "[Errno 21] Is a directory: " ++ repr (path_str p)
  | PermissionError p =>
      "[Errno 13] Permission denied: " ++ repr (path_str p)
  | UnicodeDecodeError => "'utf-8' codec can't decode bytes"
  | UnicodeEncodeError => "'utf-8' codec can't encode characters"
  | ValueError msg => msg
  end%string.

(** The error of opening a path that the tree does not hold: the path is
    resolved from the working directory, and the first directory of it
    that is a regular file makes it a [NotADirectoryError]. *)
Fixpoint resolve (f : filesystem) (p above below : path) : exn :=
  match below with
  | [] => FileNotFoundError p
  | c :: below' =>
      match below' with
      | [] => FileNotFoundError p
      | _ :: _ =>
          match lookup f (above ++ [c]) with
          | Some (File _ _ _) => NotADirectoryError p
          | Some Directory => resolve f p (above ++ [c]) below'
          | None => FileNotFoundError p
          end
      end
  end.

Definition absent_error (f : filesystem) (p : path) : exn := resolve f p [] p.

(** [with open(p, 'r', encoding='utf-8', errors=...) as f: f.read()] *)
Definition read_text (errors : error_policy) (p : path) : M str :=
  log (Open p ModeR) ;;
  f <- get_fs ;;
  match lookup f p with
  | None => raise (absent_error f p)
  | Some Directory => raise (IsADirectoryError p)
  | Some (File readable _ data) =>
      if readable then
        match utf8_decode errors data with
        | inl e => raise e
        | inr s => ret (translate_newlines s)
        end
      else raise (PermissionError p)
  end.

Definition parent_is_directory (f : filesystem) (p : path) : bool :=
  match parent p with
  | [] => true
  | q => match lookup f q with
         | Some Directory => true
         | _ => false
         end
  end.

(** [with open(p, 'w', encoding='utf-8') as f: f.write(content)]:
    opening truncates (or creates) the file, then the encoded content is
    written. *)
Definition write_text (p : path) (content : str) : M unit :=
  log (Open p ModeW) ;;
  f <- get_fs ;;
  match lookup f p with
  | Some Directory => raise (IsADirectoryError p)
  | Some (File readable writable _) =>
      if writable then
        put_fs (store f p (File readable writable [])) ;;
        match utf8_encode content with
        | inl e => raise e
        | inr bs => put_fs (store f p (File readable writable bs))
        end
      else raise (PermissionError p)
  | None =>
      if parent_is_directory f p then
        put_fs (store f p (File true true [])) ;;
        match utf8_encode content with
        | inl e => raise e
        | inr bs => put_fs (store f p (File true true bs))
        end
      else raise (absent_error f p)
  end.

(** [Path.exists] *)
Definition path_exists (p : path) : M bool :=
  f <- get_fs ;;
  ret (match lookup f p with Some _ => true | None => false end).

(** [root.rglob(pat)]: every entry below [root] whose name matches. *)
Definition glob_entries (root : path) (pat : string) (f : filesystem) : list path :=
  filter (fun p => is_under root p
                   && fnmatch (list_ascii_of_string pat)
                              (list_ascii_of_string (name p)))
         (map fst f).

Definition rglob (root : path) (pat : string) : M (list path) :=
  f <- get_fs ;;
  ret (glob_entries root pat f).

(** [p.relative_to(base)] *)
Fixpoint relative_to (p base : path) {struct base} : M path :=
  match base with
  | [] => ret p
  | b :: base' =>
      match p with
      | a :: p' => if String.eqb a b then relative_to p' base'
                   else raise (ValueError "not in the subpath")
      | [] => raise (ValueError "not in the subpath")
      end
  end.

(** A [for] loop whose body updates the local variable [acc]. *)
Fixpoint for_in {A S} (xs : list A) (body : A -> S -> M S) (acc : S) : M S :=
  match xs with
  | [] => ret acc
  | x :: xs' => acc' <- body x acc ;; for_in xs' body acc'
  end.

Definition nat_str (n : nat) : string := NilEmpty.string_of_uint (Nat.to_uint n).

(** ** The script *)

Module Script.
Section WithPatterns.

Variable patterns : list rule.

(** Update imports in a single file *)
Definition update_file (filepath : path) : M bool :=
  try_except
    (content <- read_text Ignore filepath ;;
     let original_content := content in
     (* Apply all replacements *)
     let content := apply_patterns patterns content in
     (* Write back if changed *)
     if negb (str_eqb content original_content) then
       write_text filepath content ;;
       ret true
     else ret false)
    (fun e =>
       print ("Error processing " ++ path_str filepath ++ ": " ++ exn_str e)%string ;;
       ret false).

Definition src_dir : path :=
  ["apps"; "curated"; "marketplace-frontend"; "src"].

(** The two nested loops of [main]: find all TypeScript/TSX files and
    collect those that [update_file] reports as changed. *)
Definition update_tree : M (list path) :=
  for_in ["*.ts"; "*.tsx"]
    (fun ext updated_files =>
       files <- rglob src_dir ext ;;
       for_in files
         (fun filepath updated_files =>
            changed <- update_file filepath ;;
            ret (if changed then updated_files ++ [filepath]
                 else updated_files))
         updated_files)
    [].

(** Main function *)
Definition main : M unit :=
  found <- path_exists src_dir ;;
  if negb found then
    print ("Directory not found: " ++ path_str src_dir)%string
  else
    updated_files <- update_tree ;;
    print ("Updated " ++ nat_str (List.length updated_files) ++ " files:")%string ;;
    for_in updated_files
      (fun filepath (_ : unit) =>
         rel <- relative_to filepath (parent (parent (parent src_dir))) ;;
         print ("  - " ++ path_str rel)%string)
      tt.

End WithPatterns.
End Script.

(** ** The two pattern tables *)

Module Sprint23.

Definition patterns : list rule :=
  [ (* Badge *)
    (lits "from " ++ [quotes] ++ lits "@/components/ui/badge" ++ [quotes],
     text "from '@jade/ui/components'");
    (* Alert *)
    (lits "from " ++ [quotes] ++ lits "@/components/ui/alert" ++ [quotes],
     text "from '@jade/ui/components'");
    (* Label *)
    (lits "from " ++ [quotes] ++ lits "@/components/ui/label" ++ [quotes],
     text "from '@jade/ui/components'");
    (* Textarea *)
    (lits "from " ++ [quotes] ++ lits "@/components/ui/textarea" ++ [quotes],
     text "from '@jade/ui/components'");
    (* Select *)
    (lits "from " ++ [quotes] ++ lits "@/components/ui/select" ++ [quotes],
     text "from '@jade/ui/components'") ].

Definition update_file : path -> M bool := Script.update_file patterns.
Definition update_tree : M (list path) := Script.update_tree patterns.
Definition main : M unit := Script.main patterns.

End Sprint23.

Module Sprint24.

Definition patterns : list rule :=
  [ (* Progress *)
    (lits "from " ++ [quotes] ++ lits "@/components/ui/progress" ++ [quotes],
     text "from '@jade/ui/components'");
    (* Switch *)
    (lits "from " ++ [quotes] ++ lits "@/components/ui/switch" ++ [quotes],
     text "from '@jade/ui/components'");
    (* ScrollArea *)
    (lits "from " ++ [quotes] ++ lits "@/components/ui/scroll-area" ++ [quotes],
     text "from '@jade/ui/components'");
    (* Tabs *)
    (lits "from " ++ [quotes] ++ lits "@/components/ui/tabs" ++ [quotes],
     text "from '@jade/ui/components'");
    (* DropdownMenu *)
    (lits "from " ++ [quotes] ++ lits "@/components/ui/dropdown-menu" ++ [quotes],
     text "from '@jade/ui/components'");
    (* Dialog (remaining files that weren't updated in Sprint 2.2) *)
    (lits "} from " ++ [quotes] ++ lits "@/components/ui/dialog" ++ [quotes],
     text "} from '@jade/ui/components'") ].

Definition update_file : path -> M bool := Script.update_file patterns.
Definition update_tree : M (list path) := Script.update_tree patterns.
Definition main : M unit := Script.main patterns.

End Sprint24.

(** ** Vocabulary of the statements *)

(** The pattern matches somewhere in [s]. *)
Fixpoint occurs (p : pattern) (s : str) : bool :=
  matches p s || match s with
                 | [] => false
                 | _ :: s' => occurs p s'
                 end.

(** The pattern and the text agree as far as both extend. *)
Fixpoint overlap (p : pattern) (s : str) : bool :=
  match p, s with
  | a :: p', c :: s' => accepts a c && overlap p' s'
  | _, _ => true
  end.

(** A match of [p] could begin on a character of the segment [m]. *)
Fixpoint starts_inside (p : pattern) (m : str) : bool :=
  match m with
  | [] => false
  | _ :: m' => overlap p m || starts_inside p m'
  end.

(** A match of [p] begun before the segment [m] could run into it. *)
Fixpoint runs_into (p : pattern) (m : str) : bool :=
  match p with
  | [] => false
  | _ :: p' => match p' with
               | [] => false
               | _ :: _ => overlap p' m
               end || runs_into p' m
  end.

(** No match of [p] shares a character with the segment [m], whatever
    surrounds it. *)
Definition clear (p : pattern) (m : str) : bool :=
  negb (starts_inside p m) && negb (runs_into p m).

Definition nonempty (p : pattern) : bool :=
  match p with [] => false | _ :: _ => true end.

(** [p] matches the whole of [m]. *)
Definition exact (p : pattern) (m : str) : bool :=
  matches p m && Nat.eqb (List.length p) (List.length m).

(** Every replacement of the table is clear of every pattern of the table. *)
Definition stable (rules : list rule) : bool :=
  forallb (fun p => nonempty p && forallb (clear p) (map snd rules))
          (map fst rules).

(** In any context the segment [m] comes out of the rules as [m']: each
    rule either cannot touch it or replaces exactly it. *)
Fixpoint carried (rules : list rule) (m m' : str) : bool :=
  match rules with
  | [] => str_eqb m m'
  | (p, r) :: rest =>
      nonempty p &&
      (if clear p m then carried rest m m'
       else exact p m && negb (runs_into p m) && carried rest r m')
  end.

Definition is_quote (c : char) : bool :=
  N.eqb c apostrophe || N.eqb c dquote.

(** The pattern fails on every text that begins with [k] followed by a
    character that is not a quote: either it already fails on [k], or the
    atom it has behind [k] accepts quotes only. *)
Fixpoint blocked (p : pattern) (k : str) : bool :=
  match p with
  | [] => false
  | a :: p' =>
      match k with
      | [] => match a with
              | Lit d => is_quote d
              | OneOf cs => forallb is_quote cs
              end
      | c :: k' => if accepts a c then blocked p' k' else true
      end
  end.

(** The text that [read()] returns for a file of the given bytes. *)
Definition decoded (data : list byte) : str :=
  match utf8_decode Ignore data with
  | inr s => translate_newlines s
  | inl _ => []
  end.

Definition encoded (s : str) : list byte :=
  match utf8_encode s with
  | inr bs => bs
  | inl _ => []
  end.

Definition error_line (p : path) (e : exn) : string :=
  ("Error processing " ++ path_str p ++ ": " ++ exn_str e)%string.

(** What one call of [update_file] does, told from the entry of the file
    alone: the flag it returns, the entry it leaves, the events it adds.
    For a path that the tree does not hold, the error that is reported
    depends on the directories above it. *)
Inductive verdict : Type :=
| Absent
| Failed (evs : list event) (e : exn)
| Unchanged
| Rewritten (n : node).

Definition judge (rules : list rule) (p : path) (entry : option node) : verdict :=
  match entry with
  | None => Absent
  | Some Directory => Failed [Open p ModeR] (IsADirectoryError p)
  | Some (File false _ _) => Failed [Open p ModeR] (PermissionError p)
  | Some (File true writable data) =>
      let original := decoded data in
      let final := apply_patterns rules original in
      if str_eqb final original then Unchanged
      else if writable then Rewritten (File true true (encoded final))
      else Failed [Open p ModeR; Open p ModeW] (PermissionError p)
  end.

Definition changes (rules : list rule) (f : filesystem) (p : path) : bool :=
  match judge rules p (lookup f p) with
  | Rewritten _ => true
  | _ => false
  end.

Definition step_fs (rules : list rule) (f : filesystem) (p : path) : filesystem :=
  match judge rules p (lookup f p) with
  | Rewritten n => store f p n
  | _ => f
  end.

Definition events (rules : list rule) (f : filesystem) (p : path) : list event :=
  match judge rules p (lookup f p) with
  | Absent => [Open p ModeR; Print (error_line p (absent_error f p))]
  | Failed evs e => evs ++ [Print (error_line p e)]
  | Unchanged => [Open p ModeR]
  | Rewritten _ => [Open p ModeR; Open p ModeW]
  end.

(** The loops of [main], told on the tree alone: the list of updated
    files and the tree after visiting some files in turn. *)
Definition visit (rules : list rule) (st : list path * filesystem) (p : path)
  : list path * filesystem :=
  (if changes rules (snd st) p then fst st ++ [p] else fst st,
   step_fs rules (snd st) p).

Definition visit_all (rules : list rule) (files : list path)
           (st : list path * filesystem) : list path * filesystem :=
  fold_left (visit rules) files st.

Definition visit_tree (rules : list rule) (st : list path * filesystem)
  : list path * filesystem :=
  fold_left (fun st ext =>
               visit_all rules (glob_entries Script.src_dir ext (snd st)) st)
            ["*.ts"; "*.tsx"] st.

(** The two scripts. *)
Inductive script : Type := Sprint_2_3 | Sprint_2_4.

Definition table (sc : script) : list rule :=
  match sc with
  | Sprint_2_3 => Sprint23.patterns
  | Sprint_2_4 => Sprint24.patterns
  end.

Definition update_file_of (sc : script) : path -> M bool :=
  match sc with
  | Sprint_2_3 => Sprint23.update_file
  | Sprint_2_4 => Sprint24.update_file
  end.

Definition update_tree_of (sc : script) : M (list path) :=
  match sc with
  | Sprint_2_3 => Sprint23.update_tree
  | Sprint_2_4 => Sprint24.update_tree
  end.

Definition main_of (sc : script) : M unit :=
  match sc with
  | Sprint_2_3 => Sprint23.main
  | Sprint_2_4 => Sprint24.main
  end.

(** An import of a legacy component path, with its two quote characters. *)
Definition legacy_import (component : string) (q1 q2 : char) : str :=
  text "from " ++ [q1] ++ text ("@/components/ui/" ++ component) ++ [q2].

Definition consolidated_import : str := text "from '@jade/ui/components'".

(** The same two tests for a segment [k] known to be followed by a
    character that is not a quote. *)
Fixpoint starts_inside_unquoted (p : pattern) (k : str) : bool :=
  match k with
  | [] => false
  | _ :: k' => negb (blocked p k) || starts_inside_unquoted p k'
  end.

Fixpoint runs_into_unquoted (p : pattern) (k : str) : bool :=
  match p with
  | [] => false
  | _ :: p' => match p' with
               | [] => false
               | _ :: _ => negb (blocked p' k)
               end || runs_into_unquoted p' k
  end.

Definition head_unquoted (r : str) : bool :=
  match r with
  | [] => false
  | c :: _ => negb (is_quote c)
  end.

(** No rule of the table touches the segment [k] when a character that is
    not a quote follows it. *)
Definition kept (rules : list rule) (k : str) : bool :=
  forallb (fun r => nonempty (fst r)
                    && negb (starts_inside_unquoted (fst r) k)
                    && negb (runs_into_unquoted (fst r) k)
                    && head_unquoted (snd r))
          rules.

(** The component names of each table. *)
Definition components (sc : script) : list string :=
  match sc with
  | Sprint_2_3 => ["badge"; "alert"; "label"; "textarea"; "select"]
  | Sprint_2_4 => ["progress"; "switch"; "scroll-area"; "tabs";
                   "dropdown-menu"; "dialog"]
  end.

(** The start of an import of a legacy component path, up to the end of
    the component name. *)
Definition legacy_head (component : string) (q1 : char) : str :=
  text "from " ++ [q1] ++ text ("@/components/ui/" ++ component).

(** A text redirects the imports of a component: wherever such an import
    stands, the consolidated import stands after the pass, and the text
    around it is rewritten on its own. *)
Definition redirects (rules : list rule) (component : string) : Prop :=
  forall q1 q2 u t,
    is_quote q1 = true -> is_quote q2 = true ->
    apply_patterns rules (u ++ legacy_import component q1 q2 ++ t)
    = apply_patterns rules u ++ consolidated_import ++ apply_patterns rules t.

(** The entry a call of [update_file] leaves where it found [entry]. *)
Definition entry_after (rules : list rule) (p : path) (entry : option node)
  : option node :=
  match judge rules p entry with
  | Rewritten n => Some n
  | _ => entry
  end.

(** The files [main] visits, in the order of its two loops. *)
Definition listing (f : filesystem) : list path :=
  glob_entries Script.src_dir "*.ts" f ++ glob_entries Script.src_dir "*.tsx" f.

Definition plain (pat : list ascii) : bool :=
  forallb (fun c => negb (Ascii.eqb c "*")) pat.

Definition path_eq_dec : forall p q : path, {p = q} + {p <> q} :=
  list_eq_dec string_dec.

(** A byte that starts no UTF-8 sequence: a continuation byte, C0 or C1,
    or F5 and above. *)
Definition invalid_start (b : N) : bool :=
  (((128 <=? b) && (b <? 194)) || (245 <=? b))%N.

(** ** A small tree for the examples *)

Definition in_src (file : string) : path := Script.src_dir ++ [file].

Definition demo_fs : filesystem :=
  [ (["apps"], Directory);
    (["apps"; "curated"], Directory);
    (["apps"; "curated"; "marketplace-frontend"], Directory);
    (Script.src_dir, Directory);
    (in_src "badge.tsx",
     File true true
          (list_byte_of_string "import { Badge } from '@/components/ui/badge';"));
    (in_src "both.ts",
     File true true
          (list_byte_of_string
             "import { Select } from '@/components/ui/select'; import { Badge } from '@/components/ui/badge';"));
    (in_src "other.ts",
     File true true (list_byte_of_string "from '@/components/ui/unrelated-thing'"));
    (in_src "locked.ts",
     File true false
          (list_byte_of_string "import { Label } from '@/components/ui/label';"));
    (in_src "latin1.ts",
     File true true
          (xe9 :: list_byte_of_string " import { Alert } from '@/components/ui/alert';")) ].

Definition demo_world : world := World demo_fs [].

(** A tree with a file whose lines end in CR LF and a file that begins
    with a byte that is not UTF-8; neither holds a legacy import. *)
Definition raw_fs : filesystem :=
  [ (in_src "crlf.ts",
     File true true (list_byte_of_string "export {};" ++ [x0d; x0a]));
    (in_src "latin1.ts",
     File true true (xe9 :: list_byte_of_string " export {};")) ].

(** The lines printed in a trace. *)
Fixpoint printed (evs : list event) : list string :=
  match evs with
  | [] => []
  | Print line :: evs' => line :: printed evs'
  | Open _ _ :: evs' => printed evs'
  end.

(** The text holds no carriage return. *)
Definition no_cr (s : str) : bool := forallb (fun c => negb (c =? 13)%N) s.

Definition cr_free_rules (rules : list rule) : bool :=
  forallb (fun r => no_cr (snd r)) rules.

(** Every replacement is shorter than what its pattern matches. *)
Definition shrinking (rules : list rule) : bool :=
  forallb (fun r => Nat.ltb (List.length (snd r)) (List.length (fst r))) rules.

(** The line of the summary for an updated file: its path from below the
    first directory. *)
Definition summary_line (p : path) : event :=
  Print ("  - " ++ path_str (tl p))%string.

Definition heading (n : nat) : event :=
  Print ("Updated " ++ nat_str n ++ " files:")%string.

(** The name ends with the suffix. *)
Definition ends_with (suffix s : string) : Prop :=
  exists pre, list_ascii_of_string s = pre ++ list_ascii_of_string suffix.

(** Some character is accepted by both atoms. *)
Definition meets (a b : atom) : bool :=
  match a, b with
  | Lit c, Lit d => N.eqb c d
  | Lit c, OneOf ds => existsb (N.eqb c) ds
  | OneOf cs, Lit d => existsb (N.eqb d) cs
  | OneOf cs, OneOf ds => existsb (fun c => existsb (N.eqb c) ds) cs
  end.

(** [overlap], [starts_inside], [runs_into] and [clear] against every text
    that a pattern [q] matches, instead of one text. *)
Fixpoint overlap_pattern (p q : pattern) : bool :=
  match p, q with
  | a :: p', b :: q' => meets a b && overlap_pattern p' q'
  | _, _ => true
  end.

Fixpoint starts_inside_pattern (p q : pattern) : bool :=
  match q with
  | [] => false
  | _ :: q' => overlap_pattern p q || starts_inside_pattern p q'
  end.

Fixpoint runs_into_pattern (p q : pattern) : bool :=
  match p with
  | [] => false
  | _ :: p' => match p' with
               | [] => false
               | _ :: _ => overlap_pattern p' q
               end || runs_into_pattern p' q
  end.

Definition clear_pattern (p q : pattern) : bool :=
  negb (starts_inside_pattern p q) && negb (runs_into_pattern p q).

(** Two rules that cannot interfere: no match of one shares a character
    with a match or with the replacement of the other. *)
Definition independent (a b : rule) : bool :=
  nonempty (fst a) && nonempty (fst b)
  && clear (fst a) (snd b) && clear (fst b) (snd a)
  && clear_pattern (fst a) (fst b) && clear_pattern (fst b) (fst a).

Fixpoint pairwise_independent (rules : list rule) : bool :=
  match rules with
  | [] => true
  | a :: rest => forallb (independent a) rest && pairwise_independent rest
  end.

(** The paths opened for reading and for writing in a trace, in order. *)
Fixpoint reads (evs : list event) : list path :=
  match evs with
  | [] => []
  | Open p ModeR :: evs' => p :: reads evs'
  | _ :: evs' => reads evs'
  end.

Fixpoint writes (evs : list event) : list path :=
  match evs with
  | [] => []
  | Open p ModeW :: evs' => p :: writes evs'
  | _ :: evs' => writes evs'
  end.

(** The events of the calls of [update_file] for some files in turn. *)
Fixpoint visit_events (rules : list rule) (files : list path) (f : filesystem)
  : list event :=
  match files with
  | [] => []
  | p :: rest => events rules f p ++ visit_events rules rest (step_fs rules f p)
  end.

(** The text ends with a closing brace and one space. *)
Definition after_brace (u : str) : bool :=
  match rev u with
  | b :: a :: _ => (b =? 32)%N && (a =? 125)%N
  | _ => false
  end.

(** The last character of the replacement is neither of the two. *)
Definition ends_plain (r : str) : bool :=
  match rev r with
  | c :: _ => negb (c =? 32)%N && negb (c =? 125)%N
  | [] => false
  end.

Definition plain_ends (rules : list rule) : bool :=
  forallb (fun r => nonempty (fst r) && ends_plain (snd r)) rules.

(** The pattern begins with the brace and the space, and a match of it can
    share a character with the segment [m] only by beginning on these two
    characters directly before [m]. *)
Definition clear_unless_braced (p : pattern) (m : str) : bool :=
  match p with
  | Lit a :: Lit b :: p' =>
      (a =? 125)%N && (b =? 32)%N && nonempty p'
      && negb (starts_inside p m)
      && negb (overlap (Lit b :: p') m)
      && negb (runs_into p' m)
  | _ => false
  end.

(** The rules of the Sprint 2.4 table before the rule of dialog, and that
    rule. *)
Definition unbraced_rules : list rule := removelast Sprint24.patterns.

Definition dialog_rule : rule := last Sprint24.patterns ([], []).

(** The file at [p] can be read and written, and its bytes are the UTF-8
    encoding of the text [s]: decoding them strictly gives [s], and so
    does reading the file. *)
Definition holds_text (f : filesystem) (p : path) (s : str) : Prop :=
  exists data,
    lookup f p = Some (File true true data)
    /\ utf8_decode Strict data = inr s
    /\ decoded data = s.


Definition scalar_rules (rules : list rule) : bool :=
  forallb (fun r => forallb is_scalar (snd r)) rules.

(** * Properties *)

(** ** Matching *)

Lemma str_eqb_eq (a b : str) : str_eqb a b = true <-> a = b.
Proof.
  revert b; induction a as [|x a IH]; intros [|y b]; simpl;
    try (split; (discriminate || reflexivity)).
  rewrite andb_true_iff, N.eqb_eq, IH.
  split; [intros [-> ->]; reflexivity | intros E; inversion E; auto].
Qed.

Lemma str_eqb_refl (a : str) : str_eqb a a = true.
Proof. apply str_eqb_eq; reflexivity. Qed.

Lemma str_eqb_neq (a b : str) : str_eqb a b = false <-> a <> b.
Proof.
  rewrite <- str_eqb_eq. destruct (str_eqb a b); split; congruence.
Qed.

Lemma matches_nil (p : pattern) : nonempty p = true -> matches p [] = false.
Proof. destruct p; simpl; congruence. Qed.

Lemma matches_length (p : pattern) (s : str) :
  matches p s = true -> List.length p <= List.length s.
Proof.
  revert s; induction p as [|a p IH]; intros s H; simpl in *; [lia|].
  destruct s as [|c s]; [discriminate|].
  apply andb_true_iff in H as [_ H]. apply IH in H. simpl; lia.
Qed.

Lemma matches_app (p : pattern) (u t : str) :
  List.length p <= List.length u -> matches p (u ++ t) = matches p u.
Proof.
  revert u; induction p as [|a p IH]; intros u H; simpl in *; [reflexivity|].
  destruct u as [|c u]; simpl in *; [lia|].
  rewrite IH by lia. reflexivity.
Qed.

Lemma matches_overlap (p : pattern) (m t : str) :
  matches p (m ++ t) = true -> overlap p m = true.
Proof.
  revert m; induction p as [|a p IH]; intros m H; simpl in *; [reflexivity|].
  destruct m as [|c m]; simpl in *; [reflexivity|].
  apply andb_true_iff in H as [Ha H]. rewrite Ha. simpl. eauto.
Qed.

(** A match that starts before a segment it cannot run into lies wholly
    before it. *)
Lemma matches_before (p : pattern) (m : str) :
  runs_into p m = false ->
  forall u t, u <> [] -> matches p (u ++ m ++ t) = matches p u.
Proof.
  induction p as [|a p IH]; intros R u t Hu; simpl in *; [reflexivity|].
  destruct u as [|c u]; [congruence|]. simpl.
  apply orb_false_iff in R as [R1 R2].
  destruct u as [|d u].
  - simpl. destruct p as [|b p]; [reflexivity|].
    f_equal.
    destruct (matches (b :: p) (m ++ t)) eqn:E; [|reflexivity].
    apply matches_overlap in E. congruence.
  - rewrite (IH R2 (d :: u) t) by congruence. reflexivity.
Qed.

(** ** The scan of [re.sub] *)

Section Scan.

Variable p : pattern.
Variable repl : str.
Hypothesis p_nonempty : nonempty p = true.

Lemma sub_from_skipn (k : nat) (s : str) :
  sub_from p repl k s = sub_from p repl 0 (skipn k s).
Proof.
  revert k; induction s as [|c s IH]; intros [|k]; simpl; try reflexivity.
  - rewrite matches_nil by assumption. reflexivity.
  - apply IH.
Qed.

Lemma re_sub_nil : re_sub p repl [] = [].
Proof. unfold re_sub; simpl. rewrite matches_nil by assumption. reflexivity. Qed.

Lemma re_sub_match (s : str) :
  matches p s = true ->
  re_sub p repl s = repl ++ re_sub p repl (skipn (List.length p) s).
Proof.
  unfold re_sub. intros H. destruct s as [|c s].
  - rewrite matches_nil in H by assumption. discriminate.
  - cbn [sub_from]. rewrite H.
    destruct (List.length p) as [|k] eqn:E.
    + apply length_zero_iff_nil in E. rewrite E in p_nonempty. discriminate.
    + rewrite sub_from_skipn. reflexivity.
Qed.

Lemma re_sub_copy (c : char) (s : str) :
  matches p (c :: s) = false ->
  re_sub p repl (c :: s) = c :: re_sub p repl s.
Proof. unfold re_sub. intros H. cbn [sub_from]. rewrite H. reflexivity. Qed.

(** Induction along the scan. *)
Lemma re_sub_ind (P : str -> Prop) :
  P [] ->
  (forall s, matches p s = true -> P (skipn (List.length p) s) -> P s) ->
  (forall c s, matches p (c :: s) = false -> P s -> P (c :: s)) ->
  forall s, P s.
Proof.
  intros Hnil Hmatch Hcopy s.
  remember (List.length s) as n eqn:En.
  revert s En. induction n as [n IH] using lt_wf_ind. intros s En.
  destruct s as [|c s]; [exact Hnil|].
  destruct (matches p (c :: s)) eqn:E.
  - apply Hmatch; [exact E|].
    apply (IH (List.length (skipn (List.length p) (c :: s)))); [|reflexivity].
    rewrite length_skipn. subst n.
    destruct (List.length p) as [|k] eqn:L; [|simpl; lia].
    apply length_zero_iff_nil in L. rewrite L in p_nonempty. discriminate.
  - apply Hcopy; [exact E|]. apply (IH (List.length s)); [|reflexivity].
    subst n. simpl. lia.
Qed.

(** Without an occurrence of the pattern the text is returned as it is. *)
Lemma re_sub_no_occurrence (s : str) :
  occurs p s = false -> re_sub p repl s = s.
Proof.
  induction s as [|c s IH]; intros H.
  - apply re_sub_nil.
  - simpl in H. apply orb_false_iff in H as [H1 H2].
    rewrite re_sub_copy by exact H1. rewrite IH by exact H2. reflexivity.
Qed.

(** A segment clear of the pattern splits the scan in two. *)
Lemma re_sub_through (m t : str) :
  starts_inside p m = false ->
  re_sub p repl (m ++ t) = m ++ re_sub p repl t.
Proof.
  induction m as [|c m IH]; intros H; [reflexivity|].
  simpl in H. apply orb_false_iff in H as [H1 H2].
  change ((c :: m) ++ t) with (c :: (m ++ t)).
  rewrite re_sub_copy.
  - rewrite IH by exact H2. reflexivity.
  - destruct (matches p (c :: m ++ t)) eqn:E; [|reflexivity].
    apply (matches_overlap p (c :: m) t) in E. congruence.
Qed.

Lemma re_sub_split (m : str) :
  clear p m = true ->
  forall u t,
    re_sub p repl (u ++ m ++ t) = re_sub p repl u ++ m ++ re_sub p repl t.
Proof.
  unfold clear. intros C. apply andb_true_iff in C as [C1 C2].
  apply negb_true_iff in C1, C2. intros u t.
  pattern u. apply re_sub_ind; [|intros s M IH|intros c s M IH].
  - rewrite re_sub_nil. simpl. apply re_sub_through; assumption.
  - pose proof (matches_length _ _ M) as L.
    rewrite (re_sub_match (s ++ m ++ t)) by (rewrite matches_app; assumption).
    rewrite (re_sub_match s M).
    rewrite skipn_app.
    replace (List.length p - List.length s) with 0 by lia.
    simpl skipn at 2. rewrite IH. rewrite app_assoc. reflexivity.
  - change ((c :: s) ++ m ++ t) with (c :: (s ++ m ++ t)).
    rewrite re_sub_copy.
    + rewrite IH. rewrite re_sub_copy by exact M. reflexivity.
    + rewrite <- M. apply (matches_before p m C2 (c :: s) t). congruence.
Qed.

Lemma re_sub_replace (m : str) :
  exact p m = true -> runs_into p m = false ->
  forall u t,
    re_sub p repl (u ++ m ++ t) = re_sub p repl u ++ repl ++ re_sub p repl t.
Proof.
  unfold exact. intros X R. apply andb_true_iff in X as [X1 X2].
  apply Nat.eqb_eq in X2. intros u t.
  pattern u. apply re_sub_ind; [|intros s M IH|intros c s M IH].
  - rewrite re_sub_nil. simpl.
    rewrite re_sub_match by (rewrite matches_app by lia; exact X1).
    rewrite skipn_app, X2, skipn_all, Nat.sub_diag. reflexivity.
  - pose proof (matches_length _ _ M) as L.
    rewrite (re_sub_match (s ++ m ++ t)) by (rewrite matches_app; assumption).
    rewrite (re_sub_match s M).
    rewrite skipn_app.
    replace (List.length p - List.length s) with 0 by lia.
    simpl skipn at 2. rewrite IH. rewrite app_assoc. reflexivity.
  - change ((c :: s) ++ m ++ t) with (c :: (s ++ m ++ t)).
    rewrite re_sub_copy.
    + rewrite IH. rewrite re_sub_copy by exact M. reflexivity.
    + rewrite <- M. apply (matches_before p m R (c :: s) t). congruence.
Qed.

End Scan.

(** ** Occurrences after a substitution *)

Lemma occurs_matches (q : pattern) (s : str) :
  matches q s = true -> occurs q s = true.
Proof. destruct s; simpl; intros ->; reflexivity. Qed.

Lemma occurs_cons (q : pattern) (c : char) (s : str) :
  occurs q s = true -> occurs q (c :: s) = true.
Proof. simpl. intros ->. apply orb_true_r. Qed.

Lemma occurs_skipn (q : pattern) (k : nat) (s : str) :
  occurs q (skipn k s) = true -> occurs q s = true.
Proof.
  revert s; induction k as [|k IH]; intros s H; [exact H|].
  destruct s as [|c s]; [exact H|].
  apply occurs_cons, IH, H.
Qed.

(** Behind a segment clear of [q], occurrences of [q] are those of the
    rest. *)
Lemma occurs_behind (q : pattern) (m t : str) :
  nonempty q = true -> starts_inside q m = false ->
  occurs q (m ++ t) = occurs q t.
Proof.
  intros Q. induction m as [|c m IH]; intros H; [reflexivity|].
  simpl in H. apply orb_false_iff in H as [H1 H2].
  change ((c :: m) ++ t) with (c :: (m ++ t)).
  cbn [occurs]. rewrite IH by exact H2.
  destruct (matches q (c :: m ++ t)) eqn:E; [|reflexivity].
  apply (matches_overlap q (c :: m) t) in E. congruence.
Qed.

Section Occurrences.

Variables p q : pattern.
Variable repl : str.
Hypothesis p_nonempty : nonempty p = true.
Hypothesis q_nonempty : nonempty q = true.
Hypothesis q_clear : clear q repl = true.

(** A match of [q] that begins in copied text was a match before the
    substitution. *)
Lemma matches_after_sub (s : str) :
  forall u, u <> [] ->
    matches q (u ++ re_sub p repl s) = true -> matches q (u ++ s) = true.
Proof.
  pose proof q_clear as C. unfold clear in C.
  apply andb_true_iff in C as [_ R]. apply negb_true_iff in R.
  pattern s. apply (re_sub_ind p p_nonempty); [|intros s' M IH|intros c s' M IH].
  - rewrite (re_sub_nil p repl p_nonempty). auto.
  - intros u Hu H. rewrite (re_sub_match p repl p_nonempty s' M) in H.
    rewrite (matches_before q repl R u _ Hu) in H.
    rewrite matches_app; [exact H|]. apply matches_length; exact H.
  - intros u Hu H. rewrite (re_sub_copy p repl c s' M) in H.
    change (u ++ c :: re_sub p repl s')
      with (u ++ [c] ++ re_sub p repl s') in H.
    rewrite app_assoc in H. apply IH in H.
    + rewrite <- app_assoc in H. exact H.
    + destruct u; discriminate.
Qed.

(** The substitution creates no occurrence of [q]. *)
Lemma occurs_after_sub (s : str) :
  occurs q (re_sub p repl s) = true -> occurs q s = true.
Proof.
  pose proof q_clear as C. unfold clear in C.
  apply andb_true_iff in C as [I _]. apply negb_true_iff in I.
  pattern s. apply (re_sub_ind p p_nonempty); [|intros s' M IH|intros c s' M IH].
  - rewrite (re_sub_nil p repl p_nonempty). auto.
  - rewrite (re_sub_match p repl p_nonempty s' M).
    rewrite (occurs_behind q repl _ q_nonempty I).
    intros H. eapply occurs_skipn, IH, H.
  - rewrite (re_sub_copy p repl c s' M).
    intros H. cbn [occurs] in H. apply orb_true_iff in H as [H|H].
    + apply occurs_matches.
      apply (matches_after_sub s' [c]); [discriminate|exact H].
    + apply occurs_cons, IH, H.
Qed.

End Occurrences.

(** After its own substitution a pattern occurs nowhere. *)
Lemma occurs_own_sub (p : pattern) (repl : str) (s : str) :
  nonempty p = true -> clear p repl = true ->
  occurs p (re_sub p repl s) = false.
Proof.
  intros N C. pose proof C as C'. unfold clear in C'.
  apply andb_true_iff in C' as [I _]. apply negb_true_iff in I.
  pattern s. apply (re_sub_ind p N); [|intros s' M IH|intros c s' M IH].
  - rewrite (re_sub_nil p repl N). simpl. rewrite matches_nil by exact N. reflexivity.
  - rewrite (re_sub_match p repl N s' M).
    rewrite (occurs_behind p repl _ N I). exact IH.
  - rewrite (re_sub_copy p repl c s' M). cbn [occurs]. rewrite IH, orb_false_r.
    destruct (matches p (c :: re_sub p repl s')) eqn:E; [|reflexivity].
    apply (matches_after_sub p p repl N C s' [c]) in E; [|discriminate].
    simpl in E. congruence.
Qed.

(** ** The whole table *)

Lemma apply_patterns_cons (p : pattern) (r : str) (rules : list rule) (s : str) :
  apply_patterns ((p, r) :: rules) s = apply_patterns rules (re_sub p r s).
Proof. reflexivity. Qed.

Lemma apply_patterns_fixed (rules : list rule) (s : str) :
  (forall p, In p (map fst rules) -> nonempty p = true /\ occurs p s = false) ->
  apply_patterns rules s = s.
Proof.
  induction rules as [|[p r] rules IH]; intros H; [reflexivity|].
  rewrite apply_patterns_cons.
  destruct (H p (or_introl eq_refl)) as [N O].
  rewrite (re_sub_no_occurrence p r N s O).
  apply IH. intros p' Hp'. apply H. right. exact Hp'.
Qed.

Lemma stable_spec (rules : list rule) :
  stable rules = true ->
  forall p r, In p (map fst rules) -> In r (map snd rules) ->
    nonempty p = true /\ clear p r = true.
Proof.
  unfold stable. rewrite forallb_forall. intros H p r Hp Hr.
  specialize (H p Hp). apply andb_true_iff in H as [N C].
  rewrite forallb_forall in C. auto.
Qed.

(** Later rules do not bring back a pattern that is gone. *)
Lemma apply_patterns_keeps_absent (q : pattern) (rules : list rule) :
  nonempty q = true ->
  (forall p r, In (p, r) rules -> nonempty p = true /\ clear q r = true) ->
  forall s, occurs q s = false -> occurs q (apply_patterns rules s) = false.
Proof.
  intros Q. induction rules as [|[p r] rules IH]; intros H s O; [exact O|].
  rewrite apply_patterns_cons. apply IH.
  - intros p' r' Hin. apply H. right. exact Hin.
  - destruct (H p r (or_introl eq_refl)) as [N C].
    destruct (occurs q (re_sub p r s)) eqn:E; [|reflexivity].
    apply (occurs_after_sub p q r N Q C) in E. congruence.
Qed.

(** After the pass no pattern of a stable table occurs. *)
Lemma apply_patterns_clean (rules : list rule) :
  (forall p r, In p (map fst rules) -> In r (map snd rules) ->
     nonempty p = true /\ clear p r = true) ->
  forall s q, In q (map fst rules) -> occurs q (apply_patterns rules s) = false.
Proof.
  induction rules as [|[p r] rules IH]; intros H s q Hq; [contradiction|].
  rewrite apply_patterns_cons.
  assert (Hrest : forall p' r', In (p', r') rules ->
            forall q', In q' (map fst ((p, r) :: rules)) ->
              nonempty p' = true /\ clear q' r' = true).
  { intros p' r' Hin q' Hq'. split.
    - apply (H p' r'); right;
        [apply (in_map fst _ _ Hin) | apply (in_map snd _ _ Hin)].
    - apply (H q' r'); [exact Hq' | right; apply (in_map snd _ _ Hin)]. }
  destruct Hq as [<-|Hq].
  - simpl fst. destruct (H p r (or_introl eq_refl) (or_introl eq_refl)) as [N C].
    apply apply_patterns_keeps_absent; [exact N| |].
    + intros p' r' Hin. apply (Hrest p' r' Hin p). left. reflexivity.
    + apply occurs_own_sub; assumption.
  - apply IH; [|exact Hq].
    intros p' r' Hp' Hr'. apply H; right; assumption.
Qed.

Lemma stable_idempotent (rules : list rule) :
  stable rules = true ->
  forall s, apply_patterns rules (apply_patterns rules s) = apply_patterns rules s.
Proof.
  intros St s. pose proof (stable_spec rules St) as H.
  apply apply_patterns_fixed. intros p Hp. split.
  - destruct rules as [|[p0 r0] rules]; [contradiction|].
    apply (H p r0); [exact Hp | left; reflexivity].
  - apply apply_patterns_clean; assumption.
Qed.

(** C1: rewriting twice gives what rewriting once gives, for the table of
    either script and every content. *)
Theorem rewrite_idempotent (content : str) :
  apply_patterns Sprint23.patterns (apply_patterns Sprint23.patterns content)
    = apply_patterns Sprint23.patterns content
  /\ apply_patterns Sprint24.patterns (apply_patterns Sprint24.patterns content)
    = apply_patterns Sprint24.patterns content.
Proof.
  split; apply stable_idempotent; vm_compute; reflexivity.
Qed.

(** ** The codec *)

Lemma emit_ok (c : char) (r : exn + str) :
  (exists s, r = inr s /\ forallb is_scalar s = true) ->
  is_scalar c = true ->
  exists s, emit c r = inr s /\ forallb is_scalar s = true.
Proof.
  intros (s & -> & F) C. exists (c :: s). simpl. rewrite C, F. auto.
Qed.

Ltac to_arith :=
  repeat match goal with
    | H : (_ && _) = true |- _ => apply andb_true_iff in H as [? ?]
    | H : (_ <? _)%N = true |- _ => apply N.ltb_lt in H
    | H : (_ <? _)%N = false |- _ => apply N.ltb_ge in H
    | H : (_ <=? _)%N = true |- _ => apply N.leb_le in H
    | H : (_ <=? _)%N = false |- _ => apply N.leb_gt in H
    | H : (_ =? _)%N = true |- _ => apply N.eqb_eq in H
    | H : (_ =? _)%N = false |- _ => apply N.eqb_neq in H
    end.

Lemma two_bytes_scalar (b0 b1 : N) :
  (b0 <? 224)%N = true -> is_continuation b1 = true ->
  is_scalar ((b0 - 192) * 64 + (b1 - 128))%N = true.
Proof.
  unfold is_continuation, is_scalar. intros. to_arith.
  apply orb_true_iff. left. apply N.ltb_lt. lia.
Qed.

Lemma three_bytes_scalar (b0 b1 b2 : N) :
  (b0 <? 224)%N = false -> (b0 <? 240)%N = true ->
  is_continuation b1 = true -> second_ok3 b0 b1 = true ->
  is_continuation b2 = true ->
  is_scalar ((b0 - 224) * 4096 + (b1 - 128) * 64 + (b2 - 128))%N = true.
Proof.
  unfold is_continuation, second_ok3, is_scalar. intros H0 H1 H2 H3 H4.
  apply orb_true_iff.
  destruct (b0 =? 224)%N eqn:E0; [|destruct (b0 =? 237)%N eqn:E1]; to_arith.
  - left. apply N.ltb_lt. lia.
  - left. apply N.ltb_lt. lia.
  - assert (b0 < 237 \/ 237 < b0)%N as [L|L] by lia.
    + left. apply N.ltb_lt. lia.
    + right. apply andb_true_iff. split; [apply N.leb_le | apply N.ltb_lt]; lia.
Qed.

Lemma four_bytes_scalar (b0 b1 b2 b3 : N) :
  (b0 <? 240)%N = false -> (b0 <? 245)%N = true ->
  is_continuation b1 = true -> second_ok4 b0 b1 = true ->
  is_continuation b2 = true -> is_continuation b3 = true ->
  is_scalar ((b0 - 240) * 262144 + (b1 - 128) * 4096
             + (b2 - 128) * 64 + (b3 - 128))%N = true.
Proof.
  unfold is_continuation, second_ok4, is_scalar. intros H0 H1 H2 H3 H4 H5.
  apply orb_true_iff. right. apply andb_true_iff.
  destruct (b0 =? 240)%N eqn:E0; [|destruct (b0 =? 244)%N eqn:E1]; to_arith;
    (split; [apply N.leb_le | apply N.ltb_lt]); lia.
Qed.

(** Under [errors='ignore'] decoding always succeeds, and its result holds
    scalar values only. *)
Lemma utf8_decode_ignore (bs : list byte) :
  exists s, utf8_decode Ignore bs = inr s /\ forallb is_scalar s = true.
Proof.
  remember (List.length bs) as n eqn:En. revert bs En.
  induction n as [n IH] using lt_wf_ind. intros bs En.
  assert (REC : forall r, List.length r < n ->
            exists s, utf8_decode Ignore r = inr s /\ forallb is_scalar s = true).
  { intros r L. exact (IH _ L r eq_refl). }
  assert (NIL : exists s : str, @inr exn str [] = inr s /\ forallb is_scalar s = true).
  { exists []. auto. }
  clear IH. subst n.
  destruct bs as [|x0 r0]; [exact NIL|].
  cbn [utf8_decode malformed].
  destruct (Byte.to_N x0 <? 128)%N eqn:A.
  { apply emit_ok; [apply REC; simpl; lia|].
    unfold is_scalar. to_arith. apply orb_true_iff. left. apply N.ltb_lt. lia. }
  destruct (Byte.to_N x0 <? 194)%N eqn:B; [apply REC; simpl; lia|].
  destruct (Byte.to_N x0 <? 224)%N eqn:C.
  { destruct r0 as [|x1 r1]; [exact NIL|].
    destruct (is_continuation (Byte.to_N x1)) eqn:C1; [|apply REC; simpl; lia].
    apply emit_ok; [apply REC; simpl; lia|]. apply two_bytes_scalar; assumption. }
  destruct (Byte.to_N x0 <? 240)%N eqn:D.
  { destruct r0 as [|x1 r1]; [exact NIL|].
    destruct (is_continuation (Byte.to_N x1)) eqn:C1; cbn [andb];
      [|apply REC; simpl; lia].
    destruct (second_ok3 (Byte.to_N x0) (Byte.to_N x1)) eqn:S1;
      [|apply REC; simpl; lia].
    destruct r1 as [|x2 r2]; [exact NIL|].
    destruct (is_continuation (Byte.to_N x2)) eqn:C2; [|apply REC; simpl; lia].
    apply emit_ok; [apply REC; simpl; lia|].
    apply three_bytes_scalar; assumption. }
  destruct (Byte.to_N x0 <? 245)%N eqn:E; [|apply REC; simpl; lia].
  destruct r0 as [|x1 r1]; [exact NIL|].
  destruct (is_continuation (Byte.to_N x1)) eqn:C1; cbn [andb];
    [|apply REC; simpl; lia].
  destruct (second_ok4 (Byte.to_N x0) (Byte.to_N x1)) eqn:S1;
    [|apply REC; simpl; lia].
  destruct r1 as [|x2 r2]; [exact NIL|].
  destruct (is_continuation (Byte.to_N x2)) eqn:C2; [|apply REC; simpl; lia].
  destruct r2 as [|x3 r3]; [exact NIL|].
  destruct (is_continuation (Byte.to_N x3)) eqn:C3; [|apply REC; simpl; lia].
  apply emit_ok; [apply REC; simpl; lia|].
  apply four_bytes_scalar; assumption.
Qed.

Lemma translate_newlines_scalar (s : str) :
  forallb is_scalar s = true -> forallb is_scalar (translate_newlines s) = true.
Proof.
  remember (List.length s) as n eqn:En. revert s En.
  induction n as [n IH] using lt_wf_ind. intros s En F.
  destruct s as [|c s]; [reflexivity|].
  simpl in F. apply andb_true_iff in F as [Fc F].
  cbn [translate_newlines].
  destruct (c =? 13)%N.
  - cbn [forallb]. apply andb_true_iff. split; [reflexivity|].
    destruct s as [|d s]; [reflexivity|].
    simpl in F. apply andb_true_iff in F as [Fd F].
    destruct (d =? 10)%N.
    + apply (IH (List.length s)); [subst n; simpl; lia|reflexivity|exact F].
    + apply (IH (List.length (d :: s))); [subst n; simpl; lia|reflexivity|].
      simpl. rewrite Fd, F. reflexivity.
  - cbn [forallb]. rewrite Fc. simpl.
    apply (IH (List.length s)); [subst n; simpl; lia|reflexivity|exact F].
Qed.

Lemma decoded_scalar (data : list byte) : forallb is_scalar (decoded data) = true.
Proof.
  unfold decoded. destruct (utf8_decode_ignore data) as (s & -> & F).
  apply translate_newlines_scalar, F.
Qed.

Lemma forallb_app_true {A} (f : A -> bool) (a b : list A) :
  forallb f a = true -> forallb f b = true -> forallb f (a ++ b) = true.
Proof. intros Ha Hb. rewrite forallb_app, Ha, Hb. reflexivity. Qed.

Lemma sub_from_scalar (p : pattern) (repl : str) :
  forallb is_scalar repl = true ->
  forall s k, forallb is_scalar s = true ->
    forallb is_scalar (sub_from p repl k s) = true.
Proof.
  intros R. induction s as [|c s IH]; intros k F.
  - simpl. destruct k; [|reflexivity]. destruct (matches p []); auto.
  - simpl in F. apply andb_true_iff in F as [Fc F].
    cbn [sub_from]. destruct k as [|k]; [|apply IH, F].
    destruct (matches p (c :: s)).
    + apply forallb_app_true; [exact R|].
      destruct (List.length p); [|apply IH, F].
      simpl. rewrite Fc. apply IH, F.
    + simpl. rewrite Fc. apply IH, F.
Qed.

Lemma apply_patterns_scalar (rules : list rule) :
  scalar_rules rules = true ->
  forall s, forallb is_scalar s = true ->
    forallb is_scalar (apply_patterns rules s) = true.
Proof.
  induction rules as [|[p r] rules IH]; intros R s F; [exact F|].
  unfold scalar_rules in R. simpl in R. apply andb_true_iff in R as [R1 R2].
  rewrite apply_patterns_cons. apply IH; [exact R2|].
  apply sub_from_scalar; assumption.
Qed.

Lemma utf8_encode_scalar (s : str) :
  forallb is_scalar s = true -> utf8_encode s = inr (encoded s).
Proof.
  unfold encoded. induction s as [|c s IH]; intros F; [reflexivity|].
  simpl in F. apply andb_true_iff in F as [Fc F].
  simpl. rewrite Fc. rewrite (IH F). reflexivity.
Qed.

(** ** The file tree *)

Lemma path_eqb_eq (p q : path) : path_eqb p q = true <-> p = q.
Proof.
  revert q; induction p as [|a p IH]; intros [|b q]; simpl;
    try (split; (discriminate || reflexivity)).
  rewrite andb_true_iff, String.eqb_eq, IH.
  split; [intros [-> ->]; reflexivity | intros E; inversion E; auto].
Qed.

Lemma path_eqb_refl (p : path) : path_eqb p p = true.
Proof. apply path_eqb_eq; reflexivity. Qed.

Lemma path_eqb_neq (p q : path) : path_eqb p q = false <-> p <> q.
Proof.
  rewrite <- path_eqb_eq. destruct (path_eqb p q); split; congruence.
Qed.

Lemma lookup_store_same (f : filesystem) (p : path) (n : node) :
  lookup (store f p n) p = Some n.
Proof.
  induction f as [|[q m] f IH]; simpl.
  - rewrite path_eqb_refl. reflexivity.
  - destruct (path_eqb q p) eqn:E; simpl; rewrite E; auto.
Qed.

Lemma lookup_store_other (f : filesystem) (p q : path) (n : node) :
  p <> q -> lookup (store f p n) q = lookup f q.
Proof.
  intros D. induction f as [|[k m] f IH]; simpl.
  - apply path_eqb_neq in D. rewrite D. reflexivity.
  - destruct (path_eqb k p) eqn:E; simpl.
    + apply path_eqb_eq in E. subst k.
      apply path_eqb_neq in D. rewrite D. reflexivity.
    + rewrite IH. reflexivity.
Qed.

Lemma keys_store (f : filesystem) (p : path) (n : node) :
  lookup f p <> None -> map fst (store f p n) = map fst f.
Proof.
  induction f as [|[k m] f IH]; simpl; [congruence|].
  destruct (path_eqb k p) eqn:E; simpl; [reflexivity|].
  intros H. rewrite IH by exact H. reflexivity.
Qed.

Lemma lookup_In (f : filesystem) (p : path) (n : node) :
  lookup f p = Some n -> In (p, n) f.
Proof.
  induction f as [|[k m] f IH]; simpl; [discriminate|].
  destruct (path_eqb k p) eqn:E.
  - apply path_eqb_eq in E. intros [= ->]. left. congruence.
  - auto.
Qed.

Lemma In_lookup (f : filesystem) (p : path) (n : node) :
  NoDup (map fst f) -> In (p, n) f -> lookup f p = Some n.
Proof.
  induction f as [|[k m] f IH]; simpl; [contradiction|].
  intros ND [E|H].
  - inversion E; subst. rewrite path_eqb_refl. reflexivity.
  - inversion ND as [|? ? Hk ND']; subst.
    destruct (path_eqb k p) eqn:E.
    + apply path_eqb_eq in E. subst k. exfalso. apply Hk.
      apply (in_map fst _ _ H).
    + auto.
Qed.

(** ** One call of [update_file] *)

Section UpdateFile.

Variable patterns : list rule.
Hypothesis patterns_scalar : scalar_rules patterns = true.

Lemma read_text_run (p : path) (w : world) :
  read_text Ignore p w
  = (match lookup (fs w) p with
     | None => inl (absent_error (fs w) p)
     | Some Directory => inl (IsADirectoryError p)
     | Some (File true _ data) => inr (decoded data)
     | Some (File false _ _) => inl (PermissionError p)
     end,
     World (fs w) (trace w ++ [Open p ModeR])).
Proof.
  cbv [read_text bind log get_fs raise ret]. cbn [fs trace].
  destruct (lookup (fs w) p) as [[[|] wr data|]|]; try reflexivity.
  unfold decoded. destruct (utf8_decode_ignore data) as (s & -> & _).
  reflexivity.
Qed.

Lemma write_text_run (p : path) (w : world) (rd wr : bool) (data : list byte)
      (content : str) :
  lookup (fs w) p = Some (File rd wr data) ->
  forallb is_scalar content = true ->
  write_text p content w
  = if wr
    then (inr tt, World (store (fs w) p (File rd wr (encoded content)))
                        (trace w ++ [Open p ModeW]))
    else (inl (PermissionError p), World (fs w) (trace w ++ [Open p ModeW])).
Proof.
  intros L F.
  cbv [write_text bind log get_fs put_fs raise ret]. cbn [fs trace].
  rewrite L. destruct wr; [|reflexivity].
  rewrite (utf8_encode_scalar content F). reflexivity.
Qed.

(** The call returns normally; its flag, the tree it leaves and the
    events it adds are those of the verdict on the file's entry. *)
Lemma update_file_run (p : path) (w : world) :
  Script.update_file patterns p w
  = (inr (changes patterns (fs w) p),
     World (step_fs patterns (fs w) p)
           (trace w ++ events patterns (fs w) p)).
Proof.
  unfold changes, step_fs, events, judge.
  unfold Script.update_file, try_except.
  unfold bind at 1. rewrite read_text_run.
  destruct (lookup (fs w) p) as [[[|] wr data|]|] eqn:L;
    try (cbv [bind print log ret error_line]; cbn [fs trace];
         rewrite <- app_assoc; reflexivity).
  destruct (str_eqb (apply_patterns patterns (decoded data)) (decoded data)) eqn:E;
    cbn [negb]; [reflexivity|].
  unfold bind at 1.
  rewrite (write_text_run p (World (fs w) (trace w ++ [Open p ModeR]))
             true wr data _ L)
    by (apply apply_patterns_scalar; [exact patterns_scalar | apply decoded_scalar]).
  destruct wr.
  - cbv [ret]. cbn [fs trace]. rewrite <- app_assoc. reflexivity.
  - cbv [bind print log ret error_line]. cbn [fs trace].
    rewrite <- !app_assoc. reflexivity.
Qed.

End UpdateFile.

(** ** Segments carried through the table *)

Lemma carried_sound (rules : list rule) :
  forall m m', carried rules m m' = true ->
  forall u t,
    apply_patterns rules (u ++ m ++ t)
    = apply_patterns rules u ++ m' ++ apply_patterns rules t.
Proof.
  induction rules as [|[p r] rules IH]; intros m m' C u t.
  - simpl in C. apply str_eqb_eq in C. subst m'. reflexivity.
  - cbn [carried] in C. apply andb_true_iff in C as [N C].
    rewrite !apply_patterns_cons.
    destruct (clear p m) eqn:Cl.
    + rewrite (re_sub_split p r N m Cl). apply IH. exact C.
    + apply andb_true_iff in C as [C C3]. apply andb_true_iff in C as [C1 C2].
      apply negb_true_iff in C2.
      rewrite (re_sub_replace p r N m C1 C2). apply IH. exact C3.
Qed.

Lemma occurs_app_r (q : pattern) (u s : str) :
  occurs q s = true -> occurs q (u ++ s) = true.
Proof.
  induction u as [|c u IH]; intros H; [exact H|].
  apply occurs_cons, IH, H.
Qed.

Lemma occurs_exact (q : pattern) (m u t : str) :
  exact q m = true -> occurs q (u ++ m ++ t) = true.
Proof.
  unfold exact. intros X. apply andb_true_iff in X as [X1 X2].
  apply Nat.eqb_eq in X2.
  apply occurs_app_r, occurs_matches.
  rewrite matches_app by lia. exact X1.
Qed.

(** A text in which a pattern of a stable table occurs is changed by the
    pass. *)
Lemma apply_patterns_changes (rules : list rule) (q : pattern) (s : str) :
  stable rules = true -> In q (map fst rules) -> occurs q s = true ->
  apply_patterns rules s <> s.
Proof.
  intros St Hq O E.
  pose proof (apply_patterns_clean rules (stable_spec rules St) s q Hq) as C.
  rewrite E in C. congruence.
Qed.

Lemma is_quote_cases (c : char) :
  is_quote c = true -> c = apostrophe \/ c = dquote.
Proof.
  unfold is_quote. intros H. apply orb_true_iff in H as [H|H];
    apply N.eqb_eq in H; auto.
Qed.

(** ** Imports of the listed components *)

Lemma legacy_import_carried_23 (component : string) (q1 q2 : char) :
  In component (components Sprint_2_3) ->
  is_quote q1 = true -> is_quote q2 = true ->
  carried Sprint23.patterns (legacy_import component q1 q2) consolidated_import
  = true.
Proof.
  intros C Q1 Q2.
  apply is_quote_cases in Q1, Q2.
  simpl in C.
  destruct Q1; destruct Q2; subst q1 q2;
    repeat (destruct C as [<-|C]; [vm_compute; reflexivity|]);
    contradiction.
Qed.

Lemma legacy_import_carried_24 (component : string) (q1 q2 : char) :
  In component ["progress"; "switch"; "scroll-area"; "tabs"; "dropdown-menu"]%string ->
  is_quote q1 = true -> is_quote q2 = true ->
  carried Sprint24.patterns (legacy_import component q1 q2) consolidated_import
  = true.
Proof.
  intros C Q1 Q2.
  apply is_quote_cases in Q1, Q2.
  simpl in C.
  destruct Q1; destruct Q2; subst q1 q2;
    repeat (destruct C as [<-|C]; [vm_compute; reflexivity|]);
    contradiction.
Qed.

Lemma braced_dialog_carried (q1 q2 : char) :
  is_quote q1 = true -> is_quote q2 = true ->
  carried Sprint24.patterns (text "} " ++ legacy_import "dialog" q1 q2)
          (text "} " ++ consolidated_import)
  = true.
Proof.
  intros Q1 Q2. apply is_quote_cases in Q1, Q2.
  destruct Q1; destruct Q2; subst q1 q2; vm_compute; reflexivity.
Qed.

(** C3, as it is written, fails: a default import of the dialog module is
    left as it is, where the same import of the progress module is
    redirected. *)
Lemma sprint24_leaves_unbraced_dialog :
  apply_patterns Sprint24.patterns
    (text "import Dialog from '@/components/ui/dialog'")
  = text "import Dialog from '@/components/ui/dialog'"
  /\ apply_patterns Sprint24.patterns
       (text "import Progress from '@/components/ui/progress'")
     = text "import Progress from '@jade/ui/components'"
  /\ ~ redirects Sprint24.patterns "dialog".
Proof.
  split; [vm_compute; reflexivity|]. split; [vm_compute; reflexivity|].
  intros R.
  specialize (R apostrophe apostrophe (text "import Dialog ") []
                eq_refl eq_refl).
  vm_compute in R. discriminate R.
Qed.

(** ** Paths that extend a component name *)

Lemma accepts_quote_only (a : atom) (c : char) :
  match a with
  | Lit d => is_quote d
  | OneOf cs => forallb is_quote cs
  end = true ->
  is_quote c = false -> accepts a c = false.
Proof.
  intros H Q. destruct a as [d|cs]; simpl.
  - destruct (N.eqb d c) eqn:E; [|reflexivity].
    apply N.eqb_eq in E. subst d. congruence.
  - destruct (existsb (N.eqb c) cs) eqn:E; [|reflexivity].
    apply existsb_exists in E as (d & Hd & E). apply N.eqb_eq in E. subst d.
    rewrite forallb_forall in H. rewrite (H c Hd) in Q. discriminate.
Qed.

Lemma blocked_sound (p : pattern) :
  forall k, blocked p k = true ->
  forall c t, is_quote c = false -> matches p (k ++ c :: t) = false.
Proof.
  induction p as [|a p IH]; intros k B c t Q; [discriminate|].
  destruct k as [|x k]; simpl in *.
  - rewrite (accepts_quote_only a c B Q). reflexivity.
  - destruct (accepts a x); [|reflexivity]. simpl. apply IH; assumption.
Qed.

Lemma matches_before_unquoted (p : pattern) (k : str) (c : char) (t : str) :
  runs_into_unquoted p k = false -> is_quote c = false ->
  forall u, u <> [] -> matches p (u ++ k ++ c :: t) = matches p u.
Proof.
  intros R Q. induction p as [|a p IH]; intros u Hu; [reflexivity|].
  destruct u as [|x u]; [congruence|]. simpl.
  simpl in R. apply orb_false_iff in R as [R1 R2].
  destruct u as [|y u].
  - simpl. destruct p as [|b p]; [reflexivity|].
    f_equal. apply negb_false_iff in R1.
    apply blocked_sound; assumption.
  - rewrite (IH R2 (y :: u)) by congruence. reflexivity.
Qed.

Section ScanUnquoted.

Variable p : pattern.
Variable repl : str.
Hypothesis p_nonempty : nonempty p = true.

Lemma re_sub_through_unquoted (k : str) (c : char) (t : str) :
  starts_inside_unquoted p k = false -> is_quote c = false ->
  re_sub p repl (k ++ c :: t) = k ++ re_sub p repl (c :: t).
Proof.
  intros S Q. induction k as [|x k IH]; [reflexivity|].
  simpl in S. apply orb_false_iff in S as [S1 S2].
  apply negb_false_iff in S1.
  change ((x :: k) ++ c :: t) with (x :: (k ++ c :: t)).
  rewrite re_sub_copy.
  - rewrite IH by exact S2. reflexivity.
  - apply (blocked_sound p (x :: k) S1 c t Q).
Qed.

Lemma re_sub_split_unquoted (k : str) (c : char) (t : str) :
  starts_inside_unquoted p k = false -> runs_into_unquoted p k = false ->
  is_quote c = false ->
  forall u,
    re_sub p repl (u ++ k ++ c :: t)
    = re_sub p repl u ++ k ++ re_sub p repl (c :: t).
Proof.
  intros S R Q u.
  pattern u. apply (re_sub_ind p p_nonempty); [|intros s M IH|intros x s M IH].
  - rewrite (re_sub_nil p repl p_nonempty). simpl.
    apply re_sub_through_unquoted; assumption.
  - pose proof (matches_length _ _ M) as L.
    rewrite (re_sub_match p repl p_nonempty (s ++ k ++ c :: t))
      by (rewrite matches_app; assumption).
    rewrite (re_sub_match p repl p_nonempty s M).
    rewrite skipn_app.
    replace (List.length p - List.length s) with 0 by lia.
    simpl skipn at 2. rewrite IH. rewrite app_assoc. reflexivity.
  - change ((x :: s) ++ k ++ c :: t) with (x :: (s ++ k ++ c :: t)).
    rewrite re_sub_copy.
    + rewrite IH. rewrite (re_sub_copy p repl x s M). reflexivity.
    + rewrite <- M.
      apply (matches_before_unquoted p k c t R Q (x :: s)). congruence.
Qed.

Lemma re_sub_head_unquoted (c : char) (t : str) :
  head_unquoted repl = true -> is_quote c = false ->
  exists c' t', re_sub p repl (c :: t) = c' :: t' /\ is_quote c' = false.
Proof.
  intros H Q. destruct (matches p (c :: t)) eqn:M.
  - rewrite (re_sub_match p repl p_nonempty _ M).
    destruct repl as [|d r]; [discriminate|].
    simpl in H. apply negb_true_iff in H.
    exists d, (r ++ re_sub p (d :: r) (skipn (List.length p) (c :: t))).
    split; [reflexivity|exact H].
  - rewrite (re_sub_copy p repl c t M). eauto.
Qed.

End ScanUnquoted.

Lemma kept_sound (rules : list rule) (k : str) :
  kept rules k = true ->
  forall u c t, is_quote c = false ->
    apply_patterns rules (u ++ k ++ c :: t)
    = apply_patterns rules u ++ k ++ apply_patterns rules (c :: t).
Proof.
  induction rules as [|[p r] rules IH]; intros K u c t Q; [reflexivity|].
  simpl in K. apply andb_true_iff in K as [K K'].
  apply andb_true_iff in K as [K H]. apply andb_true_iff in K as [K R].
  apply andb_true_iff in K as [N S].
  apply negb_true_iff in S, R.
  rewrite !apply_patterns_cons.
  rewrite (re_sub_split_unquoted p r N k c t S R Q).
  destruct (re_sub_head_unquoted p r N c t H Q) as (c' & t' & E & Q').
  rewrite E. apply IH; assumption.
Qed.

Lemma legacy_head_kept (sc : script) (component : string) (q1 : char) :
  In component (components Sprint_2_3 ++ components Sprint_2_4) ->
  is_quote q1 = true ->
  kept (table sc) (legacy_head component q1) = true
  /\ forallb (fun r => blocked (fst r) (legacy_head component q1)
                       && blocked (fst r) (text "} " ++ legacy_head component q1))
             (table sc) = true.
Proof.
  intros C Q1. apply is_quote_cases in Q1.
  destruct sc; simpl in C; destruct Q1; subst q1;
    repeat (destruct C as [<-|C]; [split; vm_compute; reflexivity|]);
    contradiction.
Qed.

Ltac name_as lead name :=
  exists lead, name; split; [simpl; tauto | reflexivity].

Ltac name_pattern :=
  first [ name_as "from "%string "badge"%string
        | name_as "from "%string "alert"%string
        | name_as "from "%string "label"%string
        | name_as "from "%string "textarea"%string
        | name_as "from "%string "select"%string
        | name_as "from "%string "progress"%string
        | name_as "from "%string "switch"%string
        | name_as "from "%string "scroll-area"%string
        | name_as "from "%string "tabs"%string
        | name_as "from "%string "dropdown-menu"%string
        | name_as "} from "%string "dialog"%string ].

(** C10: every pattern ends in the class of the quotes right behind its
    component name; so where a listed name (of either table) is followed
    by a character that is not a quote, no pattern of either script
    matches, with or without a brace before [from], and the import is left
    as it is whatever stands around it. *)
Theorem extended_paths_untouched (sc : script) (component : string)
        (q1 c : char) (u t : str) :
  In component (components Sprint_2_3 ++ components Sprint_2_4) ->
  is_quote q1 = true -> is_quote c = false ->
  (forall p r, In (p, r) (table sc) ->
     (exists lead name,
         In name (components sc) /\
         p = lits lead ++ [quotes] ++ lits ("@/components/ui/" ++ name) ++ [quotes])
     /\ matches p (legacy_head component q1 ++ c :: t) = false
     /\ matches p (text "} " ++ legacy_head component q1 ++ c :: t) = false)
  /\ apply_patterns (table sc) (u ++ legacy_head component q1 ++ c :: t)
     = apply_patterns (table sc) u ++ legacy_head component q1
       ++ apply_patterns (table sc) (c :: t).
Proof.
  intros C Q1 Q.
  destruct (legacy_head_kept sc component q1 C Q1) as [K B].
  split.
  - intros p r Hin. rewrite forallb_forall in B.
    specialize (B (p, r) Hin). apply andb_true_iff in B as [B1 B2].
    split; [|split].
    + destruct sc; simpl in Hin;
        repeat (destruct Hin as [E|Hin];
                [inversion E; subst p r; clear E; name_pattern | ]);
        contradiction.
    + apply blocked_sound; assumption.
    + rewrite app_assoc. apply blocked_sound; [|assumption]. exact B2.
  - apply kept_sound; assumption.
Qed.

Lemma extended_paths_untouched_witness :
  (apply_patterns (table Sprint_2_3)
     (text "import { Badge } " ++ legacy_head "badge" apostrophe ++ text "/index'")
   = apply_patterns (table Sprint_2_3) (text "import { Badge } ")
     ++ legacy_head "badge" apostrophe
     ++ apply_patterns (table Sprint_2_3) (text "/index'"))
  /\ (apply_patterns (table Sprint_2_4)
        (text "import { Selector } " ++ legacy_head "select" dquote ++ text "or'")
      = apply_patterns (table Sprint_2_4) (text "import { Selector } ")
        ++ legacy_head "select" dquote
        ++ apply_patterns (table Sprint_2_4) (text "or'"))
  /\ (apply_patterns (table Sprint_2_4)
        (text "import { Tabs } " ++ legacy_head "tabs" apostrophe ++ text "-extra'")
      = apply_patterns (table Sprint_2_4) (text "import { Tabs } ")
        ++ legacy_head "tabs" apostrophe
        ++ apply_patterns (table Sprint_2_4) (text "-extra'")).
Proof.
  split; [|split].
  - apply (extended_paths_untouched Sprint_2_3 "badge" apostrophe 47%N
             (text "import { Badge } ") (text "index'"));
      [simpl; tauto | reflexivity | reflexivity].
  - apply (extended_paths_untouched Sprint_2_4 "select" dquote 111%N
             (text "import { Selector } ") (text "r'"));
      [simpl; tauto | reflexivity | reflexivity].
  - apply (extended_paths_untouched Sprint_2_4 "tabs" apostrophe 45%N
             (text "import { Tabs } ") (text "extra'"));
      [simpl; tauto | reflexivity | reflexivity].
Defined.

(** ** The loops of [main] on the tree *)

Section Visits.

Variable rules : list rule.

Lemma keys_step (f : filesystem) (p : path) :
  map fst (step_fs rules f p) = map fst f.
Proof.
  unfold step_fs, judge.
  destruct (lookup f p) as [[[|] wr data|]|] eqn:L; try reflexivity.
  destruct (str_eqb _ _); [reflexivity|].
  destruct wr; [|reflexivity].
  apply keys_store. congruence.
Qed.

Lemma lookup_step_other (f : filesystem) (p q : path) :
  p <> q -> lookup (step_fs rules f p) q = lookup f q.
Proof.
  intros D. unfold step_fs.
  destruct (judge rules p (lookup f p)); try reflexivity.
  apply lookup_store_other. exact D.
Qed.

Lemma lookup_step_same (f : filesystem) (p : path) :
  lookup (step_fs rules f p) p = entry_after rules p (lookup f p).
Proof.
  unfold step_fs, entry_after.
  destruct (judge rules p (lookup f p)); try reflexivity.
  apply lookup_store_same.
Qed.

Lemma changes_step_other (f : filesystem) (p q : path) :
  p <> q -> changes rules (step_fs rules f p) q = changes rules f q.
Proof.
  intros D. unfold changes. rewrite lookup_step_other by exact D. reflexivity.
Qed.

Lemma visit_all_snd (files : list path) :
  forall acc f,
    snd (visit_all rules files (acc, f)) = fold_left (step_fs rules) files f.
Proof.
  induction files as [|p files IH]; intros acc f; [reflexivity|].
  unfold visit_all in *. cbn [fold_left]. unfold visit at 2. cbn [fst snd].
  apply IH.
Qed.

Lemma visit_all_fst (files : list path) :
  NoDup files ->
  forall acc f,
    fst (visit_all rules files (acc, f))
    = acc ++ filter (changes rules f) files.
Proof.
  induction files as [|p files IH]; intros ND acc f.
  - simpl. rewrite app_nil_r. reflexivity.
  - inversion ND as [|? ? Hp ND']; subst.
    unfold visit_all in *. cbn [fold_left]. unfold visit at 2. cbn [fst snd].
    rewrite (IH ND'). cbn [filter].
    rewrite (filter_ext_in (changes rules (step_fs rules f p)) (changes rules f)).
    + destruct (changes rules f p); [rewrite <- app_assoc|]; reflexivity.
    + intros q Hq. apply changes_step_other. intros ->. contradiction.
Qed.

Lemma keys_sweep (files : list path) :
  forall f, map fst (fold_left (step_fs rules) files f) = map fst f.
Proof.
  induction files as [|p files IH]; intros f; [reflexivity|].
  cbn [fold_left]. rewrite IH. apply keys_step.
Qed.

Lemma lookup_sweep_out (files : list path) (q : path) :
  ~ In q files ->
  forall f, lookup (fold_left (step_fs rules) files f) q = lookup f q.
Proof.
  induction files as [|p files IH]; intros Hq f; [reflexivity|].
  cbn [fold_left]. rewrite IH by (intros H; apply Hq; right; exact H).
  apply lookup_step_other. intros ->. apply Hq. left. reflexivity.
Qed.

Lemma lookup_sweep_in (files : list path) (q : path) :
  NoDup files -> In q files ->
  forall f, lookup (fold_left (step_fs rules) files f) q
            = entry_after rules q (lookup f q).
Proof.
  induction files as [|p files IH]; intros ND Hq f; [contradiction|].
  inversion ND as [|? ? Hp ND']; subst. cbn [fold_left].
  destruct Hq as [->|Hq].
  - rewrite lookup_sweep_out by exact Hp. apply lookup_step_same.
  - rewrite (IH ND' Hq).
    rewrite lookup_step_other; [reflexivity|]. intros ->. contradiction.
Qed.

Lemma glob_entries_keys (root : path) (pat : string) (f g : filesystem) :
  map fst f = map fst g -> glob_entries root pat f = glob_entries root pat g.
Proof. unfold glob_entries. intros ->. reflexivity. Qed.

Lemma visit_all_app (a b : list path) (st : list path * filesystem) :
  visit_all rules (a ++ b) st = visit_all rules b (visit_all rules a st).
Proof. unfold visit_all. apply fold_left_app. Qed.

(** The two loops visit the files of the listing, one after the other. *)
Lemma visit_tree_listing (f : filesystem) :
  visit_tree rules ([], f) = visit_all rules (listing f) ([], f).
Proof.
  unfold listing. rewrite visit_all_app.
  unfold visit_tree. cbn [fold_left]. cbn [snd].
  f_equal. apply glob_entries_keys.
  rewrite visit_all_snd. apply keys_sweep.
Qed.

End Visits.

(** ** File names *)

Lemma fnmatch_plain (pat : list ascii) :
  plain pat = true -> forall s, fnmatch pat s = true -> s = pat.
Proof.
  induction pat as [|c pat IH]; intros P s H.
  - destruct s; [reflexivity|discriminate].
  - simpl in P. apply andb_true_iff in P as [Pc P].
    apply negb_true_iff in Pc. cbn [fnmatch] in H. rewrite Pc in H.
    destruct s as [|d s]; [discriminate|].
    apply andb_true_iff in H as [E H]. apply Ascii.eqb_eq in E. subst d.
    f_equal. apply IH; assumption.
Qed.

Lemma fnmatch_star (pat : list ascii) :
  plain pat = true ->
  forall s, fnmatch ("*"%char :: pat) s = true -> exists pre, s = pre ++ pat.
Proof.
  intros P. induction s as [|d s IH]; intros H.
  - cbn in H. rewrite orb_false_r in H.
    apply (fnmatch_plain pat P) in H. exists []. exact H.
  - cbn [fnmatch] in H. rewrite Ascii.eqb_refl in H.
    apply orb_true_iff in H as [H|H].
    + apply (fnmatch_plain pat P) in H. exists []. exact H.
    + destruct IH as [pre E].
      * cbn [fnmatch]. rewrite Ascii.eqb_refl. exact H.
      * exists (d :: pre). rewrite E. reflexivity.
Qed.

Lemma ts_not_tsx (s : string) :
  fnmatch (list_ascii_of_string "*.ts") (list_ascii_of_string s) = true ->
  fnmatch (list_ascii_of_string "*.tsx") (list_ascii_of_string s) = false.
Proof.
  intros H.
  destruct (fnmatch (list_ascii_of_string "*.tsx") (list_ascii_of_string s)) eqn:T;
    [|reflexivity].
  apply (fnmatch_star (list_ascii_of_string ".ts") eq_refl) in H as [a Ea].
  apply (fnmatch_star (list_ascii_of_string ".tsx") eq_refl) in T as [b Eb].
  rewrite Ea in Eb. simpl in Eb.
  assert (L : last (a ++ ["."; "t"; "s"]%char) " "%char
              = last (b ++ ["."; "t"; "s"; "x"]%char) " "%char)
    by (rewrite Eb; reflexivity).
  change (a ++ ["."; "t"; "s"]%char)
    with (a ++ ["."; "t"]%char ++ ["s"%char]) in L.
  change (b ++ ["."; "t"; "s"; "x"]%char)
    with (b ++ ["."; "t"; "s"]%char ++ ["x"%char]) in L.
  rewrite !app_assoc, !last_last in L. discriminate L.
Qed.

Lemma listing_NoDup (f : filesystem) :
  NoDup (map fst f) -> NoDup (listing f).
Proof.
  intros ND. unfold listing, glob_entries.
  apply NoDup_app; try (apply NoDup_filter; exact ND).
  intros p H1 H2. apply filter_In in H1 as [_ H1], H2 as [_ H2].
  apply andb_true_iff in H1 as [_ H1], H2 as [_ H2].
  apply ts_not_tsx in H1. congruence.
Qed.

Lemma listing_In (f : filesystem) (p : path) :
  In p (listing f) <->
  In p (map fst f) /\ is_under Script.src_dir p = true
  /\ (fnmatch (list_ascii_of_string "*.ts") (list_ascii_of_string (name p)) = true
      \/ fnmatch (list_ascii_of_string "*.tsx") (list_ascii_of_string (name p)) = true).
Proof.
  unfold listing, glob_entries. rewrite in_app_iff, !filter_In, !andb_true_iff.
  tauto.
Qed.

(** ** The loops of [main] as they run *)

Lemma visit_all_from (rules : list rule) (files : list path) :
  forall acc f p,
    In p (fst (visit_all rules files (acc, f))) -> In p acc \/ In p files.
Proof.
  induction files as [|q files IH]; intros acc f p H; [left; exact H|].
  unfold visit_all in *. cbn [fold_left] in H. unfold visit at 2 in H.
  cbn [fst snd] in H. apply IH in H as [H|H]; [|right; right; exact H].
  destruct (changes rules f q); [|left; exact H].
  apply in_app_or in H as [H|[<-|[]]]; [left; exact H|right; left; reflexivity].
Qed.

Lemma print_run (line : string) (w : world) :
  print line w = (inr tt, World (fs w) (trace w ++ [Print line])).
Proof. reflexivity. Qed.

Section Runs.

Variable patterns : list rule.
Hypothesis patterns_scalar : scalar_rules patterns = true.

(** The inner loop of [main] over the files of one extension. *)
Lemma collect_run (files : list path) :
  forall acc w,
    exists evs,
      for_in files
        (fun filepath updated_files =>
           changed <- Script.update_file patterns filepath ;;
           ret (if changed then updated_files ++ [filepath]
                else updated_files))
        acc w
      = (inr (fst (visit_all patterns files (acc, fs w))),
         World (snd (visit_all patterns files (acc, fs w))) (trace w ++ evs)).
Proof.
  induction files as [|p files IH]; intros acc w.
  - exists []. destruct w as [f tr]. cbn. rewrite app_nil_r. reflexivity.
  - cbn [for_in]. unfold bind at 1. unfold bind at 1.
    rewrite (update_file_run patterns patterns_scalar p w).
    unfold ret at 1.
    destruct (IH (if changes patterns (fs w) p then acc ++ [p] else acc)
                 (World (step_fs patterns (fs w) p)
                        (trace w ++ events patterns (fs w) p)))
      as [evs E].
    rewrite E. cbn [fs trace].
    exists (events patterns (fs w) p ++ evs).
    rewrite app_assoc. reflexivity.
Qed.

Lemma extension_run (ext : string) (acc : list path) (w : world) :
  exists evs,
    (files <- rglob Script.src_dir ext ;;
     for_in files
       (fun filepath updated_files =>
          changed <- Script.update_file patterns filepath ;;
          ret (if changed then updated_files ++ [filepath]
               else updated_files))
       acc) w
    = (inr (fst (visit_all patterns (glob_entries Script.src_dir ext (fs w))
                           (acc, fs w))),
       World (snd (visit_all patterns (glob_entries Script.src_dir ext (fs w))
                             (acc, fs w)))
             (trace w ++ evs)).
Proof.
  unfold bind at 1. unfold rglob, bind at 1, get_fs, ret at 1.
  apply collect_run.
Qed.

(** The two loops return normally, with the list and the tree of
    [visit_tree]. *)
Lemma update_tree_run (w : world) :
  exists evs,
    Script.update_tree patterns w
    = (inr (fst (visit_tree patterns ([], fs w))),
       World (snd (visit_tree patterns ([], fs w))) (trace w ++ evs)).
Proof.
  unfold Script.update_tree, visit_tree. cbn [for_in fold_left].
  unfold bind at 1.
  destruct (extension_run "*.ts" [] w) as [e1 E1]. rewrite E1.
  cbn [snd].
  destruct (visit_all patterns (glob_entries Script.src_dir "*.ts" (fs w))
                      ([], fs w)) as [acc1 f1] eqn:V1.
  cbn [fst snd]. unfold bind at 1.
  destruct (extension_run "*.tsx" acc1 (World f1 (trace w ++ e1))) as [e2 E2].
  rewrite E2. cbn [fs trace]. unfold ret.
  exists (e1 ++ e2). rewrite app_assoc. reflexivity.
Qed.

Lemma relative_to_apps (p : path) (w : world) :
  is_under Script.src_dir p = true ->
  exists rest,
    relative_to p (parent (parent (parent Script.src_dir))) w = (inr rest, w).
Proof.
  intros U. destruct p as [|a p]; [discriminate|].
  unfold Script.src_dir in U. cbn [is_under] in U.
  apply andb_true_iff in U as [E _].
  apply String.eqb_eq in E. subst a.
  exists p. reflexivity.
Qed.

(** The closing loop of [main] prints one line for each file. *)
Lemma report_run (files : list path) :
  (forall p, In p files -> is_under Script.src_dir p = true) ->
  forall w,
    exists evs,
      for_in files
        (fun filepath (_ : unit) =>
           rel <- relative_to filepath (parent (parent (parent Script.src_dir))) ;;
           print ("  - " ++ path_str rel)%string)
        tt w
      = (inr tt, World (fs w) (trace w ++ evs))
      /\ List.length evs = List.length files.
Proof.
  induction files as [|p files IH]; intros U w.
  - exists []. destruct w as [f tr]. cbn. rewrite app_nil_r. auto.
  - cbn [for_in]. unfold bind at 1. unfold bind at 1.
    destruct (relative_to_apps p w (U p (or_introl eq_refl))) as [rest R].
    rewrite R. cbv beta iota. rewrite print_run. cbv beta iota.
    destruct (IH (fun q H => U q (or_intror H))
                 (World (fs w) (trace w ++ [Print ("  - " ++ path_str rest)%string])))
      as (evs & E & L).
    rewrite E. cbn [fs trace].
    exists (Print ("  - " ++ path_str rest)%string :: evs).
    rewrite <- app_assoc. simpl. auto.
Qed.

Lemma updated_under (f : filesystem) (p : path) :
  In p (fst (visit_tree patterns ([], f))) ->
  is_under Script.src_dir p = true.
Proof.
  rewrite visit_tree_listing. intros H.
  apply visit_all_from in H as [[]|H].
  apply listing_In in H. tauto.
Qed.

(** [main] returns normally in every world. *)
Lemma main_run (w : world) :
  exists evs,
    Script.main patterns w
    = (inr tt,
       World (match lookup (fs w) Script.src_dir with
              | Some _ => snd (visit_tree patterns ([], fs w))
              | None => fs w
              end)
             (trace w ++ evs)).
Proof.
  unfold Script.main. unfold bind at 1.
  unfold path_exists, bind at 1, get_fs, ret at 1.
  destruct (lookup (fs w) Script.src_dir) as [n|]; cbn [negb].
  - unfold bind at 1.
    destruct (update_tree_run w) as [e1 E1]. rewrite E1.
    unfold bind at 1. unfold print at 1, log at 1. cbn [fs trace].
    destruct (report_run (fst (visit_tree patterns ([], fs w)))
                (updated_under (fs w))
                (World (snd (visit_tree patterns ([], fs w)))
                       ((trace w ++ e1)
                        ++ [Print ("Updated "
                                   ++ nat_str (List.length
                                                 (fst (visit_tree patterns ([], fs w))))
                                   ++ " files:")%string])))
      as (e2 & E2 & _).
    rewrite E2. cbn [fs trace].
    eexists. rewrite <- !app_assoc. reflexivity.
  - unfold print, log. eexists. reflexivity.
Qed.

End Runs.

Lemma table_scalar (sc : script) : scalar_rules (table sc) = true.
Proof. destruct sc; vm_compute; reflexivity. Qed.

Lemma table_stable (sc : script) : stable (table sc) = true.
Proof. destruct sc; vm_compute; reflexivity. Qed.

Lemma update_file_of_table (sc : script) :
  update_file_of sc = Script.update_file (table sc).
Proof. destruct sc; reflexivity. Qed.

Lemma update_tree_of_table (sc : script) :
  update_tree_of sc = Script.update_tree (table sc).
Proof. destruct sc; reflexivity. Qed.

Lemma main_of_table (sc : script) : main_of sc = Script.main (table sc).
Proof. destruct sc; reflexivity. Qed.

(** ** Claims on [update_file] and [main] *)

(** C5: when the root directory does not exist, [main] of either script
    prints the one line that names it, opens and changes no file, and
    returns normally. *)
Theorem missing_root_reported (sc : script) (w : world) :
  lookup (fs w) Script.src_dir = None ->
  main_of sc w
  = (inr tt,
     World (fs w)
           (trace w
            ++ [Print "Directory not found: apps/curated/marketplace-frontend/src"])).
Proof.
  intros L. rewrite main_of_table.
  unfold Script.main. unfold bind at 1.
  unfold path_exists, bind at 1, get_fs, ret at 1.
  rewrite L. reflexivity.
Qed.

Lemma missing_root_reported_witness :
  main_of Sprint_2_3 (World [([("README.md")%string], File true true [])] [])
  = (inr tt,
     World [([("README.md")%string], File true true [])]
           [Print "Directory not found: apps/curated/marketplace-frontend/src"]).
Proof.
  apply (missing_root_reported Sprint_2_3
           (World [([("README.md")%string], File true true [])] [])).
  reflexivity.
Defined.

Lemma judge_readable (rules : list rule) (p : path) (wr : bool) (data : list byte) :
  judge rules p (Some (File true wr data))
  = if str_eqb (apply_patterns rules (decoded data)) (decoded data) then Unchanged
    else if wr
         then Rewritten (File true true (encoded (apply_patterns rules (decoded data))))
         else Failed [Open p ModeR; Open p ModeW] (PermissionError p).
Proof. reflexivity. Qed.


(** ** Decoding *)

Lemma emit_inr (c : char) (r : exn + str) (s : str) :
  emit c r = inr s -> exists s', r = inr s' /\ s = c :: s'.
Proof.
  destruct r as [e|s']; simpl; [discriminate|]. intros [= <-]. eauto.
Qed.

(** Where strict decoding succeeds, lenient decoding gives the same text. *)
Lemma utf8_decode_strict_ignore (bs : list byte) :
  forall s, utf8_decode Strict bs = inr s -> utf8_decode Ignore bs = inr s.
Proof.
  remember (List.length bs) as n eqn:En. revert bs En.
  induction n as [n IH] using lt_wf_ind. intros bs En s.
  assert (REC : forall c r s,
            List.length r < n ->
            emit c (utf8_decode Strict r) = inr s ->
            emit c (utf8_decode Ignore r) = inr s).
  { intros c r s' L H. apply emit_inr in H as (s0 & H & ->).
    rewrite (IH _ L r eq_refl s0 H). reflexivity. }
  clear IH. subst n.
  destruct bs as [|x0 r0]; [auto|].
  cbn [utf8_decode malformed].
  destruct (Byte.to_N x0 <? 128)%N; [apply REC; simpl; lia|].
  destruct (Byte.to_N x0 <? 194)%N; [discriminate|].
  destruct (Byte.to_N x0 <? 224)%N.
  { destruct r0 as [|x1 r1]; [discriminate|].
    destruct (is_continuation (Byte.to_N x1)); [|discriminate].
    apply REC; simpl; lia. }
  destruct (Byte.to_N x0 <? 240)%N.
  { destruct r0 as [|x1 r1]; [discriminate|].
    destruct (is_continuation (Byte.to_N x1) && second_ok3 (Byte.to_N x0) (Byte.to_N x1));
      [|discriminate].
    destruct r1 as [|x2 r2]; [discriminate|].
    destruct (is_continuation (Byte.to_N x2)); [|discriminate].
    apply REC; simpl; lia. }
  destruct (Byte.to_N x0 <? 245)%N; [|discriminate].
  destruct r0 as [|x1 r1]; [discriminate|].
  destruct (is_continuation (Byte.to_N x1) && second_ok4 (Byte.to_N x0) (Byte.to_N x1));
    [|discriminate].
  destruct r1 as [|x2 r2]; [discriminate|].
  destruct (is_continuation (Byte.to_N x2)); [|discriminate].
  destruct r2 as [|x3 r3]; [discriminate|].
  destruct (is_continuation (Byte.to_N x3)); [|discriminate].
  apply REC; simpl; lia.
Qed.

(** C8: whatever bytes a readable file holds, decoding them under
    [errors='ignore'] gives a text: the text of strict decoding where that
    succeeds, and with a byte that cannot start a sequence dropped; the
    read of [update_file] returns this text, and the call goes on with the
    substitution on it and reports no error. *)
Theorem decoding_is_lenient (sc : script) (w : world) (filepath : path)
        (data : list byte) :
  lookup (fs w) filepath = Some (File true true data) ->
  (exists s, utf8_decode Ignore data = inr s
             /\ decoded data = translate_newlines s
             /\ (forall s', utf8_decode Strict data = inr s' -> s' = s))
  /\ (forall b rest,
         invalid_start (Byte.to_N b) = true ->
         utf8_decode Strict (b :: rest) = inl UnicodeDecodeError
         /\ utf8_decode Ignore (b :: rest) = utf8_decode Ignore rest)
  /\ read_text Ignore filepath w
     = (inr (decoded data), World (fs w) (trace w ++ [Open filepath ModeR]))
  /\ update_file_of sc filepath w
     = if str_eqb (apply_patterns (table sc) (decoded data)) (decoded data)
       then (inr false, World (fs w) (trace w ++ [Open filepath ModeR]))
       else (inr true,
             World (store (fs w) filepath
                          (File true true
                                (encoded (apply_patterns (table sc) (decoded data)))))
                   (trace w ++ [Open filepath ModeR; Open filepath ModeW])).
Proof.
  intros L. split; [|split; [|split]].
  - destruct (utf8_decode_ignore data) as (s & E & _).
    exists s. split; [exact E|]. split.
    + unfold decoded. rewrite E. reflexivity.
    + intros s' H. apply utf8_decode_strict_ignore in H. congruence.
  - intros b rest I. unfold invalid_start in I.
    cbn [utf8_decode malformed].
    apply orb_true_iff in I as [I|I].
    + apply andb_true_iff in I as [I1 I2].
      apply N.leb_le in I1.
      destruct (Byte.to_N b <? 128)%N eqn:A; [apply N.ltb_lt in A; lia|].
      rewrite I2. auto.
    + apply N.leb_le in I.
      destruct (Byte.to_N b <? 128)%N eqn:A; [apply N.ltb_lt in A; lia|].
      destruct (Byte.to_N b <? 194)%N eqn:B; [apply N.ltb_lt in B; lia|].
      destruct (Byte.to_N b <? 224)%N eqn:C; [apply N.ltb_lt in C; lia|].
      destruct (Byte.to_N b <? 240)%N eqn:D; [apply N.ltb_lt in D; lia|].
      destruct (Byte.to_N b <? 245)%N eqn:E; [apply N.ltb_lt in E; lia|].
      auto.
  - rewrite read_text_run, L. reflexivity.
  - rewrite update_file_of_table.
    rewrite (update_file_run (table sc) (table_scalar sc) filepath w).
    unfold changes, step_fs, events. rewrite L, judge_readable.
    destruct (str_eqb _ _); reflexivity.
Qed.

(** ** The scenarios *)

Lemma apply_patterns_changes_exact (rules : list rule) (m u t : str) :
  stable rules = true ->
  existsb (fun r => exact (fst r) m) rules = true ->
  apply_patterns rules (u ++ m ++ t) <> u ++ m ++ t.
Proof.
  intros St X. apply existsb_exists in X as ([q r] & Hin & X).
  apply (apply_patterns_changes rules q); [exact St| |].
  - apply (in_map fst _ _ Hin).
  - apply occurs_exact. exact X.
Qed.

Lemma sprint23_changes_import (component : string) (q1 q2 : char) (u t : str) :
  In component (components Sprint_2_3) ->
  is_quote q1 = true -> is_quote q2 = true ->
  apply_patterns Sprint23.patterns (u ++ legacy_import component q1 q2 ++ t)
  = apply_patterns Sprint23.patterns u ++ consolidated_import
    ++ apply_patterns Sprint23.patterns t
  /\ apply_patterns Sprint23.patterns (u ++ legacy_import component q1 q2 ++ t)
     <> u ++ legacy_import component q1 q2 ++ t.
Proof.
  intros C Q1 Q2. split.
  - apply carried_sound, legacy_import_carried_23; assumption.
  - apply apply_patterns_changes_exact; [vm_compute; reflexivity|].
    apply is_quote_cases in Q1, Q2. simpl in C.
    destruct Q1; destruct Q2; subst q1 q2;
      repeat (destruct C as [<-|C]; [vm_compute; reflexivity|]);
      contradiction.
Qed.

Lemma updated_listing (rules : list rule) (f : filesystem) :
  NoDup (map fst f) ->
  fst (visit_tree rules ([], f)) = filter (changes rules f) (listing f)
  /\ snd (visit_tree rules ([], f)) = fold_left (step_fs rules) (listing f) f.
Proof.
  intros ND. rewrite visit_tree_listing. split.
  - rewrite visit_all_fst by (apply listing_NoDup; exact ND). reflexivity.
  - apply visit_all_snd.
Qed.

(** ** Two runs over the same tree *)

Lemma lookup_perm (f g : filesystem) :
  NoDup (map fst f) -> Permutation f g ->
  forall p, lookup f p = lookup g p.
Proof.
  intros ND P p.
  assert (NDg : NoDup (map fst g))
    by (apply (Permutation_NoDup (Permutation_map fst P)), ND).
  destruct (lookup f p) as [n|] eqn:Lf.
  - symmetry. apply In_lookup; [exact NDg|].
    apply (Permutation_in _ P), lookup_In, Lf.
  - destruct (lookup g p) as [n|] eqn:Lg; [|reflexivity].
    apply lookup_In in Lg. apply (Permutation_in _ (Permutation_sym P)) in Lg.
    apply (In_lookup f p n ND) in Lg. congruence.
Qed.

Lemma filter_perm {A} (h : A -> bool) (l l' : list A) :
  Permutation l l' -> Permutation (filter h l) (filter h l').
Proof.
  induction 1 as [|x l l' P IH|x y l|l l' l'' P1 IH1 P2 IH2]; simpl.
  - constructor.
  - destruct (h x); [constructor|]; exact IH.
  - destruct (h x), (h y); try apply Permutation_refl. apply perm_swap.
  - eapply Permutation_trans; eassumption.
Qed.

Lemma listing_perm (f g : filesystem) :
  Permutation f g -> Permutation (listing f) (listing g).
Proof.
  intros P. unfold listing, glob_entries.
  apply Permutation_app; apply filter_perm, Permutation_map, P.
Qed.

Lemma changes_lookup (rules : list rule) (f g : filesystem) (p : path) :
  lookup f p = lookup g p -> changes rules f p = changes rules g p.
Proof. unfold changes. intros ->. reflexivity. Qed.

Lemma lookup_sweep (rules : list rule) (files : list path) (f : filesystem)
      (q : path) :
  NoDup files ->
  lookup (fold_left (step_fs rules) files f) q
  = if in_dec path_eq_dec q files then entry_after rules q (lookup f q)
    else lookup f q.
Proof.
  intros ND. destruct (in_dec path_eq_dec q files) as [I|I].
  - apply lookup_sweep_in; assumption.
  - apply lookup_sweep_out; assumption.
Qed.

Lemma In_lookup_iff (f : filesystem) (p : path) (n : node) :
  NoDup (map fst f) -> (In (p, n) f <-> lookup f p = Some n).
Proof.
  intros ND. split; [apply In_lookup; exact ND | apply lookup_In].
Qed.

(** Swept in either order of traversal, the tree holds the same entries. *)
Lemma sweep_perm (rules : list rule) (f g : filesystem) :
  NoDup (map fst f) -> Permutation f g ->
  Permutation (fold_left (step_fs rules) (listing f) f)
              (fold_left (step_fs rules) (listing g) g)
  /\ forall p, lookup (fold_left (step_fs rules) (listing f) f) p
               = lookup (fold_left (step_fs rules) (listing g) g) p.
Proof.
  intros ND P.
  assert (NDg : NoDup (map fst g))
    by (apply (Permutation_NoDup (Permutation_map fst P)), ND).
  assert (LK : forall p, lookup (fold_left (step_fs rules) (listing f) f) p
                         = lookup (fold_left (step_fs rules) (listing g) g) p).
  { intros p.
    rewrite !lookup_sweep by (apply listing_NoDup; assumption).
    rewrite (lookup_perm f g ND P p).
    destruct (in_dec path_eq_dec p (listing f)) as [I|I];
      destruct (in_dec path_eq_dec p (listing g)) as [J|J]; try reflexivity.
    - exfalso. apply J. apply (Permutation_in _ (listing_perm f g P)), I.
    - exfalso. apply I.
      apply (Permutation_in _ (Permutation_sym (listing_perm f g P))), J. }
  split; [|exact LK].
  assert (K1 : NoDup (map fst (fold_left (step_fs rules) (listing f) f)))
    by (rewrite keys_sweep; exact ND).
  assert (K2 : NoDup (map fst (fold_left (step_fs rules) (listing g) g)))
    by (rewrite keys_sweep; exact NDg).
  apply NoDup_Permutation.
  - apply (NoDup_map_inv fst), K1.
  - apply (NoDup_map_inv fst), K2.
  - intros [p n]. rewrite !In_lookup_iff by assumption. rewrite LK. tauto.
Qed.

(** C9: what a call of [update_file] answers and leaves for a file depends
    on the entry of that file alone, and two runs of the loops of [main]
    over the same tree, met in whatever order of traversal and with
    whatever was printed before, update the same set of files and leave
    the same contents; over the same traversal the list and the tree are
    equal. *)
Theorem runs_are_determined (sc : script) (w1 w2 : world) :
  NoDup (map fst (fs w1)) -> Permutation (fs w1) (fs w2) ->
  (forall filepath,
      exists changed v1 v2,
        update_file_of sc filepath w1 = (inr changed, v1)
        /\ update_file_of sc filepath w2 = (inr changed, v2)
        /\ lookup (fs v1) filepath = lookup (fs v2) filepath)
  /\ exists u1 w1' u2 w2',
       update_tree_of sc w1 = (inr u1, w1')
       /\ update_tree_of sc w2 = (inr u2, w2')
       /\ Permutation u1 u2
       /\ Permutation (fs w1') (fs w2')
       /\ (forall p, lookup (fs w1') p = lookup (fs w2') p)
       /\ (fs w1 = fs w2 -> u1 = u2 /\ fs w1' = fs w2').
Proof.
  intros ND P.
  assert (ND2 : NoDup (map fst (fs w2)))
    by (apply (Permutation_NoDup (Permutation_map fst P)), ND).
  pose proof (lookup_perm (fs w1) (fs w2) ND P) as LK.
  split.
  - intros filepath. rewrite update_file_of_table.
    rewrite !(update_file_run (table sc) (table_scalar sc)).
    do 3 eexists. split; [reflexivity|]. split.
    + rewrite (changes_lookup (table sc) (fs w1) (fs w2) filepath (LK filepath)).
      reflexivity.
    + cbn [fs]. rewrite !lookup_step_same, LK. reflexivity.
  - rewrite update_tree_of_table.
    destruct (update_tree_run (table sc) (table_scalar sc) w1) as [e1 R1].
    destruct (update_tree_run (table sc) (table_scalar sc) w2) as [e2 R2].
    destruct (updated_listing (table sc) (fs w1) ND) as [F1 S1].
    destruct (updated_listing (table sc) (fs w2) ND2) as [F2 S2].
    rewrite R1, R2, F1, F2, S1, S2.
    do 4 eexists. split; [reflexivity|]. split; [reflexivity|].
    cbn [fs].
    destruct (sweep_perm (table sc) (fs w1) (fs w2) ND P) as [SP SL].
    split; [|split; [exact SP|split; [exact SL|]]].
    + rewrite (filter_ext_in (changes (table sc) (fs w1)) (changes (table sc) (fs w2))).
      * apply filter_perm, listing_perm, P.
      * intros p _. apply changes_lookup, LK.
    + intros E. rewrite E. split; reflexivity.
Qed.

Lemma runs_are_determined_witness :
  exists u1 w1' u2 w2',
    update_tree_of Sprint_2_3 demo_world = (inr u1, w1')
    /\ update_tree_of Sprint_2_3
         (World (rev demo_fs) [Print "an earlier line"]) = (inr u2, w2')
    /\ Permutation u1 u2
    /\ Permutation (fs w1') (fs w2')
    /\ (forall p, lookup (fs w1') p = lookup (fs w2') p)
    /\ (fs demo_world = rev demo_fs -> u1 = u2 /\ fs w1' = fs w2').
Proof.
  apply (runs_are_determined Sprint_2_3 demo_world
           (World (rev demo_fs) [Print "an earlier line"])).
  - repeat constructor; simpl; intuition discriminate.
  - apply Permutation_rev.
Defined.

Lemma decoding_is_lenient_witness :
  utf8_decode Strict
    (xe9 :: list_byte_of_string " import { Alert } from '@/components/ui/alert';")
  = inl UnicodeDecodeError
  /\ update_file_of Sprint_2_3 (in_src "latin1.ts") demo_world
     = (inr true,
        World (store demo_fs (in_src "latin1.ts")
                     (File true true
                           (list_byte_of_string
                              " import { Alert } from '@jade/ui/components';")))
              [Open (in_src "latin1.ts") ModeR; Open (in_src "latin1.ts") ModeW]).
Proof.
  split; [reflexivity|].
  destruct (decoding_is_lenient Sprint_2_3 demo_world (in_src "latin1.ts")
              (xe9 :: list_byte_of_string
                        " import { Alert } from '@/components/ui/alert';")
              eq_refl) as (_ & _ & _ & H).
  rewrite H. vm_compute. reflexivity.
Defined.

(** A run of [main] on the example tree: the file that cannot be written is
    reported, the files after it are still updated, and the unrelated file
    is left as it is. *)
Example main_on_demo_world :
  let (r, w) := Sprint23.main demo_world in
  r = inr tt
  /\ printed (trace w)
     = [ "Error processing apps/curated/marketplace-frontend/src/locked.ts: [Errno 13] Permission denied: 'apps/curated/marketplace-frontend/src/locked.ts'";
         "Updated 3 files:";
         "  - curated/marketplace-frontend/src/both.ts";
         "  - curated/marketplace-frontend/src/latin1.ts";
         "  - curated/marketplace-frontend/src/badge.tsx" ]
  /\ lookup (fs w) (in_src "locked.ts") = lookup demo_fs (in_src "locked.ts")
  /\ lookup (fs w) (in_src "other.ts") = lookup demo_fs (in_src "other.ts")
  /\ lookup (fs w) (in_src "latin1.ts")
     = Some (File true true
                  (list_byte_of_string " import { Alert } from '@jade/ui/components';")).
Proof. vm_compute. repeat split; reflexivity. Qed.

(** * Further properties *)

(** ** Round trip of the codec *)

Lemma to_N_byte_of (n : N) : (n < 256)%N -> Byte.to_N (byte_of n) = n.
Proof.
  intros L. unfold byte_of. destruct (Byte.of_N n) as [b|] eqn:E.
  - apply Byte.to_of_N. exact E.
  - apply Byte.of_N_None_iff in E. lia.
Qed.

Lemma split64 (c : N) :
  exists q r, (c = 64 * q + r /\ r < 64 /\ c / 64 = q /\ c mod 64 = r)%N.
Proof.
  exists (c / 64)%N, (c mod 64)%N. repeat split.
  - apply N.div_mod. discriminate.
  - apply N.mod_lt. discriminate.
Qed.

Ltac decide_tests :=
  repeat match goal with
    | |- context [(?a <? ?b)%N] =>
        first [ rewrite (proj2 (N.ltb_lt a b)) by lia
              | rewrite (proj2 (N.ltb_ge a b)) by lia ]
    | |- context [(?a <=? ?b)%N] =>
        first [ rewrite (proj2 (N.leb_le a b)) by lia
              | rewrite (proj2 (N.leb_gt a b)) by lia ]
    | |- context [(?a =? ?b)%N] =>
        first [ rewrite (proj2 (N.eqb_eq a b)) by lia
              | rewrite (proj2 (N.eqb_neq a b)) by lia ]
    end.

Lemma decode_encode_char (errors : error_policy) (c : char) (rest : list byte) :
  is_scalar c = true ->
  utf8_decode errors (encode_char c ++ rest) = emit c (utf8_decode errors rest).
Proof.
  intros S. unfold is_scalar in S. unfold encode_char.
  replace (c / 4096)%N with (c / 64 / 64)%N
    by (rewrite N.Div0.div_div; reflexivity).
  replace (c / 262144)%N with (c / 64 / 64 / 64)%N
    by (rewrite !N.Div0.div_div; reflexivity).
  destruct (split64 c) as (q1 & r1 & E1 & L1 & D1 & M1). rewrite D1, M1.
  destruct (split64 q1) as (q2 & r2 & E2 & L2 & D2 & M2). rewrite D2, M2.
  destruct (split64 q2) as (q3 & r3 & E3 & L3 & D3 & M3). rewrite D3, M3.
  clear D1 M1 D2 M2 D3 M3.
  destruct (c <? 128)%N eqn:A; [|destruct (c <? 2048)%N eqn:B;
                                 [|destruct (c <? 65536)%N eqn:C]].
  - apply N.ltb_lt in A.
    cbn [app utf8_decode]. rewrite !to_N_byte_of by lia.
    decide_tests. reflexivity.
  - apply N.ltb_ge in A. apply N.ltb_lt in B.
    cbn [app utf8_decode]. rewrite !to_N_byte_of by lia.
    unfold is_continuation. decide_tests. cbn [andb].
    f_equal. lia.
  - apply N.ltb_ge in A, B. apply N.ltb_lt in C.
    apply orb_true_iff in S as [S|S]; [apply N.ltb_lt in S|
      apply andb_true_iff in S as [S1 S2]; apply N.leb_le in S1; apply N.ltb_lt in S2].
    + cbn [app utf8_decode]. rewrite !to_N_byte_of by lia.
      unfold is_continuation, second_ok3.
      assert (q2 = 0 \/ 0 < q2 < 13 \/ q2 = 13)%N as [Q|[Q|Q]] by lia;
        decide_tests; cbn [andb]; f_equal; lia.
    + cbn [app utf8_decode]. rewrite !to_N_byte_of by lia.
      unfold is_continuation, second_ok3.
      decide_tests; cbn [andb]; f_equal; lia.
  - apply N.ltb_ge in A, B, C.
    apply orb_true_iff in S as [S|S]; [apply N.ltb_lt in S; lia|].
    apply andb_true_iff in S as [S1 S2]. apply N.leb_le in S1. apply N.ltb_lt in S2.
    cbn [app utf8_decode]. rewrite !to_N_byte_of by lia.
    unfold is_continuation, second_ok4.
    assert (q3 = 0 \/ 0 < q3 < 4 \/ q3 = 4)%N as [Q|[Q|Q]] by lia;
      decide_tests; cbn [andb]; f_equal; lia.
Qed.

Lemma encoded_cons (c : char) (s : str) :
  forallb is_scalar (c :: s) = true ->
  encoded (c :: s) = encode_char c ++ encoded s.
Proof.
  intros F. pose proof F as F'. simpl in F'.
  apply andb_true_iff in F' as [Fc Fs].
  unfold encoded at 1. simpl. rewrite Fc.
  rewrite (utf8_encode_scalar s Fs). reflexivity.
Qed.

Lemma decode_encoded (errors : error_policy) (s : str) :
  forallb is_scalar s = true -> utf8_decode errors (encoded s) = inr s.
Proof.
  intros F. induction s as [|c s IH]; [reflexivity|].
  rewrite (encoded_cons c s F).
  simpl in F. apply andb_true_iff in F as [Fc Fs].
  rewrite (decode_encode_char errors c (encoded s) Fc).
  rewrite (IH Fs). reflexivity.
Qed.

(** ** Line ends *)

Lemma translate_newlines_no_cr (s : str) : no_cr (translate_newlines s) = true.
Proof.
  remember (List.length s) as n eqn:En. revert s En.
  induction n as [n IH] using lt_wf_ind. intros s En.
  destruct s as [|c s]; [reflexivity|].
  cbn [translate_newlines].
  destruct (c =? 13)%N eqn:E.
  - unfold no_cr. cbn [forallb]. change (forallb _ ?x) with (no_cr x).
    cbn [N.eqb Pos.eqb negb andb].
    destruct s as [|d s]; [reflexivity|].
    destruct (d =? 10)%N.
    + apply (IH (List.length s)); [subst n; simpl; lia|reflexivity].
    + apply (IH (List.length (d :: s))); [subst n; simpl; lia|reflexivity].
  - unfold no_cr. cbn [forallb]. change (forallb _ ?x) with (no_cr x).
    rewrite E. cbn [negb andb].
    apply (IH (List.length s)); [subst n; simpl; lia|reflexivity].
Qed.

Lemma translate_newlines_fixed (s : str) :
  no_cr s = true -> translate_newlines s = s.
Proof.
  induction s as [|c s IH]; intros H; [reflexivity|].
  unfold no_cr in H. cbn [forallb] in H. apply andb_true_iff in H as [Hc H].
  apply negb_true_iff in Hc. cbn [translate_newlines]. rewrite Hc.
  f_equal. apply IH. exact H.
Qed.

Lemma sub_from_forallb (h : char -> bool) (p : pattern) (repl : str) :
  forallb h repl = true ->
  forall s k, forallb h s = true -> forallb h (sub_from p repl k s) = true.
Proof.
  intros R. induction s as [|c s IH]; intros k F.
  - simpl. destruct k; [|reflexivity]. destruct (matches p []); auto.
  - simpl in F. apply andb_true_iff in F as [Fc F].
    cbn [sub_from]. destruct k as [|k]; [|apply IH, F].
    destruct (matches p (c :: s)).
    + apply forallb_app_true; [exact R|].
      destruct (List.length p); [|apply IH, F].
      simpl. rewrite Fc. apply IH, F.
    + simpl. rewrite Fc. apply IH, F.
Qed.

Lemma apply_patterns_no_cr (rules : list rule) :
  cr_free_rules rules = true ->
  forall s, no_cr s = true -> no_cr (apply_patterns rules s) = true.
Proof.
  induction rules as [|[p r] rules IH]; intros R s F; [exact F|].
  unfold cr_free_rules in R. simpl in R. apply andb_true_iff in R as [R1 R2].
  rewrite apply_patterns_cons. apply IH; [exact R2|].
  apply sub_from_forallb; assumption.
Qed.

Lemma table_cr_free (sc : script) : cr_free_rules (table sc) = true.
Proof. destruct sc; vm_compute; reflexivity. Qed.

(** The text of a file that holds the encoded final text of a pass is that
    final text. *)
Lemma decoded_final (sc : script) (data : list byte) :
  decoded (encoded (apply_patterns (table sc) (decoded data)))
  = apply_patterns (table sc) (decoded data).
Proof.
  unfold decoded at 1.
  rewrite decode_encoded
    by (apply apply_patterns_scalar; [apply table_scalar | apply decoded_scalar]).
  apply translate_newlines_fixed.
  apply apply_patterns_no_cr; [apply table_cr_free|].
  unfold decoded. destruct (utf8_decode Ignore data); [reflexivity|].
  apply translate_newlines_no_cr.
Qed.

(** ** After a call *)

Lemma judge_rewritten (rules : list rule) (p : path) (e : option node) (n : node) :
  judge rules p e = Rewritten n ->
  exists data,
    e = Some (File true true data)
    /\ n = File true true (encoded (apply_patterns rules (decoded data)))
    /\ apply_patterns rules (decoded data) <> decoded data.
Proof.
  destruct e as [[[|] wr data|]|]; cbn [judge]; try discriminate.
  fold (judge rules p (Some (File true wr data))). rewrite judge_readable.
  destruct (str_eqb _ _) eqn:E; [discriminate|].
  destruct wr; [|discriminate]. intros [= <-].
  exists data. apply str_eqb_neq in E. auto.
Qed.

(** The entry a call leaves is one that a further call leaves alone. *)
Lemma entry_after_settled (sc : script) (p : path) (e : option node) :
  forall n, judge (table sc) p (entry_after (table sc) p e) <> Rewritten n.
Proof.
  intros n. unfold entry_after.
  destruct (judge (table sc) p e) as [|evs x| |m] eqn:J.
  - rewrite J. discriminate.
  - rewrite J. discriminate.
  - rewrite J. discriminate.
  - apply judge_rewritten in J as (data & -> & -> & D).
    rewrite judge_readable, decoded_final.
    rewrite (stable_idempotent (table sc) (table_stable sc)).
    rewrite str_eqb_refl. discriminate.
Qed.

Lemma step_settled (sc : script) (f : filesystem) (p : path) :
  changes (table sc) (step_fs (table sc) f p) p = false
  /\ step_fs (table sc) (step_fs (table sc) f p) p = step_fs (table sc) f p.
Proof.
  pose proof (entry_after_settled sc p (lookup f p)) as S.
  rewrite <- lookup_step_same in S.
  remember (step_fs (table sc) f p) as g eqn:G.
  unfold changes, step_fs.
  destruct (judge (table sc) p (lookup g p)) as [|? ?| |m] eqn:J;
    try (split; reflexivity).
  destruct (S m eq_refl).
Qed.

Lemma unchanged_step (rules : list rule) (f : filesystem) (p : path) :
  changes rules f p = false -> step_fs rules f p = f.
Proof.
  unfold changes, step_fs. destruct (judge rules p (lookup f p));
    [reflexivity|reflexivity|reflexivity|discriminate].
Qed.

Lemma visit_all_idle (rules : list rule) (files : list path) :
  forall acc f,
    (forall p, In p files -> changes rules f p = false) ->
    visit_all rules files (acc, f) = (acc, f).
Proof.
  induction files as [|p files IH]; intros acc f H; [reflexivity|].
  unfold visit_all in *. cbn [fold_left]. unfold visit at 2. cbn [fst snd].
  rewrite (H p (or_introl eq_refl)).
  rewrite (unchanged_step rules f p (H p (or_introl eq_refl))).
  apply IH. intros q Hq. apply H. right. exact Hq.
Qed.

Lemma entry_after_twice (sc : script) (p : path) (e : option node) :
  entry_after (table sc) p (entry_after (table sc) p e)
  = entry_after (table sc) p e.
Proof.
  pose proof (entry_after_settled sc p e) as S.
  unfold entry_after at 1.
  destruct (judge (table sc) p (entry_after (table sc) p e)) as [|? ?| |m];
    try reflexivity.
  destruct (S m eq_refl).
Qed.

(** After a sweep every file visited holds the entry one call leaves,
    however often its path was met. *)
Lemma lookup_swept (sc : script) (files : list path) (q : path) :
  In q files ->
  forall f, lookup (fold_left (step_fs (table sc)) files f) q
            = entry_after (table sc) q (lookup f q).
Proof.
  induction files as [|p files IH]; intros Hq f; [contradiction|].
  cbn [fold_left].
  destruct (in_dec path_eq_dec q files) as [I|I].
  - rewrite (IH I). destruct (path_eq_dec p q) as [->|D].
    + rewrite lookup_step_same. apply entry_after_twice.
    + rewrite lookup_step_other by exact D. reflexivity.
  - destruct Hq as [->|Hq]; [|contradiction].
    rewrite lookup_sweep_out by exact I. apply lookup_step_same.
Qed.

Lemma src_dir_not_listed (f : filesystem) : ~ In Script.src_dir (listing f).
Proof. intros H. apply listing_In in H as (_ & U & _). discriminate U. Qed.

Lemma listing_keys (f g : filesystem) :
  map fst f = map fst g -> listing f = listing g.
Proof.
  intros E. unfold listing.
  rewrite (glob_entries_keys Script.src_dir "*.ts" f g E).
  rewrite (glob_entries_keys Script.src_dir "*.tsx" f g E). reflexivity.
Qed.

(** A second pass of the two loops finds nothing to update. *)
Lemma visit_tree_twice (sc : script) (f : filesystem) :
  visit_tree (table sc) ([], snd (visit_tree (table sc) ([], f)))
  = ([], snd (visit_tree (table sc) ([], f))).
Proof.
  rewrite (visit_tree_listing (table sc) f), visit_all_snd.
  rewrite visit_tree_listing.
  rewrite (listing_keys _ f) by apply keys_sweep.
  apply visit_all_idle. intros p Hp. unfold changes.
  rewrite (lookup_swept sc (listing f) p Hp).
  pose proof (entry_after_settled sc p (lookup f p)) as S.
  destruct (judge (table sc) p (entry_after (table sc) p (lookup f p)))
    as [|? ?| |m]; try reflexivity.
  destruct (S m eq_refl).
Qed.

(** ** The output of [main] *)

Lemma relative_to_tl (p : path) (w : world) :
  is_under Script.src_dir p = true ->
  relative_to p (parent (parent (parent Script.src_dir))) w = (inr (tl p), w).
Proof.
  intros U. destruct p as [|a p]; [discriminate|].
  unfold Script.src_dir in U. cbn [is_under] in U.
  apply andb_true_iff in U as [E _].
  apply String.eqb_eq in E. subst a. reflexivity.
Qed.

Lemma report_lines (files : list path) :
  (forall p, In p files -> is_under Script.src_dir p = true) ->
  forall w,
    for_in files
      (fun filepath (_ : unit) =>
         rel <- relative_to filepath (parent (parent (parent Script.src_dir))) ;;
         print ("  - " ++ path_str rel)%string)
      tt w
    = (inr tt, World (fs w) (trace w ++ map summary_line files)).
Proof.
  induction files as [|p files IH]; intros U w.
  - destruct w as [f tr]. cbn. rewrite app_nil_r. reflexivity.
  - cbn [for_in]. unfold bind at 1. unfold bind at 1.
    rewrite (relative_to_tl p w (U p (or_introl eq_refl))).
    cbv beta iota. rewrite print_run. cbv beta iota.
    rewrite (IH (fun q H => U q (or_intror H))). cbn [fs trace map].
    rewrite <- app_assoc. reflexivity.
Qed.

(** [main] in a world where the root exists: the loops, then the heading
    with the count, then one line for each updated file. *)
Lemma main_trace (rules : list rule) (w : world) :
  scalar_rules rules = true ->
  lookup (fs w) Script.src_dir <> None ->
  exists evs,
    Script.update_tree rules w
    = (inr (fst (visit_tree rules ([], fs w))),
       World (snd (visit_tree rules ([], fs w))) (trace w ++ evs))
    /\ Script.main rules w
       = (inr tt,
          World (snd (visit_tree rules ([], fs w)))
                (trace w ++ evs
                 ++ heading (List.length (fst (visit_tree rules ([], fs w))))
                 :: map summary_line (fst (visit_tree rules ([], fs w))))).
Proof.
  intros Sc L.
  destruct (update_tree_run rules Sc w) as [evs E].
  exists evs. split; [exact E|].
  unfold Script.main. unfold bind at 1.
  unfold path_exists, bind at 1, get_fs, ret at 1.
  destruct (lookup (fs w) Script.src_dir) as [n|]; [|congruence]. cbn [negb].
  unfold bind at 1. rewrite E.
  unfold bind at 1. rewrite print_run. cbv beta iota. cbn [fs trace].
  rewrite report_lines by (intros p; apply (updated_under rules (fs w))).
  cbn [fs trace]. unfold heading. rewrite <- !app_assoc. reflexivity.
Qed.

(** ** What the pass leaves *)

(** X2: after the pass no pattern of the table matches anywhere in the
    text, for either script. *)
Theorem no_pattern_left (sc : script) (content : str) (p : pattern) :
  In p (map fst (table sc)) ->
  occurs p (apply_patterns (table sc) content) = false.
Proof.
  intros Hp. apply apply_patterns_clean; [|exact Hp].
  apply stable_spec, table_stable.
Qed.

Lemma no_pattern_left_witness :
  occurs (lits "from " ++ [quotes] ++ lits "@/components/ui/select" ++ [quotes])
         (apply_patterns (table Sprint_2_3)
            (text "import { Select } from '@/components/ui/select'"))
  = false.
Proof.
  apply (no_pattern_left Sprint_2_3
           (text "import { Select } from '@/components/ui/select'")).
  simpl. tauto.
Defined.

Lemma pattern_occurs_or_not (rules : list rule) (s : str) :
  (exists q, In q (map fst rules) /\ occurs q s = true)
  \/ (forall q, In q (map fst rules) -> occurs q s = false).
Proof.
  destruct (existsb (fun q => occurs q s) (map fst rules)) eqn:E.
  - left. apply existsb_exists in E. exact E.
  - right. intros q Hq.
    destruct (occurs q s) eqn:O; [|reflexivity].
    assert (X : existsb (fun q => occurs q s) (map fst rules) = true)
      by (apply existsb_exists; eauto).
    congruence.
Qed.

Lemma changes_iff_occurs (sc : script) (s : str) :
  apply_patterns (table sc) s <> s
  <-> exists q, In q (map fst (table sc)) /\ occurs q s = true.
Proof.
  split.
  - intros D. destruct (pattern_occurs_or_not (table sc) s) as [H|H]; [exact H|].
    exfalso. apply D. apply apply_patterns_fixed. intros p Hp. split.
    + destruct (table sc) as [|[p0 r0] rest] eqn:T; [contradiction|].
      rewrite <- T in Hp.
      apply (stable_spec (table sc) (table_stable sc) p r0 Hp).
      rewrite T. left. reflexivity.
    + apply H, Hp.
  - intros (q & Hq & O).
    apply (apply_patterns_changes (table sc) q s (table_stable sc) Hq O).
Qed.

(** X3: [update_file] answers [True] exactly for a file that can be read
    and written and in whose text some pattern of the table matches. *)
Theorem changed_iff_pattern_occurs (sc : script) (w : world) (filepath : path) :
  (exists w', update_file_of sc filepath w = (inr true, w'))
  <-> exists data q,
        lookup (fs w) filepath = Some (File true true data)
        /\ In q (map fst (table sc))
        /\ occurs q (decoded data) = true.
Proof.
  rewrite update_file_of_table.
  rewrite (update_file_run (table sc) (table_scalar sc) filepath w).
  unfold changes. split.
  - intros (w' & H).
    destruct (judge (table sc) filepath (lookup (fs w) filepath)) as [|? ?| |n] eqn:J;
      try discriminate.
    apply judge_rewritten in J as (data & L & _ & D).
    apply changes_iff_occurs in D as (q & Hq & O). eauto.
  - intros (data & q & L & Hq & O).
    rewrite L, judge_readable.
    assert (D : apply_patterns (table sc) (decoded data) <> decoded data)
      by (apply changes_iff_occurs; eauto).
    apply str_eqb_neq in D. rewrite D. eauto.
Qed.

(** X5: a second call of [update_file] for the same path, whatever the
    first one did, answers [False] and leaves the tree as the first call
    left it. *)
Theorem second_call_changes_nothing (sc : script) (w : world) (filepath : path)
        (changed : bool) (w' : world) :
  update_file_of sc filepath w = (inr changed, w') ->
  exists evs,
    update_file_of sc filepath w'
    = (inr false, World (fs w') (trace w' ++ evs)).
Proof.
  rewrite update_file_of_table.
  rewrite (update_file_run (table sc) (table_scalar sc) filepath w).
  intros H. inversion H as [[C W]]. clear H.
  rewrite (update_file_run (table sc) (table_scalar sc)). cbn [fs trace].
  destruct (step_settled sc (fs w) filepath) as [S1 S2].
  rewrite S1, S2. eauto.
Qed.

Lemma second_call_changes_nothing_witness :
  exists evs,
    update_file_of Sprint_2_3 (in_src "both.ts")
      (snd (update_file_of Sprint_2_3 (in_src "both.ts") demo_world))
    = (inr false,
       World (fs (snd (update_file_of Sprint_2_3 (in_src "both.ts") demo_world)))
             (trace (snd (update_file_of Sprint_2_3 (in_src "both.ts") demo_world))
              ++ evs)).
Proof.
  apply (second_call_changes_nothing Sprint_2_3 demo_world (in_src "both.ts") true).
  vm_compute. reflexivity.
Defined.

(** X6: a call of [update_file] keeps the paths of the tree and their
    order, leaves the entry of every other path as it is, and leaves at
    its own path an entry of the same kind with the same permissions. *)
Theorem update_file_frame (sc : script) (w : world) (filepath : path)
        (changed : bool) (w' : world) :
  update_file_of sc filepath w = (inr changed, w') ->
  map fst (fs w') = map fst (fs w)
  /\ (forall q, q <> filepath -> lookup (fs w') q = lookup (fs w) q)
  /\ match lookup (fs w) filepath with
     | Some (File readable writable _) =>
         exists data', lookup (fs w') filepath = Some (File readable writable data')
     | e => lookup (fs w') filepath = e
     end.
Proof.
  rewrite update_file_of_table.
  rewrite (update_file_run (table sc) (table_scalar sc) filepath w).
  intros H. inversion H as [[C W]]. clear H. cbn [fs].
  split; [apply keys_step|]. split.
  - intros q D. apply lookup_step_other. congruence.
  - rewrite lookup_step_same. unfold entry_after.
    destruct (judge (table sc) filepath (lookup (fs w) filepath)) as [|? ?| |n] eqn:J.
    + destruct (lookup (fs w) filepath) as [[rd wr data|]|]; eauto.
    + destruct (lookup (fs w) filepath) as [[rd wr data|]|]; eauto.
    + destruct (lookup (fs w) filepath) as [[rd wr data|]|]; eauto.
    + apply judge_rewritten in J as (data & -> & -> & _). eauto.
Qed.

Lemma update_file_frame_witness :
  map fst (fs (snd (update_file_of Sprint_2_3 (in_src "both.ts") demo_world)))
  = map fst (fs demo_world)
  /\ (forall q, q <> in_src "both.ts" ->
        lookup (fs (snd (update_file_of Sprint_2_3 (in_src "both.ts") demo_world))) q
        = lookup (fs demo_world) q)
  /\ exists data',
       lookup (fs (snd (update_file_of Sprint_2_3 (in_src "both.ts") demo_world)))
              (in_src "both.ts")
       = Some (File true true data').
Proof.
  apply (update_file_frame Sprint_2_3 demo_world (in_src "both.ts") true).
  vm_compute. reflexivity.
Defined.

(** ** After a run *)

(** X7: when [main] has run in a world where the root exists, a second
    run updates no file: its loops return the empty list, the tree stays
    as the first run left it, and the heading it prints counts 0. *)
Theorem second_run_updates_nothing (sc : script) (w w1 : world) :
  lookup (fs w) Script.src_dir <> None ->
  main_of sc w = (inr tt, w1) ->
  exists evs,
    update_tree_of sc w1 = (inr [], World (fs w1) (trace w1 ++ evs))
    /\ main_of sc w1
       = (inr tt, World (fs w1) (trace w1 ++ evs ++ [Print "Updated 0 files:"])).
Proof.
  rewrite main_of_table, update_tree_of_table. intros L H.
  destruct (main_trace (table sc) w (table_scalar sc) L) as (e0 & _ & M).
  rewrite M in H. inversion H as [W]. clear H M.
  set (f1 := snd (visit_tree (table sc) ([], fs w))).
  assert (L1 : lookup f1 Script.src_dir <> None).
  { unfold f1. rewrite visit_tree_listing, visit_all_snd.
    rewrite lookup_sweep_out by apply src_dir_not_listed. exact L. }
  destruct (main_trace (table sc) (World f1 (trace w ++ e0
              ++ heading (List.length (fst (visit_tree (table sc) ([], fs w))))
              :: map summary_line (fst (visit_tree (table sc) ([], fs w)))))
              (table_scalar sc) L1) as (e1 & U & M).
  cbn [fs trace] in U, M.
  unfold f1 in U, M. rewrite (visit_tree_twice sc (fs w)) in U, M.
  cbn [fst snd List.length map] in U, M.
  exists e1. split; [exact U | exact M].
Qed.

Lemma second_run_updates_nothing_witness :
  exists evs,
    update_tree_of Sprint_2_3 (snd (main_of Sprint_2_3 demo_world))
    = (inr [],
       World (fs (snd (main_of Sprint_2_3 demo_world)))
             (trace (snd (main_of Sprint_2_3 demo_world)) ++ evs))
    /\ main_of Sprint_2_3 (snd (main_of Sprint_2_3 demo_world))
       = (inr tt,
          World (fs (snd (main_of Sprint_2_3 demo_world)))
                (trace (snd (main_of Sprint_2_3 demo_world))
                 ++ evs ++ [Print "Updated 0 files:"])).
Proof.
  apply (second_run_updates_nothing Sprint_2_3 demo_world).
  - discriminate.
  - vm_compute. reflexivity.
Defined.

(** X8: [main] keeps the paths of the tree and their order, and the entry
    of every path that is not among the files it visits stays as it was. *)
Theorem main_frame (sc : script) (w w' : world) :
  main_of sc w = (inr tt, w') ->
  map fst (fs w') = map fst (fs w)
  /\ forall q, ~ In q (listing (fs w)) -> lookup (fs w') q = lookup (fs w) q.
Proof.
  rewrite main_of_table. intros H.
  destruct (main_run (table sc) (table_scalar sc) w) as [evs M].
  rewrite M in H. inversion H as [W]. clear H M. cbn [fs].
  destruct (lookup (fs w) Script.src_dir); [|auto].
  rewrite visit_tree_listing, visit_all_snd. split.
  - apply keys_sweep.
  - intros q Hq. apply lookup_sweep_out. exact Hq.
Qed.

Lemma main_frame_witness :
  map fst (fs (snd (main_of Sprint_2_3 demo_world))) = map fst (fs demo_world)
  /\ forall q, ~ In q (listing (fs demo_world)) ->
               lookup (fs (snd (main_of Sprint_2_3 demo_world))) q
               = lookup (fs demo_world) q.
Proof.
  apply (main_frame Sprint_2_3 demo_world). vm_compute. reflexivity.
Defined.

Lemma fnmatch_same (pat : list ascii) :
  plain pat = true -> fnmatch pat pat = true.
Proof.
  induction pat as [|c pat IH]; intros P; [reflexivity|].
  simpl in P. apply andb_true_iff in P as [Pc P].
  apply negb_true_iff in Pc. cbn [fnmatch]. rewrite Pc.
  rewrite Ascii.eqb_refl. apply IH. exact P.
Qed.

Lemma fnmatch_star_suffix (pat : list ascii) :
  plain pat = true ->
  forall pre, fnmatch ("*"%char :: pat) (pre ++ pat) = true.
Proof.
  intros P. induction pre as [|d pre IH].
  - cbn [fnmatch app]. rewrite Ascii.eqb_refl.
    destruct pat as [|c pat]; [reflexivity|].
    rewrite (fnmatch_same (c :: pat) P). reflexivity.
  - cbn [fnmatch] in IH. rewrite Ascii.eqb_refl in IH.
    change ((d :: pre) ++ pat) with (d :: (pre ++ pat)).
    cbn [fnmatch]. rewrite Ascii.eqb_refl. rewrite IH. apply orb_true_r.
Qed.

Lemma star_pattern_ends_with (suffix s : string) :
  plain (list_ascii_of_string suffix) = true ->
  fnmatch ("*"%char :: list_ascii_of_string suffix) (list_ascii_of_string s) = true
  <-> ends_with suffix s.
Proof.
  intros P. unfold ends_with. split.
  - apply fnmatch_star. exact P.
  - intros [pre ->]. apply fnmatch_star_suffix. exact P.
Qed.

(** X10: in a world where the root exists [main] prints, after what its
    loops print, the heading with the number of updated files and then one
    line for each of them, in the order of the list, with the path from
    below [apps]; no path makes [relative_to] raise. *)
Theorem main_summary (sc : script) (w : world) :
  lookup (fs w) Script.src_dir <> None ->
  exists updated_files f' evs,
    update_tree_of sc w = (inr updated_files, World f' (trace w ++ evs))
    /\ main_of sc w
       = (inr tt,
          World f' (trace w ++ evs
                    ++ heading (List.length updated_files)
                    :: map summary_line updated_files))
    /\ forall p, In p updated_files ->
         exists rest, p = "apps"%string :: rest
                      /\ summary_line p = Print ("  - " ++ path_str rest)%string.
Proof.
  rewrite main_of_table, update_tree_of_table. intros L.
  destruct (main_trace (table sc) w (table_scalar sc) L) as (evs & U & M).
  do 3 eexists. split; [exact U|]. split; [exact M|].
  intros p Hp. apply (updated_under (table sc)) in Hp.
  destruct p as [|a p]; [discriminate|].
  unfold Script.src_dir in Hp. cbn [is_under] in Hp.
  apply andb_true_iff in Hp as [E _]. apply String.eqb_eq in E. subst a.
  exists p. split; reflexivity.
Qed.

Lemma main_summary_witness :
  exists updated_files f' evs,
    update_tree_of Sprint_2_3 demo_world
    = (inr updated_files, World f' (trace demo_world ++ evs))
    /\ main_of Sprint_2_3 demo_world
       = (inr tt,
          World f' (trace demo_world ++ evs
                    ++ heading (List.length updated_files)
                    :: map summary_line updated_files))
    /\ forall p, In p updated_files ->
         exists rest, p = "apps"%string :: rest
                      /\ summary_line p = Print ("  - " ++ path_str rest)%string.
Proof. apply (main_summary Sprint_2_3 demo_world). discriminate. Defined.

Lemma encoded_final_differs (sc : script) (data : list byte) :
  apply_patterns (table sc) (decoded data) <> decoded data ->
  encoded (apply_patterns (table sc) (decoded data)) <> data.
Proof.
  intros D E. apply D. rewrite <- E at 2. symmetry. apply decoded_final.
Qed.

(** X11: in a tree of distinct paths, the files in the list of updated
    files are exactly the paths whose entry the loops of [main] have
    changed. *)
Theorem updated_iff_entry_changed (sc : script) (w : world)
        (updated_files : list path) (w' : world) (p : path) :
  NoDup (map fst (fs w)) ->
  update_tree_of sc w = (inr updated_files, w') ->
  (In p updated_files <-> lookup (fs w') p <> lookup (fs w) p).
Proof.
  rewrite update_tree_of_table. intros ND H.
  destruct (update_tree_run (table sc) (table_scalar sc) w) as [evs R].
  rewrite R in H. inversion H as [[U W]]. clear H R. cbn [fs].
  destruct (updated_listing (table sc) (fs w) ND) as [F S]. rewrite F, S.
  rewrite filter_In.
  rewrite lookup_sweep by (apply listing_NoDup; exact ND).
  unfold changes, entry_after.
  destruct (in_dec path_eq_dec p (listing (fs w))) as [I|I].
  - destruct (judge (table sc) p (lookup (fs w) p)) as [|? ?| |n] eqn:J.
    + split; [intros [_ X]; discriminate | intros X; congruence].
    + split; [intros [_ X]; discriminate | intros X; congruence].
    + split; [intros [_ X]; discriminate | intros X; congruence].
    + apply judge_rewritten in J as (data & E & -> & D). rewrite E.
      split; [|auto]. intros _ [= X].
      apply (encoded_final_differs sc data D X).
  - split; [intros [X _]; contradiction | intros X; congruence].
Qed.

Lemma updated_iff_entry_changed_witness :
  In (in_src "latin1.ts") (match fst (update_tree_of Sprint_2_3 demo_world) with
                           | inr l => l
                           | inl _ => []
                           end)
  <-> lookup (fs (snd (update_tree_of Sprint_2_3 demo_world))) (in_src "latin1.ts")
      <> lookup (fs demo_world) (in_src "latin1.ts").
Proof.
  apply (updated_iff_entry_changed Sprint_2_3 demo_world).
  - repeat constructor; simpl; intuition discriminate.
  - vm_compute. reflexivity.
Defined.

(** ** Every listed import *)

Lemma legacy_import_exact (sc : script) (component : string) (q1 q2 : char) :
  In component (components sc) -> component <> "dialog"%string ->
  is_quote q1 = true -> is_quote q2 = true ->
  carried (table sc) (legacy_import component q1 q2) consolidated_import = true
  /\ existsb (fun r => exact (fst r) (legacy_import component q1 q2)) (table sc)
     = true.
Proof.
  intros C D Q1 Q2. apply is_quote_cases in Q1, Q2.
  destruct sc; simpl in C; destruct Q1; destruct Q2; subst q1 q2;
    repeat (destruct C as [<-|C];
            [first [ split; vm_compute; reflexivity
                   | exfalso; apply D; reflexivity ] |]);
    contradiction.
Qed.

(** X12: for either script and every component of its table but dialog, an
    import of the legacy path is replaced wherever it stands, whichever of
    the two quote characters opens and closes it (they need not be the
    same); the replacement always carries apostrophes, the text around it
    is rewritten on its own, and the content always counts as changed. *)
Theorem listed_imports_redirected (sc : script) (component : string)
        (q1 q2 : char) (u t : str) :
  In component (components sc) -> component <> "dialog"%string ->
  is_quote q1 = true -> is_quote q2 = true ->
  apply_patterns (table sc) (u ++ legacy_import component q1 q2 ++ t)
  = apply_patterns (table sc) u ++ text "from '@jade/ui/components'"
    ++ apply_patterns (table sc) t
  /\ apply_patterns (table sc) (u ++ legacy_import component q1 q2 ++ t)
     <> u ++ legacy_import component q1 q2 ++ t.
Proof.
  intros C D Q1 Q2.
  destruct (legacy_import_exact sc component q1 q2 C D Q1 Q2) as [K X].
  split.
  - apply (carried_sound (table sc) _ _ K).
  - apply apply_patterns_changes_exact; [apply table_stable | exact X].
Qed.

Lemma listed_imports_redirected_witness :
  apply_patterns (table Sprint_2_4)
    (text "import { Tabs } " ++ legacy_import "tabs" dquote apostrophe ++ text ";")
  = apply_patterns (table Sprint_2_4) (text "import { Tabs } ")
    ++ text "from '@jade/ui/components'"
    ++ apply_patterns (table Sprint_2_4) (text ";")
  /\ apply_patterns (table Sprint_2_4)
       (text "import { Tabs } " ++ legacy_import "tabs" dquote apostrophe ++ text ";")
     <> text "import { Tabs } " ++ legacy_import "tabs" dquote apostrophe ++ text ";".
Proof.
  apply (listed_imports_redirected Sprint_2_4 "tabs" dquote apostrophe
           (text "import { Tabs } ") (text ";")).
  - simpl. tauto.
  - discriminate.
  - reflexivity.
  - reflexivity.
Defined.

(** ** Lengths *)

Lemma str_eq_dec (a b : str) : a = b \/ a <> b.
Proof.
  destruct (str_eqb a b) eqn:E;
    [left; apply str_eqb_eq | right; apply str_eqb_neq]; exact E.
Qed.

Lemma re_sub_shrinks (p : pattern) (r : str) :
  nonempty p = true -> List.length r < List.length p ->
  forall s,
    List.length (re_sub p r s) <= List.length s
    /\ (re_sub p r s <> s -> List.length (re_sub p r s) < List.length s).
Proof.
  intros N L s. pattern s.
  apply (re_sub_ind p N); [|intros s' M IH|intros c s' M IH].
  - rewrite (re_sub_nil p r N). split; [lia | congruence].
  - rewrite (re_sub_match p r N s' M).
    pose proof (matches_length _ _ M) as Lm.
    destruct IH as [IH _]. rewrite length_skipn in IH.
    rewrite length_app. split; [|intros _]; lia.
  - rewrite (re_sub_copy p r c s' M). destruct IH as [IH1 IH2].
    cbn [List.length]. split; [lia|].
    intros D. assert (D' : re_sub p r s' <> s').
    { intros E. apply D. rewrite E. reflexivity. }
    apply IH2 in D'. lia.
Qed.

Lemma apply_patterns_shrinks (rules : list rule) :
  shrinking rules = true ->
  (forall p, In p (map fst rules) -> nonempty p = true) ->
  forall s,
    List.length (apply_patterns rules s) <= List.length s
    /\ (apply_patterns rules s <> s ->
        List.length (apply_patterns rules s) < List.length s).
Proof.
  induction rules as [|[p r] rules IH]; intros Sh N s.
  - split; [reflexivity | intros D; exfalso; apply D; reflexivity].
  - unfold shrinking in Sh. cbn [forallb fst snd] in Sh.
    apply andb_true_iff in Sh as [L Sh]. apply Nat.ltb_lt in L.
    rewrite apply_patterns_cons.
    destruct (re_sub_shrinks p r (N p (or_introl eq_refl)) L s) as [A1 A2].
    destruct (IH Sh (fun q H => N q (or_intror H)) (re_sub p r s)) as [B1 B2].
    split; [lia|]. intros D.
    destruct (str_eq_dec (re_sub p r s) s) as [E|E].
    + rewrite E in *. apply B2 in D. lia.
    + apply A2 in E. lia.
Qed.

(** X13: the pass never lengthens a text, and a text it changes comes out
    strictly shorter: every replacement is shorter than what its pattern
    matches. *)
Theorem rewrite_shrinks (sc : script) (content : str) :
  List.length (apply_patterns (table sc) content) <= List.length content
  /\ (apply_patterns (table sc) content <> content <->
      List.length (apply_patterns (table sc) content) < List.length content).
Proof.
  destruct (apply_patterns_shrinks (table sc)) with (s := content) as [A B].
  - destruct sc; vm_compute; reflexivity.
  - intros p Hp.
    destruct (table sc) as [|[p0 r0] rest] eqn:T; [contradiction|].
    rewrite <- T in Hp.
    apply (stable_spec (table sc) (table_stable sc) p r0 Hp).
    rewrite T. left. reflexivity.
  - split; [exact A|]. split; [exact B|].
    intros L E. rewrite E in L. lia.
Qed.

(** ** The order of the rules *)

Lemma meets_sound (a b : atom) (c : char) :
  accepts a c = true -> accepts b c = true -> meets a b = true.
Proof.
  destruct a as [x|cs]; destruct b as [y|ds]; simpl; intros A B.
  - apply N.eqb_eq in A, B. subst. apply N.eqb_refl.
  - apply N.eqb_eq in A. subst. exact B.
  - apply N.eqb_eq in B. subst. exact A.
  - apply existsb_exists in A as (x & Hx & E). apply N.eqb_eq in E. subst x.
    apply existsb_exists. exists c. split; [exact Hx | exact B].
Qed.

Lemma overlap_of_match (p : pattern) :
  forall q m,
    matches q m = true -> List.length q = List.length m ->
    overlap p m = true -> overlap_pattern p q = true.
Proof.
  induction p as [|a p IH]; intros q m M L O; [reflexivity|].
  destruct q as [|b q]; [reflexivity|].
  destruct m as [|c m]; [discriminate|].
  simpl in M, L, O |- *.
  apply andb_true_iff in M as [M1 M2]. apply andb_true_iff in O as [O1 O2].
  rewrite (meets_sound a b c O1 M1). simpl.
  apply (IH q m); [exact M2 | lia | exact O2].
Qed.

Lemma starts_inside_of_match (p : pattern) :
  forall q m,
    matches q m = true -> List.length q = List.length m ->
    starts_inside p m = true -> starts_inside_pattern p q = true.
Proof.
  induction q as [|b q IH]; intros m M L S.
  - destruct m; [discriminate S | discriminate L].
  - destruct m as [|c m]; [discriminate|].
    cbn [starts_inside] in S. cbn [starts_inside_pattern].
    apply orb_true_iff in S as [S|S]; apply orb_true_iff.
    + left. apply (overlap_of_match p (b :: q) (c :: m)); assumption.
    + right. simpl in M, L. apply andb_true_iff in M as [_ M].
      apply (IH m); [exact M | lia | exact S].
Qed.

Lemma runs_into_of_match (q : pattern) (m : str) :
  matches q m = true -> List.length q = List.length m ->
  forall p, runs_into p m = true -> runs_into_pattern p q = true.
Proof.
  intros M L. induction p as [|a p IH]; intros R; [discriminate|].
  cbn [runs_into] in R. cbn [runs_into_pattern].
  apply orb_true_iff in R as [R|R]; apply orb_true_iff.
  - left. destruct p as [|b p]; [discriminate|].
    apply (overlap_of_match (b :: p) q m); assumption.
  - right. apply IH. exact R.
Qed.

Lemma clear_of_match (p q : pattern) (m : str) :
  clear_pattern p q = true ->
  matches q m = true -> List.length q = List.length m ->
  clear p m = true.
Proof.
  unfold clear_pattern, clear. intros C M L.
  apply andb_true_iff in C as [C1 C2]. apply negb_true_iff in C1, C2.
  apply andb_true_iff. split; apply negb_true_iff.
  - destruct (starts_inside p m) eqn:S; [|reflexivity].
    apply (starts_inside_of_match p q m M L) in S. congruence.
  - destruct (runs_into p m) eqn:R; [|reflexivity].
    apply (runs_into_of_match q m M L p) in R. congruence.
Qed.

Lemma matches_firstn (p : pattern) :
  forall s, matches p s = true ->
    matches p (firstn (List.length p) s) = true
    /\ List.length p = List.length (firstn (List.length p) s).
Proof.
  induction p as [|a p IH]; intros s M; [split; reflexivity|].
  destruct s as [|c s]; [discriminate|].
  simpl in M. apply andb_true_iff in M as [M1 M2].
  destruct (IH s M2) as [I1 I2].
  cbn [List.length firstn matches]. rewrite M1, I1. split; [reflexivity|].
  cbn [List.length]. congruence.
Qed.

(** Where the first pattern matches, both orders of two independent
    substitutions put its replacement and go on behind the match. *)
Lemma commute_at_match (p1 p2 : pattern) (r1 r2 : str) (s : str) :
  nonempty p1 = true -> nonempty p2 = true ->
  clear p2 r1 = true -> clear_pattern p2 p1 = true ->
  matches p1 s = true ->
  re_sub p2 r2 (re_sub p1 r1 s)
  = r1 ++ re_sub p2 r2 (re_sub p1 r1 (skipn (List.length p1) s))
  /\ re_sub p1 r1 (re_sub p2 r2 s)
     = r1 ++ re_sub p1 r1 (re_sub p2 r2 (skipn (List.length p1) s)).
Proof.
  intros N1 N2 C CP M. split.
  - rewrite (re_sub_match p1 r1 N1 s M).
    pose proof (re_sub_split p2 r2 N2 r1 C []
                  (re_sub p1 r1 (skipn (List.length p1) s))) as H.
    cbn [app] in H. rewrite H. rewrite (re_sub_nil p2 r2 N2). reflexivity.
  - destruct (matches_firstn p1 s M) as [Mf Lf].
    pose proof (clear_of_match p2 p1 _ CP Mf Lf) as Cm.
    rewrite <- (firstn_skipn (List.length p1) s) at 1.
    pose proof (re_sub_split p2 r2 N2 _ Cm [] (skipn (List.length p1) s)) as H.
    cbn [app] in H. rewrite H. rewrite (re_sub_nil p2 r2 N2). cbn [app].
    rewrite (re_sub_match p1 r1 N1).
    + rewrite skipn_app. rewrite skipn_all2 by lia.
      replace (List.length p1 - List.length (firstn (List.length p1) s))
        with 0 by lia.
      reflexivity.
    + rewrite matches_app by lia. exact Mf.
Qed.

Lemma re_sub_commute (a b : rule) :
  independent a b = true ->
  forall s,
    re_sub (fst b) (snd b) (re_sub (fst a) (snd a) s)
    = re_sub (fst a) (snd a) (re_sub (fst b) (snd b) s).
Proof.
  destruct a as [p1 r1], b as [p2 r2]. unfold independent. cbn [fst snd].
  intros I.
  apply andb_true_iff in I as [I P21]. apply andb_true_iff in I as [I P12].
  apply andb_true_iff in I as [I C21]. apply andb_true_iff in I as [I C12].
  apply andb_true_iff in I as [N1 N2].
  intros s. remember (List.length s) as n eqn:En. revert s En.
  induction n as [n IH] using lt_wf_ind. intros s En.
  destruct s as [|c s].
  - rewrite (re_sub_nil p1 r1 N1), (re_sub_nil p2 r2 N2), (re_sub_nil p1 r1 N1).
    reflexivity.
  - assert (SK : forall p, nonempty p = true ->
                   List.length (skipn (List.length p) (c :: s)) < n).
    { intros p Np. rewrite length_skipn. subst n.
      destruct p; [discriminate|]. simpl. lia. }
    destruct (matches p1 (c :: s)) eqn:M1.
    + destruct (commute_at_match p1 p2 r1 r2 (c :: s) N1 N2 C21 P21 M1) as [A B].
      rewrite A, B. f_equal. apply (IH _ (SK p1 N1) _ eq_refl).
    + destruct (matches p2 (c :: s)) eqn:M2.
      * destruct (commute_at_match p2 p1 r2 r1 (c :: s) N2 N1 C12 P12 M2) as [A B].
        rewrite A, B. f_equal. apply (IH _ (SK p2 N2) _ eq_refl).
      * rewrite (re_sub_copy p1 r1 c s M1), (re_sub_copy p2 r2 c s M2).
        rewrite !re_sub_copy.
        -- f_equal. apply (IH (List.length s)); [subst n; simpl; lia|reflexivity].
        -- destruct (matches p1 (c :: re_sub p2 r2 s)) eqn:E; [|reflexivity].
           apply (matches_after_sub p2 p1 r2 N2 C12 s [c]) in E; [|discriminate].
           simpl in E. congruence.
        -- destruct (matches p2 (c :: re_sub p1 r1 s)) eqn:E; [|reflexivity].
           apply (matches_after_sub p1 p2 r1 N1 C21 s [c]) in E; [|discriminate].
           simpl in E. congruence.
Qed.

Lemma independent_sym (a b : rule) : independent a b = independent b a.
Proof.
  unfold independent.
  destruct (nonempty (fst a)), (nonempty (fst b)),
    (clear (fst a) (snd b)), (clear (fst b) (snd a)),
    (clear_pattern (fst a) (fst b)), (clear_pattern (fst b) (fst a));
    reflexivity.
Qed.

Lemma pairwise_independent_spec (rules : list rule) :
  pairwise_independent rules = true ->
  forall a b, In a rules -> In b rules -> a = b \/ independent a b = true.
Proof.
  induction rules as [|x rules IH]; intros P a b Ha Hb; [contradiction|].
  cbn [pairwise_independent] in P. apply andb_true_iff in P as [P1 P2].
  rewrite forallb_forall in P1.
  destruct Ha as [<-|Ha]; destruct Hb as [<-|Hb].
  - left. reflexivity.
  - right. apply P1, Hb.
  - right. rewrite independent_sym. apply P1, Ha.
  - apply IH; assumption.
Qed.

Lemma apply_patterns_permuted (rules rules' : list rule) :
  Permutation rules rules' ->
  (forall a b, In a rules -> In b rules -> a = b \/ independent a b = true) ->
  forall s, apply_patterns rules' s = apply_patterns rules s.
Proof.
  induction 1 as [|x l l' P IH|x y l|l l' l'' P1 IH1 P2 IH2]; intros I s.
  - reflexivity.
  - destruct x as [p r]. rewrite !apply_patterns_cons. apply IH.
    intros a b Ha Hb. apply I; right; assumption.
  - destruct x as [p1 r1], y as [p2 r2]. rewrite !apply_patterns_cons.
    f_equal.
    destruct (I (p1, r1) (p2, r2)) as [E|E];
      [right; left; reflexivity | left; reflexivity | |].
    + inversion E; subst. reflexivity.
    + apply (re_sub_commute (p1, r1) (p2, r2) E).
  - rewrite IH2, IH1; [reflexivity|exact I|].
    intros a b Ha Hb.
    apply I; apply (Permutation_in _ (Permutation_sym P1)); assumption.
Qed.

(** X14: the result of the pass does not depend on the order of the rules
    in the table: with the rules of either script in any other order the
    loop returns the same text. *)
Theorem rule_order_immaterial (sc : script) (rules : list rule) (content : str) :
  Permutation (table sc) rules ->
  apply_patterns rules content = apply_patterns (table sc) content.
Proof.
  intros P. apply apply_patterns_permuted; [exact P|].
  apply pairwise_independent_spec. destruct sc; vm_compute; reflexivity.
Qed.

Lemma rule_order_immaterial_witness :
  apply_patterns (rev (table Sprint_2_4))
    (text "import { Tabs } from '@/components/ui/tabs'; import { Dialog } from '@/components/ui/dialog'")
  = apply_patterns (table Sprint_2_4)
      (text "import { Tabs } from '@/components/ui/tabs'; import { Dialog } from '@/components/ui/dialog'").
Proof.
  apply (rule_order_immaterial Sprint_2_4 (rev (table Sprint_2_4))).
  apply Permutation_rev.
Defined.

(** ** The two scripts together *)

Lemma apply_patterns_app (a b : list rule) (s : str) :
  apply_patterns (a ++ b) s = apply_patterns b (apply_patterns a s).
Proof. unfold apply_patterns. apply fold_left_app. Qed.

Lemma both_tables_independent :
  pairwise_independent (Sprint23.patterns ++ Sprint24.patterns) = true.
Proof. vm_compute. reflexivity. Qed.

Lemma both_tables_stable :
  stable (Sprint23.patterns ++ Sprint24.patterns) = true.
Proof. vm_compute. reflexivity. Qed.

Lemma tables_commute (sc1 sc2 : script) (s : str) :
  apply_patterns (table sc2) (apply_patterns (table sc1) s)
  = apply_patterns (table sc1) (apply_patterns (table sc2) s).
Proof.
  destruct sc1, sc2; try reflexivity; cbn [table];
    rewrite <- !apply_patterns_app.
  - symmetry. apply apply_patterns_permuted; [apply Permutation_app_comm|].
    apply pairwise_independent_spec, both_tables_independent.
  - apply apply_patterns_permuted; [apply Permutation_app_comm|].
    apply pairwise_independent_spec, both_tables_independent.
Qed.

(** X15: the passes of the two scripts commute on every text, and after
    both no pattern of either table matches, so that a further pass of
    either script returns the text as it is. *)
Theorem scripts_commute (content : str) :
  apply_patterns Sprint24.patterns (apply_patterns Sprint23.patterns content)
  = apply_patterns Sprint23.patterns (apply_patterns Sprint24.patterns content)
  /\ (forall p,
        In p (map fst (Sprint23.patterns ++ Sprint24.patterns)) ->
        occurs p (apply_patterns Sprint24.patterns
                    (apply_patterns Sprint23.patterns content)) = false)
  /\ (forall sc,
        apply_patterns (table sc)
          (apply_patterns Sprint24.patterns
             (apply_patterns Sprint23.patterns content))
        = apply_patterns Sprint24.patterns
            (apply_patterns Sprint23.patterns content)).
Proof.
  split; [apply (tables_commute Sprint_2_3 Sprint_2_4)|].
  assert (C : forall p,
             In p (map fst (Sprint23.patterns ++ Sprint24.patterns)) ->
             occurs p (apply_patterns Sprint24.patterns
                         (apply_patterns Sprint23.patterns content)) = false).
  { intros p Hp. rewrite <- apply_patterns_app.
    apply apply_patterns_clean; [|exact Hp].
    apply stable_spec, both_tables_stable. }
  split; [exact C|].
  intros sc. apply apply_patterns_fixed. intros p Hp. split.
  - destruct (table sc) as [|[p0 r0] rest] eqn:T; [contradiction|].
    rewrite <- T in Hp.
    apply (stable_spec (table sc) (table_stable sc) p r0 Hp).
    rewrite T. left. reflexivity.
  - apply C. rewrite map_app, in_app_iff. destruct sc; auto.
Qed.

Lemma length_changed (sc : script) (s : str) :
  apply_patterns (table sc) s <> s ->
  List.length (apply_patterns (table sc) s) < List.length s.
Proof.
  destruct (apply_patterns_shrinks (table sc)) with (s := s) as [_ B].
  - destruct sc; vm_compute; reflexivity.
  - intros p Hp.
    destruct (table sc) as [|[p0 r0] rest] eqn:T; [contradiction|].
    rewrite <- T in Hp.
    apply (stable_spec (table sc) (table_stable sc) p r0 Hp).
    rewrite T. left. reflexivity.
  - exact B.
Qed.

Lemma length_not_longer (sc : script) (s : str) :
  List.length (apply_patterns (table sc) s) <= List.length s.
Proof.
  destruct (str_eq_dec (apply_patterns (table sc) s) s) as [E|E].
  - rewrite E. reflexivity.
  - apply length_changed in E. lia.
Qed.

(** The entry left by a call of one script and then a call of the other:
    the bytes as they were when neither pass changes the text, and the
    encoded result of both passes otherwise. *)
Lemma entry_after_both (sc1 sc2 : script) (p : path) (data : list byte) :
  entry_after (table sc2) p
    (entry_after (table sc1) p (Some (File true true data)))
  = if str_eqb (apply_patterns (table sc2)
                  (apply_patterns (table sc1) (decoded data)))
               (decoded data)
    then Some (File true true data)
    else Some (File true true
                    (encoded (apply_patterns (table sc2)
                                (apply_patterns (table sc1) (decoded data))))).
Proof.
  unfold entry_after at 2. rewrite judge_readable.
  destruct (str_eqb (apply_patterns (table sc1) (decoded data)) (decoded data))
    eqn:E1.
  - apply str_eqb_eq in E1. rewrite E1.
    unfold entry_after. rewrite judge_readable.
    destruct (str_eqb _ _); reflexivity.
  - apply str_eqb_neq in E1.
    unfold entry_after. rewrite judge_readable, decoded_final.
    pose proof (length_changed sc1 _ E1) as L1.
    pose proof (length_not_longer sc2 (apply_patterns (table sc1) (decoded data)))
      as L2.
    assert (N : apply_patterns (table sc2)
                  (apply_patterns (table sc1) (decoded data)) <> decoded data).
    { intros E. rewrite E in L2. lia. }
    apply str_eqb_neq in N. rewrite N.
    destruct (str_eqb (apply_patterns (table sc2)
                         (apply_patterns (table sc1) (decoded data)))
                      (apply_patterns (table sc1) (decoded data))) eqn:E2;
      [|reflexivity].
    apply str_eqb_eq in E2. rewrite E2. reflexivity.
Qed.

Lemma entry_after_commute (sc1 sc2 : script) (p : path) (e : option node) :
  entry_after (table sc2) p (entry_after (table sc1) p e)
  = entry_after (table sc1) p (entry_after (table sc2) p e).
Proof.
  destruct e as [[[|] [|] data|]|]; try reflexivity.
  - rewrite !entry_after_both. rewrite (tables_commute sc1 sc2). reflexivity.
  - unfold entry_after. rewrite !judge_readable.
    destruct (str_eqb (apply_patterns (table sc1) (decoded data)) (decoded data)),
      (str_eqb (apply_patterns (table sc2) (decoded data)) (decoded data));
      rewrite ?judge_readable;
      repeat match goal with
        | |- context [str_eqb ?a ?b] => destruct (str_eqb a b)
        end; reflexivity.
Qed.

Lemma same_entries_same_tree (f g : filesystem) :
  map fst f = map fst g -> NoDup (map fst f) ->
  (forall p, lookup f p = lookup g p) -> f = g.
Proof.
  revert g. induction f as [|[k n] f IH]; intros [|[k' n'] g] K ND L;
    try discriminate; [reflexivity|].
  simpl in K. injection K as -> K.
  inversion ND as [|? ? Hk ND']; subst.
  pose proof (L k') as Lk. simpl in Lk. rewrite path_eqb_refl in Lk.
  injection Lk as ->. f_equal.
  apply IH; [exact K | exact ND' |].
  intros p. specialize (L p). simpl in L.
  destruct (path_eqb k' p) eqn:E; [|exact L].
  apply path_eqb_eq in E. subst p.
  destruct (lookup f k') eqn:Lf.
  - apply lookup_In in Lf. apply (in_map fst) in Lf. contradiction.
  - destruct (lookup g k') eqn:Lg; [|reflexivity].
    apply lookup_In in Lg. apply (in_map fst) in Lg. rewrite <- K in Lg.
    contradiction.
Qed.

Lemma tree_after_main (sc : script) (w w' : world) :
  main_of sc w = (inr tt, w') ->
  fs w' = match lookup (fs w) Script.src_dir with
          | Some _ => fold_left (step_fs (table sc)) (listing (fs w)) (fs w)
          | None => fs w
          end.
Proof.
  rewrite main_of_table. intros H.
  destruct (main_run (table sc) (table_scalar sc) w) as [evs M].
  rewrite M in H. inversion H as [W]. cbn [fs].
  destruct (lookup (fs w) Script.src_dir); [|reflexivity].
  rewrite visit_tree_listing, visit_all_snd. reflexivity.
Qed.

(** X16: run one after the other on a tree of distinct paths, the two
    scripts leave the same tree whichever runs first. *)
Theorem scripts_commute_on_tree (sc1 sc2 : script) (w w1 w2 v1 v2 : world) :
  NoDup (map fst (fs w)) ->
  main_of sc1 w = (inr tt, w1) -> main_of sc2 w1 = (inr tt, w2) ->
  main_of sc2 w = (inr tt, v1) -> main_of sc1 v1 = (inr tt, v2) ->
  fs w2 = fs v2.
Proof.
  intros ND A1 A2 B1 B2.
  apply tree_after_main in A1, A2, B1, B2.
  rewrite A2, A1, B2, B1. clear A1 A2 B1 B2.
  destruct (lookup (fs w) Script.src_dir) as [n|] eqn:L.
  - rewrite !lookup_sweep_out by apply src_dir_not_listed. rewrite L.
    rewrite !(listing_keys (fold_left _ _ _) (fs w)) by apply keys_sweep.
    apply same_entries_same_tree.
    + rewrite !keys_sweep. reflexivity.
    + rewrite !keys_sweep. exact ND.
    + intros p. destruct (in_dec path_eq_dec p (listing (fs w))) as [I|I].
      * rewrite !(lookup_swept _ _ p I). apply entry_after_commute.
      * rewrite !lookup_sweep_out by exact I. reflexivity.
  - rewrite L. reflexivity.
Qed.

Lemma scripts_commute_on_tree_witness :
  fs (snd (main_of Sprint_2_4 (snd (main_of Sprint_2_3 demo_world))))
  = fs (snd (main_of Sprint_2_3 (snd (main_of Sprint_2_4 demo_world)))).
Proof.
  apply (scripts_commute_on_tree Sprint_2_3 Sprint_2_4 demo_world
           (snd (main_of Sprint_2_3 demo_world))
           (snd (main_of Sprint_2_4 (snd (main_of Sprint_2_3 demo_world))))
           (snd (main_of Sprint_2_4 demo_world))
           (snd (main_of Sprint_2_3 (snd (main_of Sprint_2_4 demo_world))))).
  - repeat constructor; simpl; intuition discriminate.
  - vm_compute. reflexivity.
  - vm_compute. reflexivity.
  - vm_compute. reflexivity.
  - vm_compute. reflexivity.
Defined.

(** ** The files that are opened *)

Lemma reads_app (a b : list event) : reads (a ++ b) = reads a ++ reads b.
Proof.
  induction a as [|[l|p [|]] a IH]; simpl; rewrite ?IH; reflexivity.
Qed.

Lemma writes_app (a b : list event) : writes (a ++ b) = writes a ++ writes b.
Proof.
  induction a as [|[l|p [|]] a IH]; simpl; rewrite ?IH; reflexivity.
Qed.

Lemma opens_of_events (rules : list rule) (f : filesystem) (p : path) :
  reads (events rules f p) = [p]
  /\ (writes (events rules f p) = []
      \/ writes (events rules f p) = [p]
         /\ exists writable data,
              lookup f p = Some (File true writable data)
              /\ apply_patterns rules (decoded data) <> decoded data).
Proof.
  unfold events.
  destruct (lookup f p) as [[[|] wr data|]|] eqn:L; try (cbn; auto; fail).
  rewrite judge_readable.
  destruct (str_eqb _ _) eqn:E; [cbn; auto|].
  apply str_eqb_neq in E.
  destruct wr; cbn; (split; [reflexivity|]); right; eauto.
Qed.

Lemma reads_visit_events (rules : list rule) (files : list path) :
  forall f, reads (visit_events rules files f) = files.
Proof.
  induction files as [|p files IH]; intros f; [reflexivity|].
  cbn [visit_events]. rewrite reads_app, IH.
  destruct (opens_of_events rules f p) as [R _]. rewrite R. reflexivity.
Qed.

Lemma writes_visit_events (rules : list rule) (files : list path) :
  forall f,
    (forall p, In p (writes (visit_events rules files f)) -> In p files)
    /\ (NoDup files -> NoDup (writes (visit_events rules files f))).
Proof.
  induction files as [|p files IH]; intros f.
  - split; [intros p []|constructor].
  - cbn [visit_events]. rewrite writes_app.
    destruct (IH (step_fs rules f p)) as [I N].
    destruct (opens_of_events rules f p) as [_ [W|[W _]]]; rewrite W; cbn [app].
    + split; [intros q Hq; right; apply I, Hq|].
      intros ND. inversion ND; subst. apply N. assumption.
    + split.
      * intros q [<-|Hq]; [left; reflexivity | right; apply I, Hq].
      * intros ND. inversion ND as [|? ? Hp ND']; subst. constructor.
        -- intros Hq. apply Hp, I, Hq.
        -- apply N, ND'.
Qed.

Lemma visit_events_app (rules : list rule) (a b : list path) :
  forall f,
    visit_events rules (a ++ b) f
    = visit_events rules a f
      ++ visit_events rules b (fold_left (step_fs rules) a f).
Proof.
  induction a as [|p a IH]; intros f; [reflexivity|].
  cbn [app visit_events fold_left]. rewrite IH, app_assoc. reflexivity.
Qed.

Section Traces.

Variable patterns : list rule.
Hypothesis patterns_scalar : scalar_rules patterns = true.

Lemma collect_trace (files : list path) :
  forall acc w,
    for_in files
      (fun filepath updated_files =>
         changed <- Script.update_file patterns filepath ;;
         ret (if changed then updated_files ++ [filepath]
              else updated_files))
      acc w
    = (inr (fst (visit_all patterns files (acc, fs w))),
       World (snd (visit_all patterns files (acc, fs w)))
             (trace w ++ visit_events patterns files (fs w))).
Proof.
  induction files as [|p files IH]; intros acc w.
  - destruct w as [f tr]. cbn. rewrite app_nil_r. reflexivity.
  - cbn [for_in]. unfold bind at 1. unfold bind at 1.
    rewrite (update_file_run patterns patterns_scalar p w).
    unfold ret at 1. rewrite IH. cbn [fs trace visit_events].
    rewrite app_assoc. reflexivity.
Qed.

(** The events of the two loops of [main]. *)
Lemma update_tree_trace (w : world) :
  Script.update_tree patterns w
  = (inr (fst (visit_tree patterns ([], fs w))),
     World (snd (visit_tree patterns ([], fs w)))
           (trace w ++ visit_events patterns (listing (fs w)) (fs w))).
Proof.
  unfold Script.update_tree, visit_tree. cbn [for_in fold_left].
  unfold bind at 1. unfold bind at 1.
  unfold rglob at 1, bind at 1, get_fs at 1, ret at 1.
  rewrite collect_trace. cbn [snd].
  destruct (visit_all patterns (glob_entries Script.src_dir "*.ts" (fs w))
                      ([], fs w)) as [acc1 f1] eqn:V1.
  cbn [fst snd]. unfold bind at 1. unfold bind at 1.
  unfold rglob at 1, bind at 1, get_fs at 1, ret at 1.
  rewrite collect_trace. cbn [fs trace]. unfold ret.
  assert (F1 : f1 = fold_left (step_fs patterns)
                      (glob_entries Script.src_dir "*.ts" (fs w)) (fs w)).
  { pose proof (visit_all_snd patterns
                  (glob_entries Script.src_dir "*.ts" (fs w)) [] (fs w)) as S.
    rewrite V1 in S. exact S. }
  assert (E : visit_events patterns (listing (fs w)) (fs w)
              = visit_events patterns (glob_entries Script.src_dir "*.ts" (fs w)) (fs w)
                ++ visit_events patterns (glob_entries Script.src_dir "*.tsx" f1) f1).
  { unfold listing.
    rewrite (glob_entries_keys Script.src_dir "*.tsx" f1 (fs w))
      by (rewrite F1; apply keys_sweep).
    rewrite F1. apply visit_events_app. }
  rewrite E, <- app_assoc. reflexivity.
Qed.

End Traces.

Lemma reads_prints (files : list path) (n : nat) :
  reads (heading n :: map summary_line files) = []
  /\ writes (heading n :: map summary_line files) = [].
Proof.
  cbn [reads writes heading]. induction files as [|p files [IH1 IH2]]; auto.
Qed.

(** X17: in a run of [main] that finds the root, the files opened for
    reading are the visited files, each once and in the order of the
    visit; only visited files are opened for writing, and when the paths
    of the tree are distinct none of them twice. *)
Theorem main_opens_visited_files (sc : script) (w w' : world) :
  lookup (fs w) Script.src_dir <> None ->
  main_of sc w = (inr tt, w') ->
  exists evs,
    trace w' = trace w ++ evs
    /\ reads evs = listing (fs w)
    /\ (forall p, In p (writes evs) -> In p (listing (fs w)))
    /\ (NoDup (map fst (fs w)) -> NoDup (reads evs) /\ NoDup (writes evs)).
Proof.
  rewrite main_of_table. intros L H.
  destruct (main_trace (table sc) w (table_scalar sc) L) as (evs & U & M).
  rewrite (update_tree_trace (table sc) (table_scalar sc)) in U.
  inversion U as [T]. apply app_inv_head in T. subst evs.
  rewrite M in H. inversion H as [W]. clear H M U. cbn [trace].
  eexists. split; [reflexivity|].
  destruct (reads_prints (fst (visit_tree (table sc) ([], fs w)))
              (List.length (fst (visit_tree (table sc) ([], fs w))))) as [RP WP].
  rewrite reads_app, writes_app, RP, WP, !app_nil_r, reads_visit_events.
  destruct (writes_visit_events (table sc) (listing (fs w)) (fs w)) as [I N].
  split; [reflexivity|]. split; [exact I|].
  intros ND. split; [apply listing_NoDup, ND | apply N, listing_NoDup, ND].
Qed.

Lemma main_opens_visited_files_witness :
  exists evs,
    trace (snd (main_of Sprint_2_3 demo_world)) = trace demo_world ++ evs
    /\ reads evs = listing (fs demo_world)
    /\ (forall p, In p (writes evs) -> In p (listing (fs demo_world)))
    /\ (NoDup (map fst (fs demo_world)) -> NoDup (reads evs) /\ NoDup (writes evs)).
Proof.
  apply (main_opens_visited_files Sprint_2_3 demo_world).
  - discriminate.
  - vm_compute. reflexivity.
Defined.

(** * The rule of dialog *)

Lemma after_brace_cons (c : char) (s : str) :
  after_brace s = true -> after_brace (c :: s) = true.
Proof.
  unfold after_brace. cbn [rev].
  destruct (rev s) as [|b [|a rest]]; try discriminate.
  intros H. exact H.
Qed.

Lemma after_brace_skipn (k : nat) :
  forall s, after_brace (skipn k s) = true -> after_brace s = true.
Proof.
  induction k as [|k IH]; intros s H; [exact H|].
  destruct s as [|c s]; [exact H|].
  apply after_brace_cons, IH, H.
Qed.

Lemma after_brace_split (u : str) :
  after_brace u = true -> exists u', u = u' ++ text "} ".
Proof.
  unfold after_brace. destruct (rev u) as [|b [|a rest]] eqn:E; try discriminate.
  intros H. apply andb_true_iff in H as [Hb Ha].
  apply N.eqb_eq in Hb, Ha. subst a b.
  exists (rev rest). rewrite <- (rev_involutive u), E. cbn [rev].
  rewrite <- app_assoc. reflexivity.
Qed.

(** Before a segment that the pattern can touch only behind the brace, and
    in a text that does not end with the brace, a match lies wholly
    before the segment. *)
Lemma matches_before_unbraced (p : pattern) (m : str) :
  clear_unless_braced p m = true ->
  forall u t, u <> [] -> after_brace u = false ->
    matches p (u ++ m ++ t) = matches p u.
Proof.
  unfold clear_unless_braced.
  destruct p as [|[a|] [|[b|] p']]; try discriminate.
  intros C. repeat (apply andb_true_iff in C as [C ?]).
  apply N.eqb_eq in C. subst a.
  match goal with H : (b =? 32)%N = true |- _ => apply N.eqb_eq in H; subst b end.
  match goal with H : negb (overlap _ m) = true |- _ =>
    apply negb_true_iff in H; rename H into O end.
  match goal with H : negb (runs_into p' m) = true |- _ =>
    apply negb_true_iff in H; rename H into R end.
  match goal with H : nonempty p' = true |- _ => rename H into N end.
  intros u t Hu B.
  destruct u as [|c [|d [|e u]]]; [congruence| | |].
  - assert (E : matches (Lit 32%N :: p') (m ++ t) = false).
    { destruct (matches (Lit 32%N :: p') (m ++ t)) eqn:E; [|reflexivity].
      apply matches_overlap in E. congruence. }
    change (matches (Lit 125%N :: Lit 32%N :: p') ([c] ++ m ++ t))
      with (accepts (Lit 125%N) c && matches (Lit 32%N :: p') (m ++ t)).
    rewrite E. cbn [matches]. rewrite !andb_false_r. reflexivity.
  - unfold after_brace in B. cbn [rev app] in B.
    cbn [app matches accepts]. rewrite (matches_nil p' N).
    rewrite andb_false_r, andb_false_r.
    rewrite (N.eqb_sym 125 c), (N.eqb_sym 32 d).
    destruct (c =? 125)%N; [|reflexivity].
    destruct (d =? 32)%N; [discriminate B|reflexivity].
  - change ((c :: d :: e :: u) ++ m ++ t) with (c :: d :: ((e :: u) ++ m ++ t)).
    cbn [matches]. rewrite (matches_before p' m R (e :: u) t) by congruence.
    reflexivity.
Qed.

Section Braced.

Variable p : pattern.
Variable repl : str.
Hypothesis p_nonempty : nonempty p = true.

(** The scan passes by a segment that it could touch only behind the
    brace, when no brace stands there. *)
Lemma re_sub_split_unbraced (m : str) :
  clear_unless_braced p m = true ->
  forall u t,
    after_brace u = false ->
    re_sub p repl (u ++ m ++ t) = re_sub p repl u ++ m ++ re_sub p repl t.
Proof.
  intros C u t.
  assert (S : starts_inside p m = false).
  { unfold clear_unless_braced in C.
    destruct p as [|[a|] [|[b|] p']]; try discriminate.
    repeat (apply andb_true_iff in C as [C ?]).
    match goal with H : negb (starts_inside _ m) = true |- _ =>
      apply negb_true_iff in H; exact H end. }
  pattern u. apply (re_sub_ind p p_nonempty); [|intros s M IH|intros c s M IH].
  - intros _. rewrite (re_sub_nil p repl p_nonempty). simpl.
    apply (re_sub_through p repl); assumption.
  - intros B. pose proof (matches_length _ _ M) as L.
    rewrite (re_sub_match p repl p_nonempty (s ++ m ++ t))
      by (rewrite matches_app; assumption).
    rewrite (re_sub_match p repl p_nonempty s M).
    rewrite skipn_app.
    replace (List.length p - List.length s) with 0 by lia.
    simpl skipn at 2. rewrite IH.
    + rewrite app_assoc. reflexivity.
    + destruct (after_brace (skipn (List.length p) s)) eqn:E; [|reflexivity].
      apply after_brace_skipn in E. congruence.
  - intros B. change ((c :: s) ++ m ++ t) with (c :: (s ++ m ++ t)).
    rewrite (re_sub_copy p repl).
    + rewrite IH.
      * rewrite (re_sub_copy p repl c s) by exact M. reflexivity.
      * destruct (after_brace s) eqn:E; [|reflexivity].
        apply (after_brace_cons c) in E. congruence.
    + rewrite <- M.
      apply (matches_before_unbraced p m C (c :: s) t); [congruence|exact B].
Qed.

Hypothesis repl_plain : ends_plain repl = true.

Lemma re_sub_empty (s : str) : re_sub p repl s = [] -> s = [].
Proof.
  destruct s as [|c s]; [reflexivity|].
  destruct (matches p (c :: s)) eqn:M.
  - rewrite (re_sub_match p repl p_nonempty _ M).
    destruct repl; [discriminate repl_plain|discriminate].
  - rewrite (re_sub_copy p repl c s M). discriminate.
Qed.

Lemma re_sub_space (s : str) : re_sub p repl s = [32%N] -> s = [32%N].
Proof.
  destruct s as [|c s].
  - rewrite (re_sub_nil p repl p_nonempty). discriminate.
  - destruct (matches p (c :: s)) eqn:M.
    + rewrite (re_sub_match p repl p_nonempty _ M).
      destruct repl as [|x [|y r]]; [discriminate repl_plain| |discriminate].
      intros [= -> _]. discriminate repl_plain.
    + rewrite (re_sub_copy p repl c s M). intros [= -> E].
      apply re_sub_empty in E. subst s. reflexivity.
Qed.

(** The scan does not bring a brace and a space to the end of a text. *)
Lemma re_sub_keeps_unbraced (s : str) :
  after_brace (re_sub p repl s) = true -> after_brace s = true.
Proof.
  pattern s. apply (re_sub_ind p p_nonempty); [|intros s' M IH|intros c s' M IH].
  - rewrite (re_sub_nil p repl p_nonempty). discriminate.
  - rewrite (re_sub_match p repl p_nonempty _ M).
    remember (re_sub p repl (skipn (List.length p) s')) as y eqn:Ey.
    intros B. apply (after_brace_skipn (List.length p)). apply IH.
    unfold after_brace in B |- *. rewrite rev_app_distr in B.
    unfold ends_plain in repl_plain.
    destruct (rev y) as [|y1 [|y2 rest]].
    + cbn [app] in B. destruct (rev repl) as [|b [|a r]]; try discriminate.
      apply andb_true_iff in B as [B _].
      rewrite B in repl_plain. discriminate.
    + cbn [app] in B. destruct (rev repl) as [|a r]; [discriminate|].
      apply andb_true_iff in B as [_ B].
      rewrite B, andb_false_r in repl_plain. discriminate.
    + exact B.
  - rewrite (re_sub_copy p repl c s' M).
    remember (re_sub p repl s') as y eqn:Ey.
    intros B.
    unfold after_brace in B. cbn [rev] in B.
    destruct (rev y) as [|y1 [|y2 rest]] eqn:R.
    + discriminate.
    + cbn [app] in B. apply andb_true_iff in B as [B1 B2].
      apply N.eqb_eq in B1, B2. subst y1 c.
      assert (Y : y = [32%N]).
      { rewrite <- (rev_involutive y), R. reflexivity. }
      rewrite Y in Ey. symmetry in Ey. apply re_sub_space in Ey. subst s'.
      reflexivity.
    + apply after_brace_cons, IH. unfold after_brace. rewrite R. exact B.
Qed.

End Braced.

Lemma apply_patterns_keeps_unbraced (rules : list rule) :
  plain_ends rules = true ->
  forall s, after_brace s = false -> after_brace (apply_patterns rules s) = false.
Proof.
  induction rules as [|[p r] rules IH]; intros P s B; [exact B|].
  unfold plain_ends in P. cbn [forallb fst snd] in P.
  apply andb_true_iff in P as [P P']. apply andb_true_iff in P as [N E].
  rewrite apply_patterns_cons. apply IH; [exact P'|].
  destruct (after_brace (re_sub p r s)) eqn:X; [|reflexivity].
  apply (re_sub_keeps_unbraced p r N E) in X. congruence.
Qed.

Lemma sprint24_rules :
  Sprint24.patterns = unbraced_rules ++ [dialog_rule].
Proof. reflexivity. Qed.

Lemma unbraced_dialog_carried (q1 q2 : char) :
  is_quote q1 = true -> is_quote q2 = true ->
  carried unbraced_rules (legacy_import "dialog" q1 q2)
          (legacy_import "dialog" q1 q2) = true
  /\ clear_unless_braced (fst dialog_rule) (legacy_import "dialog" q1 q2) = true.
Proof.
  intros Q1 Q2. apply is_quote_cases in Q1, Q2.
  destruct Q1; destruct Q2; subst q1 q2; vm_compute; auto.
Qed.

(** An import of dialog with no brace and space before [from] comes out
    of the Sprint 2.4 table as it went in. *)
Lemma unbraced_dialog_kept (q1 q2 : char) (u t : str) :
  is_quote q1 = true -> is_quote q2 = true ->
  after_brace u = false ->
  apply_patterns Sprint24.patterns (u ++ legacy_import "dialog" q1 q2 ++ t)
  = apply_patterns Sprint24.patterns u ++ legacy_import "dialog" q1 q2
    ++ apply_patterns Sprint24.patterns t.
Proof.
  intros Q1 Q2 B.
  destruct (unbraced_dialog_carried q1 q2 Q1 Q2) as [C G].
  rewrite sprint24_rules, !apply_patterns_app.
  rewrite (carried_sound unbraced_rules _ _ C).
  destruct dialog_rule as [p r] eqn:D. cbn [fst] in G.
  change (apply_patterns [(p, r)]) with (re_sub p r).
  apply (re_sub_split_unbraced p r); [|exact G|].
  - replace p with (fst dialog_rule) by (rewrite D; reflexivity).
    reflexivity.
  - apply apply_patterns_keeps_unbraced; [vm_compute; reflexivity|exact B].
Qed.

(** C3, as the code has it: the Sprint 2.4 table redirects the imports of
    progress, switch, scroll-area, tabs and dropdown-menu wherever they
    stand; an import of dialog is redirected where a closing brace and one
    space stand directly before [from], and becomes the consolidated
    import behind the same brace; where they do not stand there, it is
    left as it is.  The text around the import is rewritten on its own in
    each case. *)
Theorem sprint24_redirects_braced_dialog (q1 q2 : char) (u t : str) :
  is_quote q1 = true -> is_quote q2 = true ->
  (forall component,
      In component ["progress"; "switch"; "scroll-area"; "tabs"; "dropdown-menu"]%string ->
      apply_patterns Sprint24.patterns (u ++ legacy_import component q1 q2 ++ t)
      = apply_patterns Sprint24.patterns u ++ consolidated_import
        ++ apply_patterns Sprint24.patterns t)
  /\ apply_patterns Sprint24.patterns
       (u ++ (text "} " ++ legacy_import "dialog" q1 q2) ++ t)
     = apply_patterns Sprint24.patterns u
       ++ (text "} " ++ consolidated_import)
       ++ apply_patterns Sprint24.patterns t
  /\ (after_brace u = true ->
      exists u',
        u = u' ++ text "} "
        /\ apply_patterns Sprint24.patterns (u ++ legacy_import "dialog" q1 q2 ++ t)
           = apply_patterns Sprint24.patterns u'
             ++ (text "} " ++ consolidated_import)
             ++ apply_patterns Sprint24.patterns t)
  /\ (after_brace u = false ->
      apply_patterns Sprint24.patterns (u ++ legacy_import "dialog" q1 q2 ++ t)
      = apply_patterns Sprint24.patterns u ++ legacy_import "dialog" q1 q2
        ++ apply_patterns Sprint24.patterns t).
Proof.
  intros Q1 Q2. split; [|split; [|split]].
  - intros component C. apply carried_sound.
    apply legacy_import_carried_24; assumption.
  - apply carried_sound. apply braced_dialog_carried; assumption.
  - intros B. apply after_brace_split in B as [u' ->].
    exists u'. split; [reflexivity|].
    rewrite <- !app_assoc.
    apply (carried_sound Sprint24.patterns
             (text "} " ++ legacy_import "dialog" q1 q2)
             (text "} " ++ consolidated_import)).
    apply braced_dialog_carried; assumption.
  - apply unbraced_dialog_kept; assumption.
Qed.

Lemma sprint24_redirects_braced_dialog_witness :
  (forall component,
      In component ["progress"; "switch"; "scroll-area"; "tabs"; "dropdown-menu"]%string ->
      apply_patterns Sprint24.patterns
        (text "import Dialog " ++ legacy_import component apostrophe dquote ++ text ";")
      = apply_patterns Sprint24.patterns (text "import Dialog ") ++ consolidated_import
        ++ apply_patterns Sprint24.patterns (text ";"))
  /\ apply_patterns Sprint24.patterns
       (text "import Dialog "
        ++ (text "} " ++ legacy_import "dialog" apostrophe dquote) ++ text ";")
     = apply_patterns Sprint24.patterns (text "import Dialog ")
       ++ (text "} " ++ consolidated_import)
       ++ apply_patterns Sprint24.patterns (text ";")
  /\ (after_brace (text "import Dialog ") = true ->
      exists u',
        text "import Dialog " = u' ++ text "} "
        /\ apply_patterns Sprint24.patterns
             (text "import Dialog " ++ legacy_import "dialog" apostrophe dquote
              ++ text ";")
           = apply_patterns Sprint24.patterns u'
             ++ (text "} " ++ consolidated_import)
             ++ apply_patterns Sprint24.patterns (text ";"))
  /\ (after_brace (text "import Dialog ") = false ->
      apply_patterns Sprint24.patterns
        (text "import Dialog " ++ legacy_import "dialog" apostrophe dquote ++ text ";")
      = apply_patterns Sprint24.patterns (text "import Dialog ")
        ++ legacy_import "dialog" apostrophe dquote
        ++ apply_patterns Sprint24.patterns (text ";")).
Proof.
  apply (sprint24_redirects_braced_dialog apostrophe dquote
           (text "import Dialog ") (text ";")); reflexivity.
Defined.

(** * The file after a call *)

Lemma final_scalar (sc : script) (data : list byte) :
  forallb is_scalar (apply_patterns (table sc) (decoded data)) = true.
Proof. apply apply_patterns_scalar; [apply table_scalar | apply decoded_scalar]. Qed.

(** A file that holds the encoded final text of a pass holds that text. *)
Lemma holds_final (sc : script) (f : filesystem) (p : path) (data : list byte) :
  lookup f p
  = Some (File true true (encoded (apply_patterns (table sc) (decoded data)))) ->
  holds_text f p (apply_patterns (table sc) (decoded data)).
Proof.
  intros L. eexists. split; [exact L|]. split.
  - apply decode_encoded, final_scalar.
  - apply decoded_final.
Qed.

(** C2, as it is written, fails: the text after the pass is compared with
    the text that was read, not with the bytes of the file.  For a file
    whose lines end in CR LF, and for one with a byte that is not UTF-8,
    the encoded final text differs from the bytes of the file, and yet
    [update_file] opens neither for writing and answers [False]. *)
Lemma raw_bytes_are_not_compared :
  encoded (apply_patterns Sprint23.patterns
             (decoded (list_byte_of_string "export {};" ++ [x0d; x0a])))
  <> list_byte_of_string "export {};" ++ [x0d; x0a]
  /\ Sprint23.update_file (in_src "crlf.ts") (World raw_fs [])
     = (inr false, World raw_fs [Open (in_src "crlf.ts") ModeR])
  /\ encoded (apply_patterns Sprint23.patterns
                (decoded (xe9 :: list_byte_of_string " export {};")))
     <> xe9 :: list_byte_of_string " export {};"
  /\ Sprint23.update_file (in_src "latin1.ts") (World raw_fs [])
     = (inr false, World raw_fs [Open (in_src "latin1.ts") ModeR]).
Proof.
  split; [vm_compute; discriminate|].
  split; [vm_compute; reflexivity|].
  split; [vm_compute; discriminate|].
  vm_compute; reflexivity.
Qed.

(** C2, as the code has it: a call of [update_file] opens the file for
    writing exactly when it could read it and the text after the pass
    differs from the text it read, which is the bytes of the file decoded
    with [errors='ignore'] and with the line ends translated.  A file that
    can be written then holds the final text, encoded as UTF-8, and its
    entry has changed; every other entry and the paths of the tree are as
    before.  When the two texts are equal, in particular when no pattern
    occurs in the text read, the tree is as before and only the read is
    issued. *)
Theorem update_file_writes_iff_text_changed (sc : script) (w : world)
        (filepath : path) :
  exists changed f' evs,
    update_file_of sc filepath w = (inr changed, World f' (trace w ++ evs))
    /\ (In (Open filepath ModeW) evs <->
        exists wr data,
          lookup (fs w) filepath = Some (File true wr data)
          /\ apply_patterns (table sc) (decoded data) <> decoded data)
    /\ map fst f' = map fst (fs w)
    /\ (forall q, q <> filepath -> lookup f' q = lookup (fs w) q)
    /\ (forall data,
          lookup (fs w) filepath = Some (File true true data) ->
          (apply_patterns (table sc) (decoded data) <> decoded data ->
           changed = true
           /\ holds_text f' filepath (apply_patterns (table sc) (decoded data))
           /\ lookup f' filepath <> lookup (fs w) filepath)
          /\ (apply_patterns (table sc) (decoded data) = decoded data ->
              changed = false /\ f' = fs w))
    /\ (forall wr data,
          lookup (fs w) filepath = Some (File true wr data) ->
          (forall p, In p (map fst (table sc)) -> occurs p (decoded data) = false) ->
          changed = false /\ f' = fs w /\ evs = [Open filepath ModeR])
    /\ (~ In (Open filepath ModeW) evs -> f' = fs w).
Proof.
  rewrite update_file_of_table.
  rewrite (update_file_run (table sc) (table_scalar sc) filepath w).
  do 3 eexists. split; [reflexivity|].
  split; [|split; [apply keys_step|split;
            [intros q D; apply lookup_step_other; congruence|]]].
  - unfold events.
    destruct (lookup (fs w) filepath) as [[[|] wr data|]|] eqn:L.
    + rewrite judge_readable.
      destruct (str_eqb (apply_patterns (table sc) (decoded data)) (decoded data))
        eqn:E.
      * apply str_eqb_eq in E. split.
        -- intros [H|[]]. discriminate H.
        -- intros (wr' & data' & [= <- <-] & D). contradiction.
      * apply str_eqb_neq in E.
        destruct wr; (split; [intros _; eauto | intros _; simpl; auto]).
    + cbn [judge]. split.
      * intros [H|[H|[]]]; discriminate H.
      * intros (wr' & data' & [=] & _).
    + cbn [judge]. split.
      * intros [H|[H|[]]]; discriminate H.
      * intros (wr' & data' & [=] & _).
    + cbn [judge]. split.
      * intros [H|[H|[]]]; discriminate H.
      * intros (wr' & data' & [=] & _).
  - split; [|split].
    + intros data L. unfold changes, step_fs. rewrite L, judge_readable. split.
      * intros D. pose proof D as D'. apply str_eqb_neq in D'. rewrite D'.
        split; [reflexivity|]. split.
        -- apply holds_final, lookup_store_same.
        -- rewrite lookup_store_same. intros [= X].
           apply (encoded_final_differs sc data D X).
      * intros E. rewrite E, str_eqb_refl. auto.
    + intros wr data L H.
      assert (E : apply_patterns (table sc) (decoded data) = decoded data).
      { apply apply_patterns_fixed. intros p Hp. split; [|apply H, Hp].
        destruct (table sc) as [|[p0 r0] rest] eqn:T; [contradiction|].
        rewrite <- T in Hp.
        apply (stable_spec (table sc) (table_stable sc) p r0 Hp).
        rewrite T. left. reflexivity. }
      unfold changes, step_fs, events. rewrite L, judge_readable.
      rewrite E, str_eqb_refl. auto.
    + unfold events, step_fs.
      destruct (judge (table sc) filepath (lookup (fs w) filepath));
        try reflexivity.
      intros H. exfalso. apply H. simpl. auto.
Qed.

(** C6: under the Sprint 2.3 table a file whose text holds the import of
    the badge module, whatever stands around it, is reported as changed
    and then holds the text with the consolidated import in that place,
    the text around it rewritten on its own; no other entry of the tree
    changes.  A file whose text is the import of an unrelated module is
    not opened for writing, keeps its bytes and is reported as
    unchanged. *)
Theorem badge_scenario (w : world) (file1 file2 : path)
        (data1 data2 : list byte) (writable2 : bool) (pre post : str) :
  lookup (fs w) file1 = Some (File true true data1) ->
  decoded data1 = pre ++ text "from '@/components/ui/badge'" ++ post ->
  lookup (fs w) file2 = Some (File true writable2 data2) ->
  decoded data2 = text "from '@/components/ui/unrelated-thing'" ->
  (exists f1,
      Sprint23.update_file file1 w
      = (inr true, World f1 (trace w ++ [Open file1 ModeR; Open file1 ModeW]))
      /\ holds_text f1 file1
           (apply_patterns Sprint23.patterns pre
            ++ text "from '@jade/ui/components'"
            ++ apply_patterns Sprint23.patterns post)
      /\ map fst f1 = map fst (fs w)
      /\ forall q, q <> file1 -> lookup f1 q = lookup (fs w) q)
  /\ Sprint23.update_file file2 w
     = (inr false, World (fs w) (trace w ++ [Open file2 ModeR])).
Proof.
  intros L1 D1 L2 D2. unfold Sprint23.update_file.
  rewrite !(update_file_run Sprint23.patterns (table_scalar Sprint_2_3)).
  change (text "from '@/components/ui/badge'")
    with (legacy_import "badge" apostrophe apostrophe) in D1.
  destruct (sprint23_changes_import "badge" apostrophe apostrophe pre post)
    as [E N]; [simpl; tauto | reflexivity | reflexivity |].
  rewrite <- D1 in E, N.
  split.
  - exists (step_fs Sprint23.patterns (fs w) file1).
    split; [|split; [|split]].
    + unfold changes, events. rewrite L1, judge_readable.
      apply str_eqb_neq in N. rewrite N. reflexivity.
    + change (text "from '@jade/ui/components'") with consolidated_import.
      rewrite <- E. apply (holds_final Sprint_2_3).
      unfold step_fs. rewrite L1, judge_readable.
      apply str_eqb_neq in N. rewrite N. apply lookup_store_same.
    + apply keys_step.
    + intros q D. apply lookup_step_other. congruence.
  - unfold changes, step_fs, events. rewrite L2, judge_readable, D2.
    replace (apply_patterns Sprint23.patterns
               (text "from '@/components/ui/unrelated-thing'"))
      with (text "from '@/components/ui/unrelated-thing'")
      by (vm_compute; reflexivity).
    rewrite str_eqb_refl. reflexivity.
Qed.

Lemma badge_scenario_witness :
  (exists f1,
      Sprint23.update_file (in_src "badge.tsx") demo_world
      = (inr true,
         World f1 (trace demo_world
                   ++ [Open (in_src "badge.tsx") ModeR;
                       Open (in_src "badge.tsx") ModeW]))
      /\ holds_text f1 (in_src "badge.tsx")
           (apply_patterns Sprint23.patterns (text "import { Badge } ")
            ++ text "from '@jade/ui/components'"
            ++ apply_patterns Sprint23.patterns (text ";"))
      /\ map fst f1 = map fst (fs demo_world)
      /\ forall q, q <> in_src "badge.tsx" ->
           lookup f1 q = lookup (fs demo_world) q)
  /\ Sprint23.update_file (in_src "other.ts") demo_world
     = (inr false,
        World (fs demo_world) (trace demo_world ++ [Open (in_src "other.ts") ModeR])).
Proof.
  apply (badge_scenario demo_world (in_src "badge.tsx") (in_src "other.ts")
           (list_byte_of_string "import { Badge } from '@/components/ui/badge';")
           (list_byte_of_string "from '@/components/ui/unrelated-thing'")
           true (text "import { Badge } ") (text ";"));
    vm_compute; reflexivity.
Defined.

(** C7: under the Sprint 2.3 table a file of the tree whose text holds an
    import of the badge module and an import of the select module, in
    either order and whatever stands around them, holds after the loops
    of [main] the text with the consolidated import in both places, and
    its path stands once in the list of updated files. *)
Theorem both_imports_rewritten_once (w : world) (filepath : path)
        (data : list byte) (c1 c2 : string) (q1 q2 q3 q4 : char) (a b c : str) :
  NoDup (map fst (fs w)) ->
  is_under Script.src_dir filepath = true ->
  fnmatch (list_ascii_of_string "*.ts") (list_ascii_of_string (name filepath)) = true
  \/ fnmatch (list_ascii_of_string "*.tsx") (list_ascii_of_string (name filepath)) = true ->
  lookup (fs w) filepath = Some (File true true data) ->
  (c1 = "badge" /\ c2 = "select") \/ (c1 = "select" /\ c2 = "badge") ->
  is_quote q1 = true -> is_quote q2 = true ->
  is_quote q3 = true -> is_quote q4 = true ->
  decoded data
  = a ++ legacy_import c1 q1 q2 ++ b ++ legacy_import c2 q3 q4 ++ c ->
  exists updated_files w',
    Sprint23.update_tree w = (inr updated_files, w')
    /\ count_occ path_eq_dec updated_files filepath = 1
    /\ holds_text (fs w') filepath
         (apply_patterns Sprint23.patterns a
          ++ consolidated_import
          ++ apply_patterns Sprint23.patterns b
          ++ consolidated_import
          ++ apply_patterns Sprint23.patterns c).
Proof.
  intros ND U G L C Q1 Q2 Q3 Q4 D.
  assert (C1 : In c1 (components Sprint_2_3))
    by (destruct C as [[-> _]|[-> _]]; simpl; tauto).
  assert (C2 : In c2 (components Sprint_2_3))
    by (destruct C as [[_ ->]|[_ ->]]; simpl; tauto).
  destruct (sprint23_changes_import c1 q1 q2 a
              (b ++ legacy_import c2 q3 q4 ++ c) C1 Q1 Q2) as [E1 N1].
  destruct (sprint23_changes_import c2 q3 q4 b c C2 Q3 Q4) as [E2 _].
  rewrite E2 in E1. rewrite <- D in E1, N1.
  assert (J : judge Sprint23.patterns filepath (lookup (fs w) filepath)
              = Rewritten
                  (File true true
                        (encoded (apply_patterns Sprint23.patterns (decoded data))))).
  { rewrite L, judge_readable. apply str_eqb_neq in N1. rewrite N1.
    reflexivity. }
  assert (I : In filepath (listing (fs w))).
  { apply listing_In. split; [|tauto].
    apply (in_map fst _ _ (lookup_In _ _ _ L)). }
  destruct (update_tree_run Sprint23.patterns (table_scalar Sprint_2_3) w)
    as [evs R].
  destruct (updated_listing Sprint23.patterns (fs w) ND) as [F S].
  unfold Sprint23.update_tree. rewrite R, F, S.
  do 2 eexists. split; [reflexivity|]. split.
  - apply NoDup_count_occ'.
    + apply NoDup_filter, listing_NoDup, ND.
    + apply filter_In. split; [exact I|]. unfold changes. rewrite J. reflexivity.
  - cbn [fs]. rewrite <- E1. apply (holds_final Sprint_2_3).
    rewrite (lookup_sweep_in Sprint23.patterns (listing (fs w)) filepath
               (listing_NoDup (fs w) ND) I).
    unfold entry_after. rewrite J. reflexivity.
Qed.

Lemma both_imports_rewritten_once_witness :
  exists updated_files w',
    Sprint23.update_tree demo_world = (inr updated_files, w')
    /\ count_occ path_eq_dec updated_files (in_src "both.ts") = 1
    /\ holds_text (fs w') (in_src "both.ts")
         (apply_patterns Sprint23.patterns (text "import { Select } ")
          ++ consolidated_import
          ++ apply_patterns Sprint23.patterns (text "; import { Badge } ")
          ++ consolidated_import
          ++ apply_patterns Sprint23.patterns (text ";")).
Proof.
  apply (both_imports_rewritten_once demo_world (in_src "both.ts")
           (list_byte_of_string
              "import { Select } from '@/components/ui/select'; import { Badge } from '@/components/ui/badge';")
           "select" "badge" apostrophe apostrophe apostrophe apostrophe
           (text "import { Select } ") (text "; import { Badge } ") (text ";")).
  - repeat constructor; simpl; intuition discriminate.
  - reflexivity.
  - left. reflexivity.
  - reflexivity.
  - right. split; reflexivity.
  - reflexivity.
  - reflexivity.
  - reflexivity.
  - reflexivity.
  - vm_compute. reflexivity.
Defined.

(** X1: writing a text of scalar values to a file that can be read and
    written returns normally and leaves in the file bytes that decode
    strictly to that text; reading the file then returns the text with
    its line ends translated, which is the text itself when it holds no
    carriage return. *)
Theorem written_text_reads_back (w : world) (p : path) (data : list byte)
        (content : str) :
  lookup (fs w) p = Some (File true true data) ->
  forallb is_scalar content = true ->
  exists f',
    write_text p content w = (inr tt, World f' (trace w ++ [Open p ModeW]))
    /\ (exists data',
          lookup f' p = Some (File true true data')
          /\ utf8_decode Strict data' = inr content)
    /\ read_text Ignore p (World f' (trace w ++ [Open p ModeW]))
       = (inr (translate_newlines content),
          World f' ((trace w ++ [Open p ModeW]) ++ [Open p ModeR]))
    /\ (no_cr content = true ->
        read_text Ignore p (World f' (trace w ++ [Open p ModeW]))
        = (inr content,
           World f' ((trace w ++ [Open p ModeW]) ++ [Open p ModeR]))).
Proof.
  intros L F.
  rewrite (write_text_run p w true true data content L F).
  eexists. split; [reflexivity|].
  assert (R : read_text Ignore p
                (World (store (fs w) p (File true true (encoded content)))
                       (trace w ++ [Open p ModeW]))
              = (inr (translate_newlines content),
                 World (store (fs w) p (File true true (encoded content)))
                       ((trace w ++ [Open p ModeW]) ++ [Open p ModeR]))).
  { rewrite read_text_run. cbn [fs trace]. rewrite lookup_store_same.
    unfold decoded. rewrite (decode_encoded Ignore content F). reflexivity. }
  split; [|split].
  - eexists. split; [apply lookup_store_same|].
    apply decode_encoded, F.
  - exact R.
  - intros N. rewrite R, (translate_newlines_fixed content N). reflexivity.
Qed.

Lemma written_text_reads_back_witness :
  exists f',
    write_text (in_src "other.ts") (text "a" ++ [13%N; 10%N] ++ text "b") demo_world
    = (inr tt, World f' (trace demo_world ++ [Open (in_src "other.ts") ModeW]))
    /\ (exists data',
          lookup f' (in_src "other.ts") = Some (File true true data')
          /\ utf8_decode Strict data' = inr (text "a" ++ [13%N; 10%N] ++ text "b"))
    /\ read_text Ignore (in_src "other.ts")
         (World f' (trace demo_world ++ [Open (in_src "other.ts") ModeW]))
       = (inr (translate_newlines (text "a" ++ [13%N; 10%N] ++ text "b")),
          World f' ((trace demo_world ++ [Open (in_src "other.ts") ModeW])
                    ++ [Open (in_src "other.ts") ModeR]))
    /\ (no_cr (text "a" ++ [13%N; 10%N] ++ text "b") = true ->
        read_text Ignore (in_src "other.ts")
          (World f' (trace demo_world ++ [Open (in_src "other.ts") ModeW]))
        = (inr (text "a" ++ [13%N; 10%N] ++ text "b"),
           World f' ((trace demo_world ++ [Open (in_src "other.ts") ModeW])
                     ++ [Open (in_src "other.ts") ModeR]))).
Proof.
  apply (written_text_reads_back demo_world (in_src "other.ts")
           (list_byte_of_string "from '@/components/ui/unrelated-thing'")
           (text "a" ++ [13%N; 10%N] ++ text "b"));
    vm_compute; reflexivity.
Defined.

(** X4: a call of [update_file] that answered [True] found a file that can
    be read and written and whose text the pass changes; afterwards the
    file holds the text after the pass, as well-formed UTF-8, with no
    carriage return and no match of a pattern of the table, and a read of
    the file returns that text. *)
Theorem rewritten_file_reads_back (sc : script) (w : world) (filepath : path)
        (w' : world) :
  update_file_of sc filepath w = (inr true, w') ->
  exists data,
    lookup (fs w) filepath = Some (File true true data)
    /\ apply_patterns (table sc) (decoded data) <> decoded data
    /\ holds_text (fs w') filepath (apply_patterns (table sc) (decoded data))
    /\ no_cr (apply_patterns (table sc) (decoded data)) = true
    /\ (forall p, In p (map fst (table sc)) ->
          occurs p (apply_patterns (table sc) (decoded data)) = false)
    /\ read_text Ignore filepath w'
       = (inr (apply_patterns (table sc) (decoded data)),
          World (fs w') (trace w' ++ [Open filepath ModeR])).
Proof.
  rewrite update_file_of_table.
  rewrite (update_file_run (table sc) (table_scalar sc) filepath w).
  unfold changes, step_fs. intros H.
  destruct (judge (table sc) filepath (lookup (fs w) filepath)) as [|? ?| |n] eqn:J;
    try discriminate.
  apply judge_rewritten in J as (data & L & -> & D).
  inversion H as [W]. clear H.
  exists data. cbn [fs].
  split; [exact L|]. split; [exact D|]. split; [|split; [|split]].
  - apply holds_final, lookup_store_same.
  - apply apply_patterns_no_cr; [apply table_cr_free|].
    unfold decoded. destruct (utf8_decode Ignore data); [reflexivity|].
    apply translate_newlines_no_cr.
  - intros p Hp. apply apply_patterns_clean; [apply stable_spec, table_stable|exact Hp].
  - rewrite read_text_run. cbn [fs trace]. rewrite lookup_store_same.
    rewrite decoded_final. reflexivity.
Qed.

Lemma rewritten_file_reads_back_witness :
  exists data,
    lookup (fs demo_world) (in_src "latin1.ts") = Some (File true true data)
    /\ apply_patterns (table Sprint_2_3) (decoded data) <> decoded data
    /\ holds_text (fs (snd (update_file_of Sprint_2_3 (in_src "latin1.ts") demo_world)))
         (in_src "latin1.ts") (apply_patterns (table Sprint_2_3) (decoded data))
    /\ no_cr (apply_patterns (table Sprint_2_3) (decoded data)) = true
    /\ (forall p, In p (map fst (table Sprint_2_3)) ->
          occurs p (apply_patterns (table Sprint_2_3) (decoded data)) = false)
    /\ read_text Ignore (in_src "latin1.ts")
         (snd (update_file_of Sprint_2_3 (in_src "latin1.ts") demo_world))
       = (inr (apply_patterns (table Sprint_2_3) (decoded data)),
          World (fs (snd (update_file_of Sprint_2_3 (in_src "latin1.ts") demo_world)))
                (trace (snd (update_file_of Sprint_2_3 (in_src "latin1.ts") demo_world))
                 ++ [Open (in_src "latin1.ts") ModeR])).
Proof.
  apply (rewritten_file_reads_back Sprint_2_3 demo_world (in_src "latin1.ts")).
  vm_compute. reflexivity.
Defined.

(** * The batch *)






Lemma reads_In (evs : list event) (p : path) :
  In p (reads evs) <-> In (Open p ModeR) evs.
Proof.
  induction evs as [|[l|q [|]] evs IH]; cbn [reads In].
  - tauto.
  - rewrite IH. split; [auto|]. intros [H|H]; [discriminate H|exact H].
  - rewrite IH. split.
    + intros [->|H]; auto.
    + intros [[= ->]|H]; auto.
  - rewrite IH. split; [auto|]. intros [H|H]; [discriminate H|exact H].
Qed.

(** The description of an error names the file as [repr] shows it, and a
    path below a regular file is not a directory. *)
Example error_descriptions :
  exn_str (PermissionError ["src"; "it's.ts"])
  = ("[Errno 13] Permission denied: "
     ++ String "034" ("src/it's.ts" ++ String "034" EmptyString))%string
  /\ exn_str (FileNotFoundError ["src"; "a.ts"])
     = "[Errno 2] No such file or directory: 'src/a.ts'"%string
  /\ Sprint23.update_file ["a.ts"; "b.ts"] (World [(["a.ts"], File true true [])] [])
     = (inr false,
        World [(["a.ts"], File true true [])]
              [Open ["a.ts"; "b.ts"] ModeR;
               Print "Error processing a.ts/b.ts: [Errno 20] Not a directory: 'a.ts/b.ts'"]).
Proof. repeat split. Qed.


(** X9: in a run of [main] that finds the root, a path is opened for
    reading exactly when it is an entry of the tree strictly below the
    root whose name ends in [.ts] or in [.tsx], whatever kind of entry it
    is. *)
Theorem visited_files (sc : script) (w w' : world) (p : path) :
  lookup (fs w) Script.src_dir <> None ->
  main_of sc w = (inr tt, w') ->
  exists evs,
    trace w' = trace w ++ evs
    /\ (In (Open p ModeR) evs <->
        In p (map fst (fs w)) /\ is_under Script.src_dir p = true
        /\ (ends_with ".ts" (name p) \/ ends_with ".tsx" (name p))).
Proof.
  rewrite main_of_table. intros L H.
  destruct (main_trace (table sc) w (table_scalar sc) L) as (evs & U & M).
  rewrite (update_tree_trace (table sc) (table_scalar sc)) in U.
  inversion U as [T]. apply app_inv_head in T. subst evs.
  rewrite M in H. inversion H as [W]. clear H M U. cbn [trace].
  eexists. split; [reflexivity|].
  rewrite <- reads_In.
  destruct (reads_prints (fst (visit_tree (table sc) ([], fs w)))
              (List.length (fst (visit_tree (table sc) ([], fs w))))) as [RP _].
  rewrite reads_app, RP, app_nil_r, reads_visit_events.
  rewrite listing_In.
  change (list_ascii_of_string "*.ts")
    with ("*"%char :: list_ascii_of_string ".ts").
  change (list_ascii_of_string "*.tsx")
    with ("*"%char :: list_ascii_of_string ".tsx").
  rewrite !star_pattern_ends_with by reflexivity. tauto.
Qed.

Lemma visited_files_witness :
  exists evs,
    trace (snd (main_of Sprint_2_3 demo_world)) = trace demo_world ++ evs
    /\ (In (Open (in_src "locked.ts") ModeR) evs <->
        In (in_src "locked.ts") (map fst (fs demo_world))
        /\ is_under Script.src_dir (in_src "locked.ts") = true
        /\ (ends_with ".ts" (name (in_src "locked.ts"))
            \/ ends_with ".tsx" (name (in_src "locked.ts")))).
Proof.
  apply (visited_files Sprint_2_3 demo_world).
  - discriminate.
  - vm_compute. reflexivity.
Defined.
